(** * LibrePCB air-wire builder: a shallow embedding of
    [libs/librepcb/common/algorithm/airwiresbuilder.cpp]

    [AirWiresBuilder] collects the points of one net ([addPoint]) and the
    connections that already exist between them ([addEdge]).
    [buildAirWires] adds candidate edges (a hand-made path for two points
    or colinear points, a Delaunay triangulation otherwise), weighs them
    and lets [kruskalMst] pick the air wires.

    Three routines the source calls live outside the repository and are
    parameters of the model: [std::sort] (only its contract is known),
    [std::atan2], and the Delaunay triangulation.  For runs on concrete
    inputs [std::sort] is given as the GNU C++ library implements it
    ([GnuSort]). *)

From Stdlib Require Import ZArith Lia.
From Stdlib Require Import Floats.
From stdpp Require Import base list gmap relations sorting.

Local Open Scope Z_scope.

(** ** qreal values

    [mPoints] is a [std::vector<delaunay::Vector2<qreal>>] and the edges
    are [delaunay::Edge<qreal>]: coordinates and weights are binary64
    floating-point numbers.  Every value the selector computes starts from
    a [qint64] number of nanometres and goes through [-], [*] and [+]
    only, so it is always an integer; such a value is represented by that
    integer, and each operation rounds its exact result to the nearest
    binary64 value, ties to even ([round]).  Integers up to 2^53 in
    magnitude are binary64 values, so rounding leaves them alone. *)
Module Qreal.

Definition round (z : Z) : Z :=
  let a := Z.abs z in
  if a <? 2 ^ 53 then z
  else
    let e := Z.log2 a - 52 in
    let q := a / 2 ^ e in
    let r := a mod 2 ^ e in
    let half := 2 ^ (e - 1) in
    let q' :=
      if r <? half then q
      else if half <? r then q + 1
      else if Z.even q then q else q + 1 in
    Z.sgn z * (q' * 2 ^ e).

Definition sub (a b : Z) : Z := round (a - b).
Definition add (a b : Z) : Z := round (a + b).
Definition mul (a b : Z) : Z := round (a * b).

(** Conversion of a [qint64] to [qreal]. *)
Definition of_int64 (n : Z) : Z := round n.

End Qreal.

(** ** Data *)

(** [librepcb::Point], as far as the builder reads it: two lengths in
    nanometres ([getX().toNm()], [getY().toNm()] are [qint64]). *)
Record Point := mkPoint { getX : Z; getY : Z }.

(** [delaunay::Vector2<qreal>] with the [id] and [tag] members the
    builder uses. *)
Record Vector2 := mkVector2 { x : Z; y : Z; id : Z; tag : Z }.

(** [delaunay::Edge<qreal>]: the two end points are stored by value. *)
Record Edge := mkEdge { p1 : Vector2; p2 : Vector2; weight : Z }.

(** [AirWire = QPair<Point, Point>], [AirWires = QVector<AirWire>]. *)
Definition AirWire : Type := Point * Point.
Definition AirWires : Type := list AirWire.

Record AirWiresBuilder := mkBuilder {
  mPoints : list Vector2;
  mEdges : list Edge
}.

#[global] Instance Point_eq_dec : EqDecision Point.
Proof. solve_decision. Defined.
#[global] Instance Vector2_eq_dec : EqDecision Vector2.
Proof. solve_decision. Defined.
#[global] Instance Edge_eq_dec : EqDecision Edge.
Proof. solve_decision. Defined.

Definition set_tag (t : Z) (v : Vector2) : Vector2 :=
  mkVector2 (x v) (y v) (id v) t.

Definition set_weight (w : Z) (e : Edge) : Edge :=
  mkEdge (p1 e) (p2 e) w.

(** ** Machine integers *)

(** [unsigned int] (32 bit). *)
Definition wrap_uint (z : Z) : Z := z mod 2 ^ 32.

(** [int] (32 bit, two's complement). *)
Definition wrap_int (z : Z) : Z := (z + 2 ^ 31) mod 2 ^ 32 - 2 ^ 31.

(** ** The builder *)

Definition empty_builder : AirWiresBuilder := mkBuilder [] [].

(** [int id = mPoints.size(); mPoints.emplace_back(x, y, id); return id;]
    The [tag] member of a fresh point is taken as 0; [kruskalMst] writes
    it before anything could read it. *)
Definition addPoint (b : AirWiresBuilder) (p : Point) : Z * AirWiresBuilder :=
  let id := wrap_int (Z.of_nat (length (mPoints b))) in
  (id,
   mkBuilder
     (mPoints b ++ [mkVector2 (Qreal.of_int64 (getX p)) (Qreal.of_int64 (getY p)) id 0])
     (mEdges b)).

(** [mEdges.emplace_back(mPoints[p1], mPoints[p2], -1);]
    Indexing outside [mPoints] is undefined in the source: [None]. *)
Definition addEdge (b : AirWiresBuilder) (i1 i2 : Z) : option AirWiresBuilder :=
  if bool_decide (0 ≤ i1) && bool_decide (0 ≤ i2) then
    match mPoints b !! Z.to_nat i1, mPoints b !! Z.to_nat i2 with
    | Some v1, Some v2 => Some (mkBuilder (mPoints b) (mEdges b ++ [mkEdge v1 v2 (-1)]))
    | _, _ => None
    end
  else None.

(** Modelled from the spec: [Vector2::dist2] of the vendored triangulation
    library, whose header is missing.  The spec gives the weight of a
    candidate edge as the squared Euclidean distance between its two
    points; the source declares the operands and the result as [qreal],
    so the formula is evaluated in [qreal] arithmetic. *)
Definition dist2 (a b : Vector2) : Z :=
  let dx := Qreal.sub (x a) (x b) in
  let dy := Qreal.sub (y a) (y b) in
  Qreal.add (Qreal.mul dx dx) (Qreal.mul dy dy).

(** [Point(v.x, v.y)]: back from [qreal] to lengths. *)
Definition to_Point (v : Vector2) : Point := mkPoint (x v) (y v).

Definition to_AirWire (e : Edge) : AirWire := (to_Point (p1 e), to_Point (p2 e)).

(** ** Candidate edges and the selector *)

Section Builder.

(** [std::sort(first, last, comp)]. *)
Variable std_sort : ∀ A : Type, (A → A → bool) → list A → list A.

(** [std::atan2(y, x)] on integral arguments; the angle is a binary64
    number. *)
Variable atan2 : Z → Z → float.

(** [del.triangulate(mPoints); del.getEdges()]. *)
Variable triangulate : list Vector2 → list Edge.

Definition M_PI : float := 0x1.921fb54442d18p+1%float.

(** The literal [1e-6] as the compiler reads it. *)
Definition angle_tolerance : float := 0x1.0c6f7a0b5ed8dp-20%float.

(** [a = std::atan2(vy, vx); if (a < 0) a += M_PI;] *)
Definition direction (vx vy : Z) : float :=
  let a := atan2 vy vx in
  if PrimFloat.ltb a 0%float then PrimFloat.add a M_PI else a.

(** [(vp.x() * vp.x() + vp.y() * vp.y()) > 1e6], with [vp = p - p0]. *)
Definition far_enough (pp0 p : Vector2) : bool :=
  let vx := Qreal.sub (x p) (x pp0) in
  let vy := Qreal.sub (y p) (y pp0) in
  1000000 <? Qreal.add (Qreal.mul vx vx) (Qreal.mul vy vy).

(** [std::abs(a - a0) > 1e-6] for the direction [a] of [p] seen from
    [pp0]. *)
Definition off_line (a0 : float) (pp0 p : Vector2) : bool :=
  let a := direction (Qreal.sub (x p) (x pp0)) (Qreal.sub (y p) (y pp0)) in
  PrimFloat.ltb angle_tolerance (PrimFloat.abs (PrimFloat.sub a a0)).

(** The [for] loop of [arePointsColinear] over the points after the
    first two. *)
Fixpoint colinear_loop (a0 : float) (pp0 : Vector2) (rest : list Vector2) : bool :=
  match rest with
  | [] => true
  | p :: rest' =>
      if far_enough pp0 p && off_line a0 pp0 p then false
      else colinear_loop a0 pp0 rest'
  end.

Definition arePointsColinear (pts : list Vector2) : bool :=
  match pts with
  | pp0 :: pp1 :: rest =>
      if (length pts <? 3)%nat then true
      else
        let a0 := direction (Qreal.sub (x pp1) (x pp0)) (Qreal.sub (y pp1) (y pp0)) in
        colinear_loop a0 pp0 rest
  | _ => true
  end.

(** [for (i = 1; i < sortedPoints.size(); i++)
      mEdges.emplace_back(sortedPoints[i - 1], sortedPoints[i], -1);] *)
Fixpoint consecutive_edges (sortedPoints : list Vector2) : list Edge :=
  match sortedPoints with
  | a :: (b :: _) as rest => mkEdge a b (-1) :: consecutive_edges rest
  | _ => []
  end.

Definition by_x (a b : Vector2) : bool := x a <? x b.

(** The edges [buildAirWires] appends to [mEdges], before they are
    weighed. *)
Definition candidate_edges (pts : list Vector2) : list Edge :=
  if (length pts <=? 1)%nat then []
  else if (length pts =? 2)%nat then
    match pts with
    | v0 :: v1 :: _ => [mkEdge v0 v1 (-1)]
    | _ => []
    end
  else if arePointsColinear pts then
    consecutive_edges (std_sort Vector2 by_x pts)
  else triangulate pts.

(** [mEdges[i].weight = mEdges[i].p1.dist2(mEdges[i].p2)] *)
Definition weigh (e : Edge) : Edge := set_weight (dist2 (p1 e) (p2 e)) e.

(** [buildAirWires] up to the call of [kruskalMst]: the candidates are
    appended and the edges from index [connectedEdges] on are weighed. *)
Definition prepare_edges (b : AirWiresBuilder) : AirWiresBuilder :=
  let connectedEdges := Z.to_nat (wrap_uint (Z.of_nat (length (mEdges b)))) in
  let all := mEdges b ++ candidate_edges (mPoints b) in
  mkBuilder (mPoints b) (take connectedEdges all ++ (weigh <$> drop connectedEdges all)).

(** *** [kruskalMst] *)

(** The local variables of [kruskalMst] that change in its loop, with
    [mPoints] (whose [tag] members the loop writes). *)
Record MstState := mkMstState {
  st_points : list Vector2;
  st_tags : gmap Z Z;
  st_cycles : list (list Z);
  mstSize : Z;
  mstExpectedSize : Z;
  ratsnestLines : bool;
  mst : AirWires
}.

(** [tags[k]] read: [operator[]] yields 0 for a key that is absent. *)
Definition tag_at (tags : gmap Z Z) (k : Z) : Z := default 0 (tags !! k).

(** [cycles[t]]. *)
Definition cycle_at (cycles : list (list Z)) (t : Z) : list Z :=
  default [] (cycles !! Z.to_nat t).

(** [for (auto& node : mPoints) { node.tag = tag; tags[node.id] = tag++; }] *)
Fixpoint init_tags (pts : list Vector2) (tag : Z) (tags : gmap Z Z)
  : list Vector2 * gmap Z Z :=
  match pts with
  | [] => ([], tags)
  | node :: rest =>
      let '(rest', tags') :=
        init_tags rest (wrap_uint (tag + 1)) (<[id node := wrap_int tag]> tags) in
      (set_tag (wrap_int tag) node :: rest', tags')
  end.

(** One round of the retagging loops
    [tags[mPoints[*it].id] = srcTag;] and, for a known connection only,
    [mPoints[*it].tag = srcTag;]. *)
Definition retag_one (srcTag : Z) (with_points : bool)
    (acc : gmap Z Z * list Vector2) (it : Z) : gmap Z Z * list Vector2 :=
  match acc.2 !! Z.to_nat it with
  | Some node =>
      (<[id node := srcTag]> acc.1,
       if with_points then <[Z.to_nat it := set_tag srcTag node]> acc.2 else acc.2)
  | None => acc
  end.

Definition retag (srcTag : Z) (with_points : bool) (members : list Z)
    (tags : gmap Z Z) (pts : list Vector2) : gmap Z Z * list Vector2 :=
  foldl (retag_one srcTag with_points) (tags, pts) members.

(** [cycles[srcTag].splice(cycles[srcTag].end(), cycles[trgTag]);] *)
Definition splice (cycles : list (list Z)) (srcTag trgTag : Z) : list (list Z) :=
  <[Z.to_nat srcTag := cycle_at cycles srcTag ++ cycle_at cycles trgTag]>
    (<[Z.to_nat trgTag := []]> cycles).

(** The body of the [while] loop for the edge [dt = mEdges.back()]
    (the [pop_back] is done by the loop below). *)
Definition process_edge (dt : Edge) (s : MstState) : MstState :=
  let srcTag := tag_at (st_tags s) (id (p1 dt)) in
  let trgTag := tag_at (st_tags s) (id (p2 dt)) in
  if bool_decide (srcTag ≠ trgTag) then
    let ratsnest := ratsnestLines s || (0 <=? weight dt) in
    let members := cycle_at (st_cycles s) trgTag in
    let cycles' := splice (st_cycles s) srcTag trgTag in
    if ratsnest then
      let '(tags', pts') := retag srcTag false members (st_tags s) (st_points s) in
      mkMstState pts' tags' cycles' (wrap_uint (mstSize s + 1)) (mstExpectedSize s)
        ratsnest (mst s ++ [to_AirWire dt])
    else
      let '(tags', pts') := retag srcTag true members (st_tags s) (st_points s) in
      mkMstState pts' tags' cycles' (mstSize s) (wrap_uint (mstExpectedSize s - 1))
        ratsnest (mst s)
  else s.

(** [while (mstSize < mstExpectedSize && !mEdges.empty())], run on the
    edges from the back of [mEdges] to its front; the edges that are
    left when the loop stops are returned in the same order. *)
Fixpoint kruskal_loop (back_first : list Edge) (s : MstState)
  : list Edge * MstState :=
  match back_first with
  | [] => ([], s)
  | dt :: rest =>
      if mstSize s <? mstExpectedSize s
      then kruskal_loop rest (process_edge dt s)
      else (back_first, s)
  end.

Definition by_weight_desc (a b : Edge) : bool := weight b <? weight a.

(** The state on entry of the loop. *)
Definition init_state (pts : list Vector2) : MstState :=
  let nodeNumber := wrap_uint (Z.of_nat (length pts)) in
  let mstExpectedSize := wrap_uint (nodeNumber - 1) in
  let '(pts', tags) := init_tags pts 0 ∅ in
  let cycles := (λ i, [wrap_int i]) <$> seqZ 0 nodeNumber in
  mkMstState pts' tags cycles 0 mstExpectedSize false [].

(** [kruskalMst]: the air wires, and the builder as the call leaves it. *)
Definition kruskalMst (b : AirWiresBuilder) : AirWires * AirWiresBuilder :=
  let sorted := std_sort Edge by_weight_desc (mEdges b) in
  let '(rest, s) := kruskal_loop (reverse sorted) (init_state (mPoints b)) in
  (mst s, mkBuilder (st_points s) (reverse rest)).

Definition buildAirWires (b : AirWiresBuilder) : AirWires * AirWiresBuilder :=
  kruskalMst (prepare_edges b).

End Builder.

(** ** Inputs *)

(** A builder after [addPoint] for each point of [pts] and [addEdge] for
    each pair of [known]. *)
Definition add_points (pts : list Point) (b : AirWiresBuilder) : AirWiresBuilder :=
  foldl (λ b p, (addPoint b p).2) b pts.

Definition add_edges (known : list (Z * Z)) (b : AirWiresBuilder) : option AirWiresBuilder :=
  foldl (λ ob e, b ← ob; addEdge b e.1 e.2) (Some b) known.

Definition make_builder (pts : list Point) (known : list (Z * Z)) : option AirWiresBuilder :=
  add_edges known (add_points pts empty_builder).

(** ** A sorting routine

    The insertion sort that implementations of [std::sort] run on short
    ranges: each element in turn moves towards the front past the elements
    it has to precede.  The sorted prefix is kept with its last element
    first. *)
Fixpoint linear_insert {A} (comp : A → A → bool) (val : A) (sorted_rev : list A) : list A :=
  match sorted_rev with
  | [] => [val]
  | prev :: rest =>
      if comp val prev then prev :: linear_insert comp val rest
      else val :: sorted_rev
  end.

Definition insertion_sort (A : Type) (comp : A → A → bool) (l : list A) : list A :=
  reverse (foldl (λ acc val, linear_insert comp val acc) [] l).

(** [atan2] on the coordinate axes, where the C standard fixes its value:
    0 along +x, pi along -x, pi/2 along +y, -pi/2 along -y.  Off the
    axes this oracle is not an arc tangent; it is used on axis-aligned
    samples only. *)
Definition atan2_axes (vy vx : Z) : float :=
  if vy =? 0 then (if vx <? 0 then 0x1.921fb54442d18p+1%float else 0%float)
  else if 0 <? vy then 0x1.921fb54442d18p+0%float
  else (-0x1.921fb54442d18p+0)%float.

(** A triangulation of three points that are not on a line: the three
    sides of their triangle. *)
Definition triangle_edges (pts : list Vector2) : list Edge :=
  match pts with
  | [a; b; c] => [mkEdge a b 0; mkEdge b c 0; mkEdge c a 0]
  | _ => []
  end.

(** ** Another sorting routine

    [reversing_sort] is the insertion sort above run on the range read
    backwards.  It meets the contract of [std::sort], and it does not
    keep elements of equal rank in the order it found them. *)
Definition reversing_sort (A : Type) (comp : A → A → bool) (l : list A) : list A :=
  insertion_sort A comp (reverse l).

(** A triangulation of four points in convex position, given as
    [a; b; c; d] with [a] opposite [d]: the four sides and the diagonal
    [a d].  On other inputs, [triangle_edges]. *)
Definition quad_edges (pts : list Vector2) : list Edge :=
  match pts with
  | [a; b; c; d] =>
      [mkEdge a b 0; mkEdge a c 0; mkEdge b d 0; mkEdge c d 0; mkEdge a d 0]
  | _ => triangle_edges pts
  end.

(** ** [std::sort] of the GNU C++ library

    [std::sort] as libstdc++ has it in [bits/stl_algo.h] and
    [bits/stl_heap.h]: rounds of quicksort on the ranges of more than 16
    elements, a heap sort where the rounds run out, and an insertion sort
    at the end.  An array is a list, an iterator a position in it.
    Reading or writing outside the array is undefined in the source; a
    loop of the model stops there. *)
Module GnuSort.

Section Sort.
Context {A : Type} (comp : A → A → bool).

(** [comp(i, j)] on two iterators. *)
Definition comp_iter (l : list A) (i j : nat) : bool :=
  match l !! i, l !! j with
  | Some a, Some b => comp a b
  | _, _ => false
  end.

Definition iter_swap (l : list A) (i j : nat) : list A :=
  match l !! i, l !! j with
  | Some a, Some b => <[j := a]> (<[i := b]> l)
  | _, _ => l
  end.

Definition move_median_to_first (l : list A) (result a b c : nat) : list A :=
  if comp_iter l a b then
    if comp_iter l b c then iter_swap l result b
    else if comp_iter l a c then iter_swap l result c
    else iter_swap l result a
  else if comp_iter l a c then iter_swap l result a
  else if comp_iter l b c then iter_swap l result c
  else iter_swap l result b.

(** [while (comp(first, pivot)) ++first;] *)
Fixpoint skip_up (l : list A) (pivot : nat) (fuel first : nat) : nat :=
  match fuel with
  | O => first
  | S fuel' =>
      if comp_iter l first pivot then skip_up l pivot fuel' (S first) else first
  end.

(** [while (comp(pivot, last)) --last;] *)
Fixpoint skip_down (l : list A) (pivot : nat) (last : nat) : nat :=
  match last with
  | O => O
  | S last' => if comp_iter l pivot last then skip_down l pivot last' else last
  end.

Fixpoint unguarded_partition (fuel : nat) (l : list A) (first last pivot : nat)
  : nat * list A :=
  match fuel with
  | O => (first, l)
  | S fuel' =>
      let first := skip_up l pivot (length l) first in
      let last := skip_down l pivot (last - 1) in
      if (first <? last)%nat
      then unguarded_partition fuel' (iter_swap l first last) (S first) last pivot
      else (first, l)
  end.

Definition unguarded_partition_pivot (l : list A) (first last : nat) : nat * list A :=
  let mid := (first + (last - first) / 2)%nat in
  let l := move_median_to_first l first (first + 1) mid (last - 1) in
  unguarded_partition (length l) l (first + 1) last first.

(** The loop of [__unguarded_linear_insert], [val] being [*last] as it
    was on entry. *)
Fixpoint linear_insert_loop (val : A) (l : list A) (last : nat) : list A :=
  match last with
  | O => <[last := val]> l
  | S next =>
      match l !! next with
      | Some b =>
          if comp val b then linear_insert_loop val (<[last := b]> l) next
          else <[last := val]> l
      | None => <[last := val]> l
      end
  end.

Definition unguarded_linear_insert (l : list A) (last : nat) : list A :=
  match l !! last with
  | Some val => linear_insert_loop val l last
  | None => l
  end.

(** [_GLIBCXX_MOVE_BACKWARD3(first, i, i + 1)]: the elements of
    [first, i) go one place up. *)
Definition move_backward (l : list A) (first i : nat) : list A :=
  take (S first) l ++ take (i - first) (drop first l) ++ drop (S i) l.

(** The body of the loop of [__insertion_sort]. *)
Definition insertion_sort_step (first : nat) (l : list A) (i : nat) : list A :=
  if comp_iter l i first then
    match l !! i with
    | Some val => <[first := val]> (move_backward l first i)
    | None => l
    end
  else unguarded_linear_insert l i.

Definition insertion_sort (l : list A) (first last : nat) : list A :=
  if decide (first = last) then l
  else foldl (insertion_sort_step first) l (seq (first + 1) (last - (first + 1))).

Definition unguarded_insertion_sort (l : list A) (first last : nat) : list A :=
  foldl unguarded_linear_insert l (seq first (last - first)).

Definition S_threshold : nat := 16.

Definition final_insertion_sort (l : list A) (first last : nat) : list A :=
  if (S_threshold <? last - first)%nat then
    unguarded_insertion_sort (insertion_sort l first (first + S_threshold))
      (first + S_threshold) last
  else insertion_sort l first last.

(** *** The heap ([bits/stl_heap.h])

    [_Distance] is a signed integer, and [/] rounds towards zero. *)

(** [*(first + i)], read and written. *)
Definition get (l : list A) (first : nat) (i : Z) : option A :=
  if i <? 0 then None else l !! (first + Z.to_nat i)%nat.

Definition put (l : list A) (first : nat) (i : Z) (v : option A) : list A :=
  match v with
  | Some a => if i <? 0 then l else <[(first + Z.to_nat i)%nat := a]> l
  | None => l
  end.

Fixpoint push_heap (fuel : nat) (l : list A) (first : nat)
    (holeIndex topIndex : Z) (value : A) : list A :=
  let parent := Z.quot (holeIndex - 1) 2 in
  match fuel with
  | O => put l first holeIndex (Some value)
  | S fuel' =>
      if (topIndex <? holeIndex) &&
         match get l first parent with Some a => comp a value | None => false end
      then push_heap fuel' (put l first holeIndex (get l first parent)) first
             parent topIndex value
      else put l first holeIndex (Some value)
  end.

(** The [while] loop of [__adjust_heap]. *)
Fixpoint adjust_heap_loop (fuel : nat) (l : list A) (first : nat)
    (holeIndex secondChild len : Z) : list A * Z * Z :=
  match fuel with
  | O => (l, holeIndex, secondChild)
  | S fuel' =>
      if secondChild <? Z.quot (len - 1) 2 then
        let secondChild := 2 * (secondChild + 1) in
        let secondChild :=
          if match get l first secondChild, get l first (secondChild - 1) with
             | Some a, Some b => comp a b
             | _, _ => false
             end
          then secondChild - 1 else secondChild in
        adjust_heap_loop fuel' (put l first holeIndex (get l first secondChild)) first
          secondChild secondChild len
      else (l, holeIndex, secondChild)
  end.

Definition adjust_heap (l : list A) (first : nat) (holeIndex len : Z) (value : A)
  : list A :=
  let topIndex := holeIndex in
  let '(l, holeIndex, secondChild) :=
    adjust_heap_loop (Z.to_nat len) l first holeIndex holeIndex len in
  let '(l, holeIndex) :=
    if (Z.land len 1 =? 0) && (secondChild =? Z.quot (len - 2) 2) then
      let secondChild := 2 * (secondChild + 1) in
      (put l first holeIndex (get l first (secondChild - 1)), secondChild - 1)
    else (l, holeIndex) in
  push_heap (Z.to_nat len) l first holeIndex topIndex value.

Definition pop_heap (l : list A) (first last result : nat) : list A :=
  match l !! result, l !! first with
  | Some value, Some top =>
      adjust_heap (<[result := top]> l) first 0 (Z.of_nat last - Z.of_nat first) value
  | _, _ => l
  end.

(** The loop of [__make_heap], from [parent] down to 0. *)
Fixpoint make_heap_loop (l : list A) (first : nat) (len : Z) (parent : nat) : list A :=
  let l :=
    match get l first (Z.of_nat parent) with
    | Some value => adjust_heap l first (Z.of_nat parent) len value
    | None => l
    end in
  match parent with
  | O => l
  | S parent' => make_heap_loop l first len parent'
  end.

Definition make_heap (l : list A) (first last : nat) : list A :=
  let len := Z.of_nat last - Z.of_nat first in
  if len <? 2 then l
  else make_heap_loop l first len (Z.to_nat (Z.quot (len - 2) 2)).

Definition heap_select (l : list A) (first middle last : nat) : list A :=
  foldl (λ l i, if comp_iter l i first then pop_heap l first middle i else l)
    (make_heap l first middle) (seq middle (last - middle)).

(** [while (last - first > 1) { --last; __pop_heap(first, last, last); }] *)
Fixpoint sort_heap (fuel : nat) (l : list A) (first last : nat) : list A :=
  match fuel with
  | O => l
  | S fuel' =>
      if (1 <? last - first)%nat
      then sort_heap fuel' (pop_heap l first (last - 1) (last - 1)) first (last - 1)
      else l
  end.

Definition partial_sort (l : list A) (first middle last : nat) : list A :=
  sort_heap (length l) (heap_select l first middle last) first middle.

(** [__introsort_loop]: each round of the [while] loop takes one off
    [depth_limit], for the call on the upper part and for the rounds to
    come. *)
Fixpoint introsort_loop (depth_limit : nat) (l : list A) (first last : nat) : list A :=
  if (S_threshold <? last - first)%nat then
    match depth_limit with
    | O => partial_sort l first last last
    | S depth_limit' =>
        let '(cut, l) := unguarded_partition_pivot l first last in
        let l := introsort_loop depth_limit' l cut last in
        introsort_loop depth_limit' l first cut
    end
  else l.

(** [std::__lg(n)] is the position of the highest bit of [n]. *)
Definition sort (l : list A) : list A :=
  match l with
  | [] => l
  | _ =>
      let last := length l in
      final_insertion_sort (introsort_loop (Nat.log2 last * 2) l 0 last) 0 last
  end.

End Sort.

End GnuSort.

Definition gnu_sort (A : Type) (comp : A → A → bool) (l : list A) : list A :=
  GnuSort.sort comp l.

(** A triangulation of three points that has no triangle, and so no
    edge, for three points on one line; otherwise the three sides. *)
Definition proper_triangle_edges (pts : list Vector2) : list Edge :=
  match pts with
  | [a; b; c] =>
      if (x b - x a) * (y c - y a) - (x c - x a) * (y b - y a) =? 0 then []
      else triangle_edges pts
  | _ => []
  end.

(** ** Vocabulary of the statements *)

(** What [std::sort] asks of its comparison: a strict weak ordering. *)
Record StrictWeakOrder {A} (comp : A → A → bool) : Prop := mkStrictWeakOrder {
  swo_irrefl : ∀ a, comp a a = false;
  swo_trans : ∀ a b c, comp a b = true → comp b c = true → comp a c = true;
  swo_neg_trans : ∀ a b c, comp a b = false → comp b c = false → comp a c = false
}.

(** What [std::sort] promises: the range is rearranged so that no element
    has to precede an element before it.  Nothing is said on the order of
    elements neither of which has to precede the other. *)
Definition std_sort_contract
    (sort : ∀ A : Type, (A → A → bool) → list A → list A) : Prop :=
  ∀ (A : Type) (comp : A → A → bool), StrictWeakOrder comp →
    ∀ l, sort A comp l ≡ₚ l ∧ StronglySorted (λ a b, comp b a = false) (sort A comp l).

(** The identities an edge joins. *)
Definition ends (e : Edge) : Z * Z := (id (p1 e), id (p2 e)).

(** Connectivity of identities under a list of joined pairs. *)
Definition adjacent (E : list (Z * Z)) : relation Z := λ a b, (a, b) ∈ E.
Definition connected (E : list (Z * Z)) : relation Z := rtsc (adjacent E).

(** [reps] holds exactly one identity of each class of [R] on [0, n). *)
Definition class_system (n : Z) (R : relation Z) (reps : list Z) : Prop :=
  NoDup reps ∧
  (∀ r, r ∈ reps → 0 ≤ r < n) ∧
  (∀ r r', r ∈ reps → r' ∈ reps → R r r' → r = r') ∧
  (∀ i, 0 ≤ i < n → ∃ r, r ∈ reps ∧ R i r).

Definition class_count (n : Z) (R : relation Z) (c : nat) : Prop :=
  ∃ reps, class_system n R reps ∧ length reps = c.

(** A known connection carries the weight -1, a candidate its squared
    length. *)
Definition is_known (e : Edge) : bool := weight e <? 0.

Definition valid_edge (n : Z) (e : Edge) : Prop :=
  0 ≤ id (p1 e) < n ∧ 0 ≤ id (p2 e) < n.

(** The points of a builder carry their index as identity. *)
Definition wf_points (n : Z) (pts : list Vector2) : Prop :=
  Z.of_nat (length pts) = n ∧
  ∀ (i : nat) v, pts !! i = Some v → id v = Z.of_nat i.

(** What [kruskalMst] leaves alone in a point. *)
Definition geometry (v : Vector2) : Z * Z * Z := (x v, y v, id v).

(** The union-find structure of the loop: every identity of [0, n) has a
    tag in [0, n), a tag is the identity of a point that carries it, and
    [cycles[t]] lists the points tagged [t]. *)
Record Inv (n : Z) (s : MstState) : Prop := mkInv {
  inv_points : wf_points n (st_points s);
  inv_cycles_length : Z.of_nat (length (st_cycles s)) = n;
  inv_tag_range : ∀ i, 0 ≤ i < n → 0 ≤ tag_at (st_tags s) i < n;
  inv_tag_idem : ∀ i, 0 ≤ i < n →
    tag_at (st_tags s) (tag_at (st_tags s) i) = tag_at (st_tags s) i;
  inv_cycles : ∀ t i, 0 ≤ t < n →
    i ∈ cycle_at (st_cycles s) t ↔ 0 ≤ i < n ∧ tag_at (st_tags s) i = t
}.

(** The points that carry their own identity as tag: one per component. *)
Definition reps (n : Z) (s : MstState) : list Z :=
  filter (λ i, tag_at (st_tags s) i = i) (seqZ 0 n).

(** The edge joins two components of the state. *)
Definition joins (dt : Edge) (s : MstState) : bool :=
  bool_decide (tag_at (st_tags s) (id (p1 dt)) ≠ tag_at (st_tags s) (id (p2 dt))).

(** The loop invariant, with the history of the run: [P] the edges
    processed so far, [K] the known connections among them that merged
    two components, [M] the edges emitted as air wires. *)
Record Ghost (n : Z) (P K M : list Edge) (s : MstState) : Prop := mkGhost {
  gh_inv : Inv n s;
  gh_valid : ∀ e, e ∈ P → valid_edge n e;
  gh_K : ∀ e, e ∈ K → e ∈ P ∧ is_known e = true;
  gh_M : ∀ e, e ∈ M → e ∈ P ∧ is_known e = false;
  gh_sound : ∀ e, e ∈ P →
    tag_at (st_tags s) (id (p1 e)) = tag_at (st_tags s) (id (p2 e));
  gh_complete : ∀ i j, 0 ≤ i < n → 0 ≤ j < n →
    tag_at (st_tags s) i = tag_at (st_tags s) j →
    connected (ends <$> (K ++ M)) i j;
  gh_known : ∀ e, e ∈ P → is_known e = true →
    connected (ends <$> K) (id (p1 e)) (id (p2 e));
  gh_Kclass : class_count n (connected (ends <$> K)) (length (reps n s) + length M);
  gh_mst : mst s = to_AirWire <$> M;
  gh_size : mstSize s = Z.of_nat (length M);
  gh_expected :
    mstExpectedSize s = Z.of_nat (length (reps n s)) + Z.of_nat (length M) - 1;
  gh_bound : mstExpectedSize s < 2 ^ 32;
  gh_rl_false : ratsnestLines s = false → M = [];
  gh_rl_true : ratsnestLines s = true → ∃ e, e ∈ P ∧ 0 ≤ weight e
}.

(** What the selector is to compute from the edges in processing order,
    given the pairs [E] joined already: a known connection joins its ends
    and is never emitted; a candidate is emitted exactly when its ends
    are not connected yet. *)
Inductive Selects : list (Z * Z) → list Edge → list Edge → Prop :=
| selects_nil E : Selects E [] []
| selects_known E e L M :
    is_known e = true → Selects (ends e :: E) L M → Selects E (e :: L) M
| selects_skip E e L M :
    is_known e = false → connected E (id (p1 e)) (id (p2 e)) →
    Selects E L M → Selects E (e :: L) M
| selects_take E e L M :
    is_known e = false → ¬ connected E (id (p1 e)) (id (p2 e)) →
    Selects (ends e :: E) L M → Selects E (e :: L) (e :: M).

(** The loop stopped after at most [k] rounds. *)
Fixpoint kruskal_steps (k : nat) (back_first : list Edge) (s : MstState)
  : list Edge * MstState :=
  match k, back_first with
  | S k', dt :: rest =>
      if mstSize s <? mstExpectedSize s
      then kruskal_steps k' rest (process_edge dt s)
      else (back_first, s)
  | _, _ => (back_first, s)
  end.

(** The point [addPoint] stores for [p], up to its identity. *)
Definition stored (p : Point) : Point :=
  mkPoint (Qreal.of_int64 (getX p)) (Qreal.of_int64 (getY p)).

(** The edge [addEdge] stores for a pair of identities. *)
Definition known_edge (pts : list Vector2) (k : Z * Z) (e : Edge) : Prop :=
  0 ≤ k.1 ∧ 0 ≤ k.2 ∧
  ∃ v1 v2, pts !! Z.to_nat k.1 = Some v1 ∧ pts !! Z.to_nat k.2 = Some v2 ∧
           e = mkEdge v1 v2 (-1).

(** * Properties *)

(** ** [Qreal] *)

Lemma round_exact z : Z.abs z ≤ 2 ^ 53 → Qreal.round z = z.
Proof.
  intros Hz. unfold Qreal.round.
  destruct (Z.ltb_spec (Z.abs z) (2 ^ 53)) as [|Hge]; [done|].
  assert (Z.abs z = 2 ^ 53) as Ha by lia.
  rewrite Ha.
  destruct (Z.abs_eq_or_opp z) as [Hz'|Hz']; rewrite Hz' in Ha.
  - subst z. vm_compute. done.
  - assert (z = - 2 ^ 53) as -> by lia. vm_compute. done.
Qed.

Lemma round_nonneg z : 0 ≤ z → 0 ≤ Qreal.round z.
Proof.
  intros Hz. unfold Qreal.round.
  destruct (Z.ltb_spec (Z.abs z) (2 ^ 53)) as [|Hge]; [done|].
  assert (0 < z) as Hpos by lia.
  rewrite (Z.sgn_pos z Hpos), Z.mul_1_l.
  set (a := Z.abs z). set (e := Z.log2 a - 52).
  assert (0 ≤ 2 ^ e) by (apply Z.pow_nonneg; lia).
  assert (0 ≤ a / 2 ^ e).
  { destruct (decide (2 ^ e = 0)) as [->|]; [by rewrite Z.div_0_r|].
    apply Z.div_pos; lia. }
  repeat case_match; nia.
Qed.

Lemma dist2_nonneg a b : 0 ≤ dist2 a b.
Proof.
  unfold dist2, Qreal.add, Qreal.mul.
  apply round_nonneg.
  assert (∀ z, 0 ≤ Qreal.round (z * z)) as H
    by (intros z; apply round_nonneg; nia).
  specialize (H (Qreal.sub (x a) (x b))) as H1.
  specialize (H (Qreal.sub (y a) (y b))) as H2. lia.
Qed.

(** Within 2^53, [dist2] is the squared Euclidean distance. *)
Lemma dist2_exact a b :
  Z.abs (x a - x b) ≤ 2 ^ 53 → Z.abs (y a - y b) ≤ 2 ^ 53 →
  (x a - x b) ^ 2 + (y a - y b) ^ 2 ≤ 2 ^ 53 →
  dist2 a b = (x a - x b) ^ 2 + (y a - y b) ^ 2.
Proof.
  intros Hx Hy Hs. unfold dist2, Qreal.add, Qreal.mul, Qreal.sub.
  rewrite !(round_exact (_ - _)) by done.
  rewrite !(round_exact (_ * _)) by nia.
  rewrite round_exact by nia. lia.
Qed.

(** ** Sorting *)

Lemma swo_asym {A} (comp : A → A → bool) a b :
  StrictWeakOrder comp → comp a b = true → comp b a = false.
Proof.
  intros Hc Hab. destruct (comp b a) eqn:Hba; [|done].
  by rewrite <-(swo_irrefl comp Hc a), (swo_trans comp Hc a b a).
Qed.

Lemma by_weight_desc_swo : StrictWeakOrder by_weight_desc.
Proof.
  split; unfold by_weight_desc; intros *; rewrite ?Z.ltb_lt, ?Z.ltb_ge; lia.
Qed.

Lemma by_x_swo : StrictWeakOrder by_x.
Proof.
  split; unfold by_x; intros *; rewrite ?Z.ltb_lt, ?Z.ltb_ge; lia.
Qed.

Lemma StronglySorted_reverse {A} (R : relation A) l :
  StronglySorted R l → StronglySorted (flip R) (reverse l).
Proof.
  induction 1 as [|a l Hl IH Ha]; [constructor|].
  rewrite reverse_cons. apply StronglySorted_app_2; [|done|repeat constructor].
  intros x1 x2 Hx1 ->%list_elem_of_singleton.
  rewrite elem_of_reverse in Hx1. rewrite Forall_forall in Ha. by apply Ha.
Qed.

Section InsertionSort.
Context {A : Type} (comp : A → A → bool).

Lemma linear_insert_perm val l : linear_insert comp val l ≡ₚ val :: l.
Proof.
  induction l as [|prev l IH]; simpl; [done|].
  destruct (comp val prev); [|done].
  rewrite IH. apply Permutation_swap.
Qed.

Lemma linear_insert_sorted val l :
  StrictWeakOrder comp →
  StronglySorted (λ a b, comp a b = false) l →
  StronglySorted (λ a b, comp a b = false) (linear_insert comp val l).
Proof.
  intros Hc. induction 1 as [|prev l Hl IH Hprev]; simpl.
  { repeat constructor. }
  destruct (comp val prev) eqn:Hvp.
  - constructor; [done|].
    rewrite linear_insert_perm. constructor; [|done].
    by apply swo_asym.
  - constructor; [by constructor|].
    constructor; [done|].
    eapply Forall_impl; [exact Hprev|].
    intros z Hz. by apply (swo_neg_trans comp Hc val prev z).
Qed.

Lemma insertion_pass_perm l acc :
  foldl (λ acc val, linear_insert comp val acc) acc l ≡ₚ l ++ acc.
Proof.
  revert acc. induction l as [|a l IH]; intros acc; simpl; [done|].
  rewrite IH, linear_insert_perm. by rewrite Permutation_middle.
Qed.

Lemma insertion_pass_sorted l acc :
  StrictWeakOrder comp →
  StronglySorted (λ a b, comp a b = false) acc →
  StronglySorted (λ a b, comp a b = false)
    (foldl (λ acc val, linear_insert comp val acc) acc l).
Proof.
  intros Hc. revert acc. induction l as [|a l IH]; intros acc Hacc; simpl; [done|].
  by apply IH, linear_insert_sorted.
Qed.

End InsertionSort.

Lemma insertion_sort_contract : std_sort_contract insertion_sort.
Proof.
  intros A comp Hc l. unfold insertion_sort. split.
  - by rewrite reverse_Permutation, insertion_pass_perm, app_nil_r.
  - apply (StronglySorted_reverse (λ a b, comp a b = false)).
    apply insertion_pass_sorted; [done|constructor].
Qed.

(** ** Connectivity *)

#[local] Instance connected_equivalence E : Equivalence (connected E).
Proof. unfold connected. apply _. Qed.

Lemma connected_edge E a b : (a, b) ∈ E → connected E a b.
Proof. intros H. by apply rtsc_lr. Qed.

(** A map that agrees on the two ends of every pair agrees on connected
    identities. *)
Lemma connected_invariant {B} (f : Z → B) E i j :
  (∀ a b, (a, b) ∈ E → f a = f b) → connected E i j → f i = f j.
Proof.
  intros Hf. induction 1 as [|i k j [Hik|Hki] _ IH]; [done| |].
  - by rewrite (Hf _ _ Hik).
  - by rewrite <-(Hf _ _ Hki).
Qed.

(** Pairs that [E] already connects add nothing. *)
Lemma connected_refine E E' i j :
  (∀ a b, (a, b) ∈ E' → connected E a b) → connected E' i j → connected E i j.
Proof.
  intros Hsub. induction 1 as [|i k j [Hik|Hki] _ IH]; [done| |].
  - by rewrite (Hsub _ _ Hik).
  - by rewrite <-(Hsub _ _ Hki).
Qed.

Lemma connected_mono E E' i j :
  (∀ p, p ∈ E → p ∈ E') → connected E i j → connected E' i j.
Proof.
  intros Hsub. apply connected_refine. intros a b Hab.
  by apply connected_edge, Hsub.
Qed.

Lemma connected_perm E E' i j : E ≡ₚ E' → connected E i j ↔ connected E' i j.
Proof.
  intros HE. split; apply connected_mono; intros p; by rewrite HE.
Qed.

Lemma connected_absorb E a b i j :
  connected E a b → connected ((a, b) :: E) i j ↔ connected E i j.
Proof.
  intros Hab. split.
  - apply connected_refine. intros a' b' [[= -> ->]|H]%elem_of_cons; [done|].
    by apply connected_edge.
  - apply connected_mono. intros p. by apply elem_of_cons_2 || (intros; by right).
Qed.

(** Relations with the same classes have class systems of the same size. *)
Lemma class_system_le n R reps reps' :
  Equivalence R → class_system n R reps → class_system n R reps' →
  (length reps ≤ length reps')%nat.
Proof.
  intros HR (Hnd & Hin & Hsep & _) (_ & _ & _ & Hcov').
  assert (∃ img, Forall2 (λ r r', r' ∈ reps' ∧ R r r') reps img) as [img Himg].
  { clear Hnd Hsep. induction reps as [|r reps IH]; [by exists []|].
    destruct IH as [img Himg]; [intros; apply Hin; by right|].
    destruct (Hcov' r) as (r' & Hr' & Hrr'); [apply Hin; by left|].
    exists (r' :: img). by constructor. }
  rewrite (Forall2_length _ _ _ Himg).
  apply submseteq_length, NoDup_submseteq.
  - clear Hin. revert Hnd Hsep.
    induction Himg as [|u v us vs [Hv Huv] Himg IH]; intros Hnd Hsep; [constructor|].
    apply NoDup_cons in Hnd as [Hnotin Hnd].
    constructor; [|apply IH; [done|]].
    + intros Hvs. apply Hnotin.
      apply list_elem_of_lookup in Hvs as [k Hk].
      destruct (Forall2_lookup_r _ _ _ _ _ Himg Hk) as (u2 & Hu2 & _ & Hu2v).
      assert (u = u2) as ->; [|by eapply list_elem_of_lookup_2].
      apply Hsep; [by left|right; by eapply list_elem_of_lookup_2|].
      by rewrite Huv, Hu2v.
    + intros a b Ha Hb. apply Hsep; by right.
  - intros v Hv. apply list_elem_of_lookup in Hv as [k Hk].
    by destruct (Forall2_lookup_r _ _ _ _ _ Himg Hk) as (? & _ & ? & _).
Qed.

Lemma class_count_unique n R c c' :
  Equivalence R → class_count n R c → class_count n R c' → c = c'.
Proof.
  intros HR (reps & Hreps & <-) (reps' & Hreps' & <-).
  apply Nat.le_antisymm; by eapply class_system_le.
Qed.

Lemma class_system_proper n R R' reps :
  (∀ i j, R i j ↔ R' i j) → class_system n R reps → class_system n R' reps.
Proof.
  intros HRR (Hnd & Hin & Hsep & Hcov).
  split; [done|]. split; [done|]. split.
  - intros r r' Hr Hr' HR'. apply Hsep; [done..|]. by apply HRR.
  - intros i Hi. destruct (Hcov i Hi) as (r & Hr & HR). exists r. split; [done|].
    by apply HRR.
Qed.

(** ** The retagging loops *)

Lemma wf_points_geometry n pts pts' :
  geometry <$> pts' = geometry <$> pts → wf_points n pts → wf_points n pts'.
Proof.
  intros Hg [Hlen Hid]. split.
  - by rewrite <-Hlen, <-(length_fmap geometry pts'), Hg, length_fmap.
  - intros i v' Hv'.
    assert ((geometry <$> pts) !! i = Some (geometry v')) as Hi
      by (by rewrite <-Hg, list_lookup_fmap, Hv').
    rewrite list_lookup_fmap in Hi.
    destruct (pts !! i) as [v|] eqn:Hv; simplify_eq/=.
    rewrite <-(Hid i v Hv). unfold geometry in *. congruence.
Qed.

Lemma wf_points_lookup n pts i :
  wf_points n pts → 0 ≤ i < n → ∃ v, pts !! Z.to_nat i = Some v ∧ id v = i.
Proof.
  intros [Hlen Hid] Hi.
  destruct (lookup_lt_is_Some_2 pts (Z.to_nat i)) as [v Hv]; [lia|].
  exists v. split; [done|]. rewrite (Hid _ _ Hv). lia.
Qed.

Lemma retag_spec n srcTag with_points members tags pts :
  wf_points n pts → Forall (λ it, 0 ≤ it < n) members →
  (∀ k, (retag srcTag with_points members tags pts).1 !! k =
        if decide (k ∈ members) then Some srcTag else tags !! k) ∧
  geometry <$> (retag srcTag with_points members tags pts).2 = geometry <$> pts.
Proof.
  unfold retag. intros Hwf Hmem. revert tags pts Hwf.
  induction Hmem as [|it members Hit Hmem IH]; intros tags pts Hwf; simpl.
  { done. }
  destruct (wf_points_lookup n pts it Hwf Hit) as (node & Hnode & Hid).
  replace (retag_one srcTag with_points (tags, pts) it) with
    (<[it:=srcTag]> tags,
     if with_points then <[Z.to_nat it:=set_tag srcTag node]> pts else pts)
    by (unfold retag_one; simpl; by rewrite Hnode, Hid).
  set (pts1 := if with_points then _ else _).
  assert (geometry <$> pts1 = geometry <$> pts) as Hg1.
  { subst pts1. destruct with_points; [|done].
    rewrite list_fmap_insert. apply list_insert_id.
    by rewrite list_lookup_fmap, Hnode. }
  destruct (IH (<[it:=srcTag]> tags) pts1) as [Htags Hg].
  { by eapply wf_points_geometry. }
  split; [|by rewrite Hg].
  intros k. rewrite Htags.
  destruct (decide (k = it)) as [->|Hne].
  - rewrite (decide_True (P := it ∈ it :: members)) by left.
    case_decide; [done|]. by rewrite lookup_insert_eq.
  - rewrite lookup_insert_ne by done.
    destruct (decide (k ∈ members)) as [Hk|Hk].
    + by rewrite decide_True by (by right).
    + rewrite decide_False; [done|]. by intros [?|?]%elem_of_cons.
Qed.

(** ** One round of the loop *)

Lemma process_edge_same dt s :
  tag_at (st_tags s) (id (p1 dt)) = tag_at (st_tags s) (id (p2 dt)) →
  process_edge dt s = s.
Proof. intros H. unfold process_edge. by rewrite bool_decide_false by (by intros []). Qed.

Lemma cycle_at_splice n cycles srcTag trgTag t :
  Z.of_nat (length cycles) = n → 0 ≤ srcTag < n → 0 ≤ trgTag < n → 0 ≤ t < n →
  srcTag ≠ trgTag →
  cycle_at (splice cycles srcTag trgTag) t =
    if decide (t = srcTag) then cycle_at cycles srcTag ++ cycle_at cycles trgTag
    else if decide (t = trgTag) then [] else cycle_at cycles t.
Proof.
  intros Hlen Hs Ht Htt Hne. unfold splice, cycle_at at 1.
  destruct (decide (t = srcTag)) as [->|Hts].
  { rewrite list_lookup_insert_eq; [done|]. rewrite length_insert. lia. }
  rewrite list_lookup_insert_ne by lia.
  destruct (decide (t = trgTag)) as [->|Htt'].
  { rewrite list_lookup_insert_eq; [done|]. lia. }
  by rewrite list_lookup_insert_ne by lia.
Qed.

(** The state after a merge: the points tagged [trgTag] now carry
    [srcTag], nothing else moved. *)
Lemma join_inv n s s' srcTag trgTag with_points :
  Inv n s → 0 ≤ srcTag < n → 0 ≤ trgTag < n → srcTag ≠ trgTag →
  tag_at (st_tags s) srcTag = srcTag → tag_at (st_tags s) trgTag = trgTag →
  (st_tags s', st_points s') =
    retag srcTag with_points (cycle_at (st_cycles s) trgTag) (st_tags s) (st_points s) →
  st_cycles s' = splice (st_cycles s) srcTag trgTag →
  (∀ k, 0 ≤ k < n → tag_at (st_tags s') k =
     if decide (tag_at (st_tags s) k = trgTag) then srcTag else tag_at (st_tags s) k) ∧
  geometry <$> st_points s' = geometry <$> st_points s ∧
  Inv n s'.
Proof.
  intros [Hwf Hclen Hrange Hidem Hcyc] Hs Ht Hne Hsrc Htrg Hretag Hcycles.
  destruct (retag_spec n srcTag with_points (cycle_at (st_cycles s) trgTag)
              (st_tags s) (st_points s)) as [Htags Hgeo]; [done| |].
  { apply Forall_forall. intros it Hit. by apply (Hcyc trgTag it Ht) in Hit as [? _]. }
  rewrite <-Hretag in Htags, Hgeo. simpl in Htags, Hgeo.
  assert (∀ k, 0 ≤ k < n → tag_at (st_tags s') k =
     if decide (tag_at (st_tags s) k = trgTag) then srcTag else tag_at (st_tags s) k)
    as Htag'.
  { intros k Hk. unfold tag_at at 1. rewrite Htags.
    destruct (decide (tag_at (st_tags s) k = trgTag)) as [Hkt|Hkt].
    - rewrite decide_True; [done|]. by apply Hcyc.
    - rewrite decide_False; [done|]. intros Hin. by apply Hcyc in Hin as [_ ?]. }
  split; [done|]. split; [done|]. split.
  - by eapply wf_points_geometry.
  - rewrite Hcycles. unfold splice. by rewrite !length_insert.
  - intros i Hi. rewrite (Htag' i Hi). case_decide; [done|]. by apply Hrange.
  - intros i Hi. rewrite (Htag' i Hi).
    destruct (decide (tag_at (st_tags s) i = trgTag)) as [Hit|Hit].
    + rewrite (Htag' srcTag Hs), Hsrc. by rewrite decide_False.
    + rewrite (Htag' _ (Hrange i Hi)), (Hidem i Hi). by rewrite decide_False.
  - intros t i Htr. rewrite Hcycles.
    rewrite (cycle_at_splice n) by done.
    destruct (decide (t = srcTag)) as [->|Hts].
    { rewrite elem_of_app, !Hcyc by done. split.
      - intros [[Hi Hsi]|[Hi Hti]]; (split; [done|]); rewrite (Htag' i Hi).
        + rewrite decide_False; [done|congruence].
        + by rewrite decide_True.
      - intros [Hi Hi']. rewrite (Htag' i Hi) in Hi'.
        case_decide; [right|left]; done. }
    destruct (decide (t = trgTag)) as [->|Htt].
    { split; [by intros ?%not_elem_of_nil|].
      intros [Hi Hi']. rewrite (Htag' i Hi) in Hi'. case_decide; congruence. }
    rewrite Hcyc by done. split; intros [Hi Hi']; (split; [done|]).
    + rewrite (Htag' i Hi). rewrite decide_False; [done|congruence].
    + rewrite (Htag' i Hi) in Hi'. case_decide; congruence.
Qed.

Lemma filter_ext_in {A} (P Q : A → Prop)
    `{!∀ a, Decision (P a)} `{!∀ a, Decision (Q a)} (l : list A) :
  (∀ a, a ∈ l → P a ↔ Q a) → filter P l = filter Q l.
Proof.
  induction l as [|a l IH]; intros HPQ; [done|].
  rewrite !filter_cons, IH by (intros; apply HPQ; by right).
  destruct (decide (P a)) as [HP|HP], (decide (Q a)) as [HQ|HQ]; try done;
    exfalso; apply (HPQ a) in HP || apply (HPQ a) in HQ; done || by left.
Qed.

Lemma filter_drop_one {A} (P P' : A → Prop)
    `{!∀ a, Decision (P a)} `{!∀ a, Decision (P' a)} (l : list A) a0 :
  NoDup l → a0 ∈ l → P a0 → (∀ a, a ∈ l → P' a ↔ P a ∧ a ≠ a0) →
  (length (filter P' l) + 1 = length (filter P l))%nat.
Proof.
  induction 1 as [|a l Hnotin Hnd IH]; intros Hin HP0 HP'; [by apply not_elem_of_nil in Hin|].
  rewrite !filter_cons.
  apply elem_of_cons in Hin as [->|Hin].
  - rewrite (decide_True (P := P a)) by done.
    rewrite (decide_False (P := P' a))
      by (intros H1; apply HP' in H1 as [_ ?]; [done|by left]).
    rewrite (filter_ext_in P' P l); [simpl; lia|].
    intros a' Ha'. rewrite HP' by (by right). split; [by intros []|].
    intros HPa. split; [done|]. by intros ->.
  - assert (a ≠ a0) as Hne by (by intros ->).
    specialize (IH Hin HP0 (λ a' Ha', HP' a' (proj2 (elem_of_cons _ _ _) (or_intror Ha')))).
    destruct (decide (P a)) as [HPa|HPa].
    + rewrite (decide_True (P := P' a)) by (apply HP'; [by left|done]). simpl. lia.
    + rewrite (decide_False (P := P' a)); [done|].
      intros H1. apply HP' in H1 as [? _]; [done|by left].
Qed.

Lemma reps_join n s s' srcTag trgTag :
  0 ≤ srcTag < n → 0 ≤ trgTag < n → srcTag ≠ trgTag →
  tag_at (st_tags s) srcTag = srcTag → tag_at (st_tags s) trgTag = trgTag →
  (∀ k, 0 ≤ k < n → tag_at (st_tags s') k =
     if decide (tag_at (st_tags s) k = trgTag) then srcTag else tag_at (st_tags s) k) →
  (length (reps n s') + 1 = length (reps n s))%nat.
Proof.
  intros Hs Ht Hne Hsrc Htrg Htag'. unfold reps.
  apply (filter_drop_one _ _ _ trgTag); [apply NoDup_seqZ| |done|].
  - apply elem_of_seqZ. lia.
  - intros k Hk%elem_of_seqZ. rewrite Htag' by lia.
    destruct (decide (tag_at (st_tags s) k = trgTag)) as [Hkt|Hkt].
    + split; [intros <-; congruence|]. intros [Hk' Hkne]. congruence.
    + split; [|by intros []]. intros Hk'. split; [done|congruence].
Qed.

Lemma process_edge_join n dt s :
  Inv n s → valid_edge n dt →
  tag_at (st_tags s) (id (p1 dt)) ≠ tag_at (st_tags s) (id (p2 dt)) →
  (∀ k, 0 ≤ k < n → tag_at (st_tags (process_edge dt s)) k =
     if decide (tag_at (st_tags s) k = tag_at (st_tags s) (id (p2 dt)))
     then tag_at (st_tags s) (id (p1 dt)) else tag_at (st_tags s) k) ∧
  geometry <$> st_points (process_edge dt s) = geometry <$> st_points s ∧
  Inv n (process_edge dt s) ∧
  (length (reps n (process_edge dt s)) + 1 = length (reps n s))%nat ∧
  ratsnestLines (process_edge dt s) = ratsnestLines s || (0 <=? weight dt) ∧
  (if ratsnestLines (process_edge dt s)
   then mst (process_edge dt s) = mst s ++ [to_AirWire dt] ∧
        mstSize (process_edge dt s) = wrap_uint (mstSize s + 1) ∧
        mstExpectedSize (process_edge dt s) = mstExpectedSize s
   else mst (process_edge dt s) = mst s ∧
        mstSize (process_edge dt s) = mstSize s ∧
        mstExpectedSize (process_edge dt s) = wrap_uint (mstExpectedSize s - 1)).
Proof.
  intros HI [Ha Hb] Hne.
  set (srcTag := tag_at (st_tags s) (id (p1 dt))) in *.
  set (trgTag := tag_at (st_tags s) (id (p2 dt))) in *.
  assert (0 ≤ srcTag < n) as Hs by (by apply HI).
  assert (0 ≤ trgTag < n) as Ht by (by apply HI).
  assert (tag_at (st_tags s) srcTag = srcTag) as Hsrc by (by apply HI).
  assert (tag_at (st_tags s) trgTag = trgTag) as Htrg by (by apply HI).
  assert (∀ s', (st_tags s', st_points s') =
      retag srcTag (negb (ratsnestLines s || (0 <=? weight dt)))
        (cycle_at (st_cycles s) trgTag) (st_tags s) (st_points s) →
      st_cycles s' = splice (st_cycles s) srcTag trgTag →
      (∀ k, 0 ≤ k < n → tag_at (st_tags s') k =
        if decide (tag_at (st_tags s) k = trgTag) then srcTag else tag_at (st_tags s) k) ∧
      geometry <$> st_points s' = geometry <$> st_points s ∧ Inv n s' ∧
      (length (reps n s') + 1 = length (reps n s))%nat) as Hgen.
  { intros s' Hretag Hcycles.
    destruct (join_inv n s s' srcTag trgTag _ HI Hs Ht Hne Hsrc Htrg Hretag Hcycles)
      as (Htag' & Hgeo & HI').
    split; [done|]. split; [done|]. split; [done|].
    by apply (reps_join n s s' srcTag trgTag). }
  unfold process_edge. fold srcTag trgTag. rewrite bool_decide_true by done.
  destruct (ratsnestLines s || (0 <=? weight dt)) eqn:Hrl; simpl in Hgen.
  - destruct (retag srcTag false _ _ _) as [tags' pts'] eqn:Hretag.
    destruct (Hgen (mkMstState pts' tags' (splice (st_cycles s) srcTag trgTag)
      (wrap_uint (mstSize s + 1)) (mstExpectedSize s) true (mst s ++ [to_AirWire dt])))
      as (? & ? & ? & ?); done.
  - destruct (retag srcTag true _ _ _) as [tags' pts'] eqn:Hretag.
    destruct (Hgen (mkMstState pts' tags' (splice (st_cycles s) srcTag trgTag)
      (mstSize s) (wrap_uint (mstExpectedSize s - 1)) false (mst s)))
      as (? & ? & ? & ?); done.
Qed.

(** ** The loop invariant *)

Lemma connected_same_tag n P K M s i j :
  Ghost n P K M s → connected (ends <$> (K ++ M)) i j →
  tag_at (st_tags s) i = tag_at (st_tags s) j.
Proof.
  intros HG. apply connected_invariant. intros a b Hab.
  apply list_elem_of_fmap in Hab as (e & [= -> ->] & He).
  apply (gh_sound _ _ _ _ _ HG).
  apply elem_of_app in He as [He|He]; [by apply (gh_K _ _ _ _ _ HG)|by apply (gh_M _ _ _ _ _ HG)].
Qed.

(** The representatives of a state are a class system of the connectivity
    its tags stand for. *)
Lemma reps_class_system n s E :
  Inv n s →
  (∀ a b, (a, b) ∈ E → tag_at (st_tags s) a = tag_at (st_tags s) b) →
  (∀ i j, 0 ≤ i < n → 0 ≤ j < n →
     tag_at (st_tags s) i = tag_at (st_tags s) j → connected E i j) →
  class_system n (connected E) (reps n s).
Proof.
  intros HI Hsound Hcomplete. unfold reps. split; [|split; [|split]].
  - apply NoDup_filter, NoDup_seqZ.
  - intros r [_ Hr%elem_of_seqZ]%list_elem_of_filter. lia.
  - intros r r' [Hr _]%list_elem_of_filter [Hr' _]%list_elem_of_filter Hc.
    rewrite <-Hr, <-Hr'. by eapply connected_invariant.
  - intros i Hi. exists (tag_at (st_tags s) i).
    pose proof (inv_tag_range n s HI i Hi) as Hr.
    pose proof (inv_tag_idem n s HI i Hi) as Hidem.
    split.
    + apply list_elem_of_filter. split; [done|]. apply elem_of_seqZ. lia.
    + by apply Hcomplete.
Qed.

Lemma reps_tag n s i : Inv n s → 0 ≤ i < n → tag_at (st_tags s) i ∈ reps n s.
Proof.
  intros HI Hi. apply list_elem_of_filter. split; [by apply HI|].
  apply elem_of_seqZ. pose proof (inv_tag_range n s HI i Hi). lia.
Qed.

Lemma reps_single n s i j :
  Inv n s → (length (reps n s) ≤ 1)%nat → 0 ≤ i < n → 0 ≤ j < n →
  tag_at (st_tags s) i = tag_at (st_tags s) j.
Proof.
  intros HI Hlen Hi Hj.
  pose proof (reps_tag n s i HI Hi) as Hri. pose proof (reps_tag n s j HI Hj) as Hrj.
  destruct (reps n s) as [|r [|r' l]]; simpl in Hlen; [by apply not_elem_of_nil in Hri| |lia].
  apply list_elem_of_singleton in Hri, Hrj. congruence.
Qed.

(** The loop goes on exactly while more than one component is left. *)
Lemma ghost_cond n P K M s :
  Ghost n P K M s →
  mstSize s < mstExpectedSize s ↔ (2 ≤ length (reps n s))%nat.
Proof.
  intros HG. rewrite (gh_size _ _ _ _ _ HG), (gh_expected _ _ _ _ _ HG). lia.
Qed.

Lemma join_complete (tg tg' : Z → Z) n E E' a b :
  (∀ p, p ∈ E → p ∈ E') → (a, b) ∈ E' → 0 ≤ a < n → 0 ≤ b < n →
  (∀ i j, 0 ≤ i < n → 0 ≤ j < n → tg i = tg j → connected E i j) →
  (∀ k, 0 ≤ k < n → tg' k = if decide (tg k = tg b) then tg a else tg k) →
  ∀ i j, 0 ≤ i < n → 0 ≤ j < n → tg' i = tg' j → connected E' i j.
Proof.
  intros Hsub Hab Ha Hb Hc Htg' i j Hi Hj.
  assert (∀ u v, 0 ≤ u < n → 0 ≤ v < n → tg u = tg v → connected E' u v) as Hc'.
  { intros u v Hu Hv Huv. eapply connected_mono; [exact Hsub|]. by apply Hc. }
  assert (connected E' a b) as Hab' by (by apply connected_edge).
  rewrite (Htg' i Hi), (Htg' j Hj).
  destruct (decide (tg i = tg b)) as [Hib|Hib], (decide (tg j = tg b)) as [Hjb|Hjb];
    intros Hij.
  - apply Hc'; [done..|congruence].
  - rewrite (Hc' i b), <-Hab' by done. by apply Hc'.
  - rewrite (Hc' i a), Hab' by done. apply Hc'; [done..|congruence].
  - by apply Hc'.
Qed.

(** Membership in lists put together with [++], [::] and [<$>]. *)
Ltac edge_mem :=
  intros;
  repeat (rewrite ?fmap_app, ?fmap_cons, ?fmap_nil, ?app_nil_r, ?elem_of_app,
            ?elem_of_cons, ?list_elem_of_singleton);
  try match goal with
  | H : _ ∈ _ |- _ =>
      revert H;
      repeat (rewrite ?fmap_app, ?fmap_cons, ?fmap_nil, ?app_nil_r, ?elem_of_app,
                ?elem_of_cons, ?list_elem_of_singleton)
  end;
  tauto.

Lemma reps_length_le n s : 0 ≤ n → (length (reps n s) ≤ Z.to_nat n)%nat.
Proof.
  intros Hn. unfold reps. etrans; [apply length_filter|].
  rewrite length_seqZ. lia.
Qed.

(** One round keeps the invariant; the history grows by the edge, which
    goes to [K] or [M] when it joined two components. *)
Lemma ghost_step n P K M s e :
  Ghost n P K M s → valid_edge n e →
  (∀ e0, e0 ∈ P → weight e0 ≤ weight e) →
  mstSize s < mstExpectedSize s →
  Ghost n (P ++ [e])
    (if joins e s && is_known e then K ++ [e] else K)
    (if joins e s && negb (is_known e) then M ++ [e] else M)
    (process_edge e s).
Proof.
  intros HG Hv Hle Hcond.
  assert (is_known e = true → ratsnestLines s = false ∧ M = []) as Hphase.
  { intros Hk. destruct (ratsnestLines s) eqn:Hr.
    - destruct (gh_rl_true _ _ _ _ _ HG Hr) as (e0 & He0 & Hw).
      specialize (Hle e0 He0). unfold is_known in Hk. lia.
    - split; [done|]. by apply (gh_rl_false _ _ _ _ _ HG). }
  pose proof (ghost_cond _ _ _ _ _ HG) as Hcond'.
  destruct HG as [HI Hvalid HK HM Hsound Hcomplete Hknown HKclass Hmst Hsize
                  Hexp Hbound Hrlf Hrlt].
  assert (∀ e0, e0 ∈ P → e0 ∈ P ++ [e]) as HPin by (intros; apply elem_of_app; by left).
  assert (e ∈ P ++ [e]) as Hein by (apply elem_of_app; right; by left).
  unfold joins.
  destruct (decide (tag_at (st_tags s) (id (p1 e)) = tag_at (st_tags s) (id (p2 e))))
    as [Heq|Hne].
  - rewrite bool_decide_false by (by intros []). simpl.
    rewrite process_edge_same by done.
    split; try done.
    + intros e0 [?| ->%list_elem_of_singleton]%elem_of_app; auto.
    + intros e0 He0. destruct (HK e0 He0). auto.
    + intros e0 He0. destruct (HM e0 He0). auto.
    + intros e0 [?| ->%list_elem_of_singleton]%elem_of_app; auto.
    + intros e0 [?| ->%list_elem_of_singleton]%elem_of_app Hk; [auto|].
      destruct (Hphase Hk) as [_ ->].
      rewrite <-(app_nil_r K). apply Hcomplete; [apply Hv..|done].
    + intros Hr. destruct (Hrlt Hr) as (e0 & ? & ?). eauto.
  - rewrite bool_decide_true by done. simpl andb.
    destruct (process_edge_join n e s HI Hv Hne)
      as (Htag' & Hgeo & HI' & Hreps & Hrl' & Hfields).
    destruct Hv as [Ha Hb].
    assert (∀ e0, e0 ∈ P ++ [e] →
      tag_at (st_tags (process_edge e s)) (id (p1 e0)) =
      tag_at (st_tags (process_edge e s)) (id (p2 e0))) as Hsound'.
    { intros e0 [He0| ->%list_elem_of_singleton]%elem_of_app.
      - destruct (Hvalid e0 He0). rewrite !Htag' by done. by rewrite (Hsound e0 He0).
      - rewrite !Htag' by done. rewrite decide_False by done. by rewrite decide_True. }
    assert (∀ K' M', (∀ p, p ∈ ends <$> (K ++ M) → p ∈ ends <$> (K' ++ M')) →
      ends e ∈ ends <$> (K' ++ M') →
      ∀ i j, 0 ≤ i < n → 0 ≤ j < n →
        tag_at (st_tags (process_edge e s)) i = tag_at (st_tags (process_edge e s)) j →
        connected (ends <$> (K' ++ M')) i j) as Hcomplete'.
    { intros K' M' Hsub Hin.
      by apply (join_complete (tag_at (st_tags s)) _ n (ends <$> (K ++ M)) _
                  (id (p1 e)) (id (p2 e))). }
    destruct (is_known e) eqn:Hk; simpl.
    + destruct (Hphase eq_refl) as [Hr ->].
      assert ((0 <=? weight e) = false) as Hw by (unfold is_known in Hk; lia).
      rewrite Hr, Hw in Hrl'. simpl in Hrl'. rewrite Hrl' in Hfields.
      destruct Hfields as (Hmst' & Hsize' & Hexp').
      assert (wrap_uint (mstExpectedSize s - 1) = mstExpectedSize s - 1) as Hwrap.
      { unfold wrap_uint. apply Z.mod_small. simpl in *. lia. }
      rewrite Hwrap in Hexp'.
      split; try done.
      * intros e0 [?| ->%list_elem_of_singleton]%elem_of_app; auto. by split.
      * intros e0 [He0| ->%list_elem_of_singleton]%elem_of_app; [|done].
        destruct (HK e0 He0). auto.
      * intros e0 ?%not_elem_of_nil. done.
      * apply Hcomplete'.
        -- edge_mem.
        -- edge_mem.
      * intros e0 [He0| ->%list_elem_of_singleton]%elem_of_app Hk0.
        -- eapply connected_mono; [|by apply Hknown]. edge_mem.
        -- apply connected_edge. edge_mem.
      * simpl. rewrite Nat.add_0_r. exists (reps n (process_edge e s)). split; [|done].
        apply reps_class_system; [done| |].
        -- intros a b (e0 & [= -> ->] & He0)%list_elem_of_fmap. apply Hsound'.
           apply elem_of_app in He0 as [He0| ->%list_elem_of_singleton]; [|done].
           destruct (HK e0 He0). auto.
        -- intros i j Hi Hj Hij. rewrite <-(app_nil_r (K ++ [e])).
           apply Hcomplete'; [| |done..].
           ++ edge_mem.
           ++ edge_mem.
      * by rewrite Hmst'.
      * by rewrite Hsize'.
      * rewrite Hexp', Hexp. simpl. lia.
      * rewrite Hexp'. lia.
      * intros Hr'. congruence.
    + assert ((0 <=? weight e) = true) as Hw by (unfold is_known in Hk; lia).
      rewrite Hw, orb_true_r in Hrl'. rewrite Hrl' in Hfields.
      destruct Hfields as (Hmst' & Hsize' & Hexp').
      assert (wrap_uint (mstSize s + 1) = mstSize s + 1) as Hwrap.
      { unfold wrap_uint. apply Z.mod_small. lia. }
      rewrite Hwrap in Hsize'.
      split; try done.
      * intros e0 [?| ->%list_elem_of_singleton]%elem_of_app; auto. by split.
      * intros e0 He0. destruct (HK e0 He0). auto.
      * intros e0 [He0| ->%list_elem_of_singleton]%elem_of_app; [|done].
        destruct (HM e0 He0). auto.
      * apply Hcomplete'.
        -- edge_mem.
        -- edge_mem.
      * intros e0 [He0| ->%list_elem_of_singleton]%elem_of_app Hk0; [auto|congruence].
      * rewrite length_app. simpl.
        replace (length (reps n (process_edge e s)) + (length M + 1))%nat
          with (length (reps n s) + length M)%nat by lia. done.
      * by rewrite Hmst', Hmst, fmap_app.
      * rewrite Hsize', Hsize, length_app. simpl. lia.
      * rewrite Hexp', Hexp, length_app. simpl. lia.
      * by rewrite Hexp'.
      * intros Hr'. congruence.
      * intros _. exists e. split; [done|lia].
Qed.

(** ** The selector's specification *)

Lemma connected_cons_proper E E' p :
  (∀ i j, connected E i j ↔ connected E' i j) →
  ∀ i j, connected (p :: E) i j ↔ connected (p :: E') i j.
Proof.
  assert (∀ E E', (∀ i j, connected E i j → connected E' i j) →
            ∀ i j, connected (p :: E) i j → connected (p :: E') i j) as Hhalf.
  { intros F F' HFF i j. apply connected_refine.
    intros a b [<-|Hab]%elem_of_cons.
    - apply connected_edge. by left.
    - eapply connected_mono; [|by apply HFF, connected_edge]. intros q. by right. }
  intros HEE i j. split; apply Hhalf; intros; by apply HEE.
Qed.

Lemma Selects_proper E E' L M :
  (∀ i j, connected E i j ↔ connected E' i j) → Selects E L M → Selects E' L M.
Proof.
  intros HEE HS. revert E' HEE.
  induction HS as [E|E e L M Hk HS IH|E e L M Hk Hc HS IH|E e L M Hk Hc HS IH];
    intros E' HEE.
  - constructor.
  - apply selects_known; [done|]. by apply IH, connected_cons_proper.
  - apply selects_skip; [done|by apply HEE|by apply IH].
  - apply selects_take; [done|by rewrite <-HEE|]. by apply IH, connected_cons_proper.
Qed.

Lemma Selects_det E L M M' : Selects E L M → Selects E L M' → M = M'.
Proof.
  intros HS. revert M'.
  induction HS as [E|E e L M Hk HS IH|E e L M Hk Hc HS IH|E e L M Hk Hc HS IH];
    intros M' HS'; inversion HS'; simplify_eq; try done; try congruence; auto.
  f_equal. auto.
Qed.

(** Once everything is connected, nothing more is selected. *)
Lemma Selects_all_connected n E L :
  (∀ i j, 0 ≤ i < n → 0 ≤ j < n → connected E i j) →
  Forall (valid_edge n) L → Selects E L [].
Proof.
  intros Hall HL. revert E Hall.
  induction HL as [|e L [Ha Hb] HL IH]; intros E Hall; [constructor|].
  destruct (is_known e) eqn:Hk.
  - apply selects_known; [done|]. apply IH. intros i j Hi Hj.
    eapply connected_mono; [|by apply Hall]. intros q. by right.
  - apply selects_skip; [done|by apply Hall|by apply IH].
Qed.

(** Known connections at the head of the list only add to the pairs
    joined. *)
Lemma Selects_known_prefix E Lk Lc M :
  Forall (λ e, is_known e = true) Lk →
  Selects E (Lk ++ Lc) M ↔ Selects (reverse (ends <$> Lk) ++ E) Lc M.
Proof.
  intros HLk. revert E. induction HLk as [|e Lk Hk HLk IH]; intros E; [done|].
  simpl. rewrite reverse_cons, <-(assoc_L (++)). simpl. rewrite <-IH. split.
  - intros HS. inversion HS; simplify_eq; congruence.
  - by apply selects_known.
Qed.

Lemma Selects_sublist E L M :
  Selects E L M → sublist M (filter (λ e, is_known e = false) L).
Proof.
  induction 1 as [E|E e L M Hk HS IH|E e L M Hk Hc HS IH|E e L M Hk Hc HS IH];
    rewrite ?filter_cons; [done|..].
  - rewrite decide_False by congruence. done.
  - rewrite decide_True by done. by apply sublist_cons.
  - rewrite decide_True by done. by apply sublist_skip.
Qed.

(** ** The loop as a whole *)

Lemma ghost_all_connected n P K M s :
  Ghost n P K M s → ¬ mstSize s < mstExpectedSize s →
  ∀ i j, 0 ≤ i < n → 0 ≤ j < n → connected (ends <$> (K ++ M)) i j.
Proof.
  intros HG Hstop i j Hi Hj. apply (gh_complete _ _ _ _ _ HG); [done..|].
  apply (reps_single n); [apply HG| |done..].
  rewrite (ghost_cond _ _ _ _ _ HG) in Hstop. lia.
Qed.

(** Run on edges in ascending order of weight, the loop keeps the
    invariant, stops for one of its two reasons, and emits what
    [Selects] describes. *)
Lemma kruskal_loop_ghost n rest s P K M :
  Ghost n P K M s → Forall (valid_edge n) rest →
  StronglySorted (λ a b, weight a ≤ weight b) (P ++ rest) →
  ∃ P' K' M2,
    P ++ rest = P' ++ (kruskal_loop rest s).1 ∧
    Ghost n P' K' (M ++ M2) (kruskal_loop rest s).2 ∧
    ((kruskal_loop rest s).1 = [] ∨
     ¬ mstSize (kruskal_loop rest s).2 < mstExpectedSize (kruskal_loop rest s).2) ∧
    Selects (ends <$> (K ++ M)) rest M2.
Proof.
  intros HG Hvalid. revert s P K M HG.
  induction Hvalid as [|e rest Hv Hvalid IH]; intros s P K M HG Hsorted; simpl.
  { exists P, K, []. rewrite !app_nil_r. split; [done|]. split; [done|].
    split; [by left|constructor]. }
  destruct (Z.ltb_spec (mstSize s) (mstExpectedSize s)) as [Hcond|Hstop]; simpl.
  2:{ exists P, K, []. rewrite app_nil_r. split; [done|]. split; [done|].
      split; [right; lia|].
      apply (Selects_all_connected n); [|by constructor].
      apply (ghost_all_connected n P K M s); [done|lia]. }
  assert (∀ e0, e0 ∈ P → weight e0 ≤ weight e) as Hle.
  { intros e0 He0. apply (StronglySorted_app_1_elem_of _ _ _ _ _ Hsorted He0). by left. }
  pose proof (ghost_step n P K M s e HG Hv Hle Hcond) as HG1.
  rewrite (assoc_L (++) P [e] rest : P ++ e :: rest = (P ++ [e]) ++ rest) in Hsorted |- *.
  destruct (IH _ _ _ _ HG1 Hsorted) as (P' & K' & M2 & HP' & HG' & Hend & HS).
  set (E := ends <$> (K ++ M)) in *.
  pose proof Hv as [Ha Hb].
  unfold joins in HG1, HG', HS.
  destruct (decide (tag_at (st_tags s) (id (p1 e)) = tag_at (st_tags s) (id (p2 e))))
    as [Heq|Hne].
  - rewrite bool_decide_false in HG', HS by (by intros []). simpl in HG', HS.
    exists P', K', M2. split; [done|]. split; [done|]. split; [done|].
    assert (connected E (id (p1 e)) (id (p2 e))) as Hc
      by (by apply (gh_complete _ _ _ _ _ HG)).
    destruct (is_known e) eqn:Hk.
    + apply selects_known; [done|]. eapply Selects_proper; [|exact HS].
      intros i j. symmetry. by apply connected_absorb.
    + by apply selects_skip.
  - rewrite bool_decide_true in HG', HS by done. simpl in HG', HS.
    destruct (is_known e) eqn:Hk; simpl in HG', HS.
    + exists P', K', M2. split; [done|]. split; [done|]. split; [done|].
      apply selects_known; [done|]. eapply Selects_proper; [|exact HS].
      intros i j. apply connected_perm. subst E.
      rewrite !fmap_app, <-(assoc_L (++)). simpl. by rewrite Permutation_middle.
    + exists P', K', (e :: M2). split; [done|].
      rewrite <-(assoc_L (++)) in HG'. split; [done|]. split; [done|].
      apply selects_take; [done| |].
      * intros Hc. apply Hne. by apply (connected_same_tag n P K M).
      * eapply Selects_proper; [|exact HS].
        intros i j. apply connected_perm. subst E.
        rewrite (assoc_L (++)), (fmap_app _ (K ++ M)). simpl.
        by rewrite <-Permutation_middle, app_nil_r.
Qed.

Lemma kruskal_loop_steps L s : kruskal_loop L s = kruskal_steps (length L) L s.
Proof.
  revert s. induction L as [|e L IH]; intros s; simpl; [done|].
  by destruct (mstSize s <? mstExpectedSize s).
Qed.

(** The invariant holds after any number of rounds. *)
Lemma kruskal_steps_ghost n k rest s P K M :
  Ghost n P K M s → Forall (valid_edge n) rest →
  StronglySorted (λ a b, weight a ≤ weight b) (P ++ rest) →
  ∃ P' K' M',
    P ++ rest = P' ++ (kruskal_steps k rest s).1 ∧
    Ghost n P' K' M' (kruskal_steps k rest s).2.
Proof.
  revert rest s P K M. induction k as [|k IH]; intros rest s P K M HG Hvalid Hsorted.
  { exists P, K, M. by destruct rest. }
  destruct Hvalid as [|e rest Hv Hvalid]; simpl; [by exists P, K, M|].
  destruct (Z.ltb_spec (mstSize s) (mstExpectedSize s)) as [Hcond|Hstop]; simpl;
    [|by exists P, K, M].
  assert (∀ e0, e0 ∈ P → weight e0 ≤ weight e) as Hle.
  { intros e0 He0. apply (StronglySorted_app_1_elem_of _ _ _ _ _ Hsorted He0). by left. }
  pose proof (ghost_step n P K M s e HG Hv Hle Hcond) as HG1.
  rewrite (assoc_L (++) P [e] rest : P ++ e :: rest = (P ++ [e]) ++ rest) in Hsorted |- *.
  by apply (IH _ _ _ _ _ HG1).
Qed.

(** ** The state on entry *)

Lemma wrap_int_small z : - 2 ^ 31 ≤ z < 2 ^ 31 → wrap_int z = z.
Proof. intros Hz. unfold wrap_int. rewrite Z.mod_small; lia. Qed.

Lemma wrap_uint_small z : 0 ≤ z < 2 ^ 32 → wrap_uint z = z.
Proof. intros Hz. unfold wrap_uint. by rewrite Z.mod_small. Qed.

Lemma init_tags_spec pts t tags :
  0 ≤ t → t + Z.of_nat (length pts) ≤ 2 ^ 31 →
  (∀ (i : nat) v, pts !! i = Some v → id v = t + Z.of_nat i) →
  (∀ k, (init_tags pts t tags).2 !! k =
        if decide (t ≤ k < t + Z.of_nat (length pts)) then Some k else tags !! k) ∧
  geometry <$> (init_tags pts t tags).1 = geometry <$> pts.
Proof.
  revert t tags. induction pts as [|node pts IH]; intros t tags Ht Hlen Hid; simpl.
  { split; [|done]. intros k. rewrite decide_False; [done|lia]. }
  simpl in Hlen.
  destruct (init_tags pts (wrap_uint (t + 1)) (<[id node:=wrap_int t]> tags))
    as [rest' tags'] eqn:Hinit.
  rewrite wrap_uint_small, wrap_int_small in Hinit by lia.
  destruct (IH (t + 1) (<[id node:=t]> tags)) as [Htags Hgeo]; [lia..| |].
  { intros i v Hv. rewrite (Hid (S i) v Hv). lia. }
  rewrite Hinit in Htags, Hgeo. simpl in *. split.
  - intros k. rewrite Htags, (Hid 0%nat node eq_refl), Z.add_0_r.
    destruct (decide (k = t)) as [->|Hkt].
    + rewrite decide_False by lia. rewrite decide_True by lia. by rewrite lookup_insert_eq.
    + rewrite lookup_insert_ne by done.
      destruct (decide (t + 1 ≤ k < t + 1 + Z.of_nat (length pts)));
        [rewrite decide_True by lia|rewrite decide_False by lia]; done.
  - by f_equal.
Qed.

Lemma init_state_fields pts :
  st_points (init_state pts) = (init_tags pts 0 ∅).1 ∧
  st_tags (init_state pts) = (init_tags pts 0 ∅).2 ∧
  st_cycles (init_state pts) =
    ((λ i, [wrap_int i]) <$> seqZ 0 (wrap_uint (Z.of_nat (length pts)))) ∧
  mstSize (init_state pts) = 0 ∧
  mstExpectedSize (init_state pts) = wrap_uint (wrap_uint (Z.of_nat (length pts)) - 1) ∧
  ratsnestLines (init_state pts) = false ∧
  mst (init_state pts) = [].
Proof. unfold init_state. by destruct (init_tags pts 0 ∅). Qed.

Lemma init_state_ghost n pts :
  wf_points n pts → 1 ≤ n < 2 ^ 31 → Ghost n [] [] [] (init_state pts).
Proof.
  intros Hwf Hn. pose proof Hwf as [Hlen Hid].
  destruct (init_state_fields pts) as (Hpts & Htags & Hcyc & Hsize & Hexp & Hrl & Hmst).
  rewrite Hlen, (wrap_uint_small n) in Hcyc, Hexp by lia.
  rewrite wrap_uint_small in Hexp by lia.
  destruct (init_tags_spec pts 0 ∅) as [Htag Hgeo]; [lia..| |].
  { intros i v Hv. rewrite (Hid i v Hv). lia. }
  rewrite <-Htags in Htag. rewrite <-Hpts in Hgeo.
  assert (∀ i, 0 ≤ i < n → tag_at (st_tags (init_state pts)) i = i) as Htagi.
  { intros i Hi. unfold tag_at. rewrite Htag, decide_True; [done|lia]. }
  assert (Inv n (init_state pts)) as HI.
  { split.
    - by eapply wf_points_geometry.
    - rewrite Hcyc, length_fmap, length_seqZ. lia.
    - intros i Hi. by rewrite Htagi.
    - intros i Hi. by rewrite !(Htagi i Hi).
    - intros t i Ht. unfold cycle_at. rewrite Hcyc, list_lookup_fmap.
      rewrite lookup_seqZ_lt by lia. simpl. rewrite wrap_int_small by lia.
      rewrite list_elem_of_singleton, Z.add_0_l, Z2Nat.id by lia.
      split; [intros ->; by rewrite Htagi|]. intros [Hi Hti]. by rewrite Htagi in Hti. }
  assert (reps n (init_state pts) = seqZ 0 n) as Hreps.
  { unfold reps. rewrite (filter_ext_in _ (λ _, True)).
    - generalize (seqZ 0 n). intros l. induction l as [|a l IHl]; [done|].
      rewrite filter_cons_True by done. by rewrite IHl.
    - intros i Hi%elem_of_seqZ. split; [done|]. intros _. apply Htagi. lia. }
  split; try done.
  - intros e ?%not_elem_of_nil. done.
  - intros e ?%not_elem_of_nil. done.
  - intros e ?%not_elem_of_nil. done.
  - intros e ?%not_elem_of_nil. done.
  - intros i j Hi Hj. rewrite !Htagi by done. by intros ->.
  - intros e ?%not_elem_of_nil. done.
  - simpl. rewrite Nat.add_0_r. exists (reps n (init_state pts)). split; [|done].
    apply reps_class_system; [done| |].
    + intros a b ?%not_elem_of_nil. done.
    + intros i j Hi Hj. rewrite !Htagi by done. by intros ->.
  - rewrite Hexp, Hreps, length_seqZ. simpl. lia.
  - rewrite Hexp. lia.
  - rewrite Hrl. done.
Qed.

(** ** [kruskalMst] under the contract of [std::sort] *)

Section Selector.

Variable std_sort : ∀ A : Type, (A → A → bool) → list A → list A.
Hypothesis std_sort_ok : std_sort_contract std_sort.

(** The edges are processed in ascending order of weight. *)
Lemma processing_order (l : list Edge) :
  reverse (std_sort Edge by_weight_desc l) ≡ₚ l ∧
  StronglySorted (λ a b, weight a ≤ weight b) (reverse (std_sort Edge by_weight_desc l)).
Proof.
  destruct (std_sort_ok Edge by_weight_desc by_weight_desc_swo l) as [Hperm Hsorted].
  split; [by rewrite reverse_Permutation|].
  apply StronglySorted_reverse in Hsorted.
  rewrite <-(list_fmap_id (reverse _)).
  eapply StronglySorted_fmap; [|exact Hsorted].
  intros a b. unfold flip, by_weight_desc. simpl. lia.
Qed.

Lemma kruskalMst_run b n :
  wf_points n (mPoints b) → 1 ≤ n < 2 ^ 31 → Forall (valid_edge n) (mEdges b) →
  ∃ P K M rest s,
    reverse (std_sort Edge by_weight_desc (mEdges b)) = P ++ rest ∧
    kruskal_loop (P ++ rest) (init_state (mPoints b)) = (rest, s) ∧
    Ghost n P K M s ∧
    (rest = [] ∨ ¬ mstSize s < mstExpectedSize s) ∧
    Selects [] (P ++ rest) M ∧
    kruskalMst std_sort b = (to_AirWire <$> M, mkBuilder (st_points s) (reverse rest)).
Proof.
  intros Hwf Hn Hvalid.
  destruct (processing_order (mEdges b)) as [Hperm Hsorted].
  set (L := reverse (std_sort Edge by_weight_desc (mEdges b))) in *.
  assert (Forall (valid_edge n) L) as HvalidL by (by rewrite Hperm).
  destruct (kruskal_loop_ghost n L (init_state (mPoints b)) [] [] []
              (init_state_ghost n _ Hwf Hn) HvalidL Hsorted)
    as (P & K & M & HL & HG & Hend & HS).
  simpl in HL, HG, HS.
  exists P, K, M, (kruskal_loop L (init_state (mPoints b))).1,
    (kruskal_loop L (init_state (mPoints b))).2.
  rewrite <-HL. split; [done|]. split; [by destruct (kruskal_loop _ _)|].
  split; [done|]. split; [done|]. split; [done|].
  unfold kruskalMst. fold L. destruct (kruskal_loop L _) as [rest s]. simpl in *.
  by rewrite (gh_mst _ _ _ _ _ HG).
Qed.

(** Without points there is nothing to do. *)
Lemma kruskalMst_no_points b :
  mPoints b = [] → mEdges b = [] → kruskalMst std_sort b = ([], mkBuilder [] []).
Proof.
  intros Hp He. unfold kruskalMst. rewrite Hp, He.
  destruct (std_sort_ok Edge by_weight_desc by_weight_desc_swo []) as [Hperm _].
  apply Permutation_nil_r in Hperm. by rewrite Hperm.
Qed.

End Selector.

(** ** Builders *)

Lemma add_points_spec pts b :
  wf_points (Z.of_nat (length (mPoints b))) (mPoints b) →
  Z.of_nat (length (mPoints b) + length pts) < 2 ^ 31 →
  wf_points (Z.of_nat (length (mPoints b) + length pts)) (mPoints (add_points pts b)) ∧
  to_Point <$> mPoints (add_points pts b) = (to_Point <$> mPoints b) ++ (stored <$> pts) ∧
  mEdges (add_points pts b) = mEdges b.
Proof.
  revert b. induction pts as [|p pts IH]; intros b Hwf Hlen; simpl.
  { rewrite Nat.add_0_r, app_nil_r. done. }
  unfold add_points in *. simpl. simpl in Hlen.
  set (b1 := (addPoint b p).2).
  assert (length (mPoints b1) = S (length (mPoints b))) as Hlen1.
  { subst b1. simpl. rewrite length_app. simpl. lia. }
  destruct (IH b1) as (IHwf & IHpts & IHedges).
  - rewrite Hlen1. subst b1. simpl. split; [rewrite length_app; simpl; lia|].
    intros i v Hv. destruct Hwf as [_ Hid].
    apply lookup_app_Some in Hv as [Hv|[Hi Hv]]; [by apply Hid|].
    apply list_lookup_singleton_Some in Hv as [Hi' <-]. simpl.
    rewrite wrap_int_small; lia.
  - rewrite Hlen1. lia.
  - rewrite Hlen1 in IHwf.
    replace (length (mPoints b) + S (length pts))%nat
      with (S (length (mPoints b)) + length pts)%nat by lia.
    split; [done|]. split; [|done].
    etrans; [exact IHpts|]. subst b1. simpl. rewrite fmap_app, <-(assoc_L (++)). done.
Qed.

Lemma foldl_addEdge_None known :
  foldl (λ ob (e : Z * Z), b ← ob; addEdge b e.1 e.2) None known = None.
Proof. induction known as [|k known IH]; [done|]. simpl. exact IH. Qed.

Lemma addEdge_spec b i1 i2 b' :
  addEdge b i1 i2 = Some b' →
  mPoints b' = mPoints b ∧
  ∃ e, mEdges b' = mEdges b ++ [e] ∧ known_edge (mPoints b) (i1, i2) e.
Proof.
  unfold addEdge, known_edge. intros H.
  destruct (bool_decide (0 ≤ i1)) eqn:H1; [|done].
  destruct (bool_decide (0 ≤ i2)) eqn:H2; [|done].
  apply bool_decide_eq_true in H1, H2. simpl in H.
  destruct (mPoints b !! Z.to_nat i1) as [v1|] eqn:Hv1; [|done].
  destruct (mPoints b !! Z.to_nat i2) as [v2|] eqn:Hv2; [|done].
  simplify_eq/=. split; [done|]. eexists. split; [done|]. eauto 10.
Qed.

Lemma add_edges_spec known b b' :
  add_edges known b = Some b' →
  mPoints b' = mPoints b ∧
  ∃ es, mEdges b' = mEdges b ++ es ∧ Forall2 (known_edge (mPoints b)) known es.
Proof.
  unfold add_edges. revert b.
  induction known as [|[i1 i2] known IH]; intros b; simpl.
  { intros [= <-]. split; [done|]. exists []. by rewrite app_nil_r. }
  destruct (addEdge b i1 i2) as [b1|] eqn:Hadd; [|by rewrite foldl_addEdge_None].
  intros Hrest. destruct (addEdge_spec _ _ _ _ Hadd) as (Hp1 & e & He1 & Hk).
  destruct (IH b1 Hrest) as (Hp & es & Hes & Hks). rewrite Hp1 in Hp, Hks.
  split; [done|]. exists (e :: es). rewrite Hes, He1, <-(assoc_L (++)). split; [done|].
  by constructor.
Qed.

Lemma known_edge_facts n pts k e :
  wf_points n pts → known_edge pts k e →
  ends e = k ∧ valid_edge n e ∧ weight e = -1 ∧ p1 e ∈ pts ∧ p2 e ∈ pts.
Proof.
  intros [Hlen Hid] (H1 & H2 & v1 & v2 & Hv1 & Hv2 & ->). unfold ends, valid_edge. simpl.
  pose proof (lookup_lt_Some _ _ _ Hv1). pose proof (lookup_lt_Some _ _ _ Hv2).
  rewrite (Hid _ _ Hv1), (Hid _ _ Hv2), !Z2Nat.id by done.
  split; [by destruct k|]. split; [lia|]. split; [done|].
  split; by eapply list_elem_of_lookup_2.
Qed.

Lemma known_edges_facts n (known : list (Z * Z)) (es : list Edge) :
  Forall2 (λ k e, ends e = k ∧ valid_edge n e ∧ weight e = -1) known es →
  ends <$> es = known ∧ Forall (valid_edge n) es ∧ Forall (λ e, weight e = -1) es.
Proof.
  induction 1 as [|k e known es (Hk & Hv & Hw) _ (IH1 & IH2 & IH3)]; [done|].
  split; [by rewrite fmap_cons, Hk, IH1|]. split; by constructor.
Qed.

(** The builder of an input: its points are well-formed, its edges are
    the known connections. *)
Lemma make_builder_spec pts known b :
  make_builder pts known = Some b → Z.of_nat (length pts) < 2 ^ 31 →
  wf_points (Z.of_nat (length pts)) (mPoints b) ∧
  to_Point <$> mPoints b = stored <$> pts ∧
  ends <$> mEdges b = known ∧
  Forall (valid_edge (Z.of_nat (length pts))) (mEdges b) ∧
  Forall (λ e, weight e = -1) (mEdges b) ∧
  length (mEdges b) = length known.
Proof.
  unfold make_builder. intros Hb Hlen.
  destruct (add_points_spec pts empty_builder) as (Hwf & Hpts & Hedges); [|done|].
  { split; [done|]. by intros [|i] v. }
  simpl in Hwf, Hpts.
  destruct (add_edges_spec _ _ _ Hb) as (Hp & es & Hes & Hks).
  rewrite Hedges in Hes. simpl in Hes. rewrite Hp, Hes.
  split; [done|]. split; [done|].
  assert (Forall2 (λ k e, ends e = k ∧ valid_edge (Z.of_nat (length pts)) e ∧
            weight e = -1) known es) as Hfacts.
  { eapply Forall2_impl; [exact Hks|]. intros k e Hk.
    destruct (known_edge_facts _ _ _ _ Hwf Hk) as (? & ? & ? & _). done. }
  destruct (known_edges_facts _ _ _ Hfacts) as (? & ? & ?).
  split; [done|]. split; [done|]. split; [done|].
  symmetry. by eapply Forall2_length.
Qed.

(** ** Candidate edges *)

Lemma wf_points_id n pts v : wf_points n pts → v ∈ pts → 0 ≤ id v < n.
Proof.
  intros [Hlen Hid] [i Hi]%list_elem_of_lookup.
  pose proof (lookup_lt_Some _ _ _ Hi). rewrite (Hid i v Hi). lia.
Qed.

Lemma wf_points_elem n pts i : wf_points n pts → 0 ≤ i < n → ∃ v, v ∈ pts ∧ id v = i.
Proof.
  intros Hwf Hi. destruct (wf_points_lookup n pts i Hwf Hi) as (v & Hv & Hid).
  exists v. split; [by eapply list_elem_of_lookup_2|done].
Qed.

Lemma consecutive_edges_in l e :
  e ∈ consecutive_edges l → p1 e ∈ l ∧ p2 e ∈ l ∧ weight e = -1.
Proof.
  induction l as [|a [|b l] IH]; simpl; [by intros ?%not_elem_of_nil..|].
  intros [-> |He]%elem_of_cons; simpl.
  - split; [by left|]. split; [right; by left|done].
  - destruct (IH He) as (? & ? & ?). split; [by right|]. split; [by right|done].
Qed.

(** The edges between neighbours connect the whole list. *)
Lemma consecutive_edges_connect l a b :
  a ∈ l → b ∈ l → connected (ends <$> consecutive_edges l) (id a) (id b).
Proof.
  assert (∀ l h a, a ∈ h :: l →
            connected (ends <$> consecutive_edges (h :: l)) (id h) (id a)) as Hhead.
  { clear. intros l. induction l as [|h2 l IH]; intros h a Ha.
    - apply list_elem_of_singleton in Ha as ->. done.
    - apply elem_of_cons in Ha as [-> |Ha]; [done|].
      transitivity (id h2).
      + apply connected_edge. simpl. by left.
      + eapply connected_mono; [|by apply IH]. intros q Hq. simpl. by right. }
  destruct l as [|h l]; [by intros ?%not_elem_of_nil|].
  intros Ha Hb. rewrite <-(Hhead l h a Ha). by apply Hhead.
Qed.

Section Candidates.

Variable std_sort : ∀ A : Type, (A → A → bool) → list A → list A.
Variable atan2 : Z → Z → float.
Variable triangulate : list Vector2 → list Edge.

Hypothesis std_sort_ok : std_sort_contract std_sort.

(** The triangulation joins points it was given. *)
Hypothesis triangulate_ok :
  ∀ pts e, e ∈ triangulate pts → p1 e ∈ pts ∧ p2 e ∈ pts.

Lemma candidate_edges_in pts e :
  e ∈ candidate_edges std_sort atan2 triangulate pts → p1 e ∈ pts ∧ p2 e ∈ pts.
Proof.
  unfold candidate_edges.
  destruct (length pts <=? 1)%nat; [by intros ?%not_elem_of_nil|].
  destruct (length pts =? 2)%nat.
  { destruct pts as [|v0 [|v1 pts]]; [by intros ?%not_elem_of_nil..|].
    intros ->%list_elem_of_singleton. simpl. split; [by left|right; by left]. }
  destruct (arePointsColinear atan2 pts); [|by apply triangulate_ok].
  intros (H1 & H2 & _)%consecutive_edges_in.
  destruct (std_sort_ok Vector2 by_x by_x_swo pts) as [Hperm _].
  by rewrite Hperm in H1, H2.
Qed.

Lemma candidate_edges_valid n pts :
  wf_points n pts →
  Forall (valid_edge n) (candidate_edges std_sort atan2 triangulate pts).
Proof.
  intros Hwf. apply Forall_forall. intros e [H1 H2]%candidate_edges_in.
  split; by eapply wf_points_id.
Qed.

(** Outside the triangulation branch the candidates connect all points by
    construction. *)
Lemma candidate_edges_connect n pts i j :
  wf_points n pts → 0 ≤ i < n → 0 ≤ j < n →
  ((length pts <= 2)%nat ∨ arePointsColinear atan2 pts = true) →
  connected (ends <$> candidate_edges std_sort atan2 triangulate pts) i j.
Proof.
  intros Hwf Hi Hj Hbranch. pose proof Hwf as [Hlen Hid]. unfold candidate_edges.
  destruct (Nat.leb_spec (length pts) 1) as [H1|H1].
  { assert (i = j) as -> by lia. done. }
  destruct (Nat.eqb_spec (length pts) 2) as [H2|H2].
  { destruct pts as [|v0 [|v1 [|v2 pts]]]; simpl in H2; try lia.
    pose proof (Hid 0%nat v0 eq_refl) as Hv0. pose proof (Hid 1%nat v1 eq_refl) as Hv1.
    simpl in Hlen.
    assert (connected [(id v0, id v1)] 0 1) as Hc.
    { rewrite Hv0, Hv1. apply connected_edge. by left. }
    assert (i = 0 ∨ i = 1) as [->| ->] by lia;
      assert (j = 0 ∨ j = 1) as [->| ->] by lia; simpl; done. }
  destruct Hbranch as [?| ->]; [lia|].
  destruct (std_sort_ok Vector2 by_x by_x_swo pts) as [Hperm _].
  destruct (wf_points_elem n pts i Hwf Hi) as (a & Ha & <-).
  destruct (wf_points_elem n pts j Hwf Hj) as (b & Hb & <-).
  apply consecutive_edges_connect; by rewrite Hperm.
Qed.

Lemma weigh_facts e :
  ends (weigh e) = ends e ∧ p1 (weigh e) = p1 e ∧ p2 (weigh e) = p2 e ∧
  weight (weigh e) = dist2 (p1 e) (p2 e) ∧ is_known (weigh e) = false.
Proof.
  unfold weigh, set_weight, ends, is_known. simpl. repeat split.
  pose proof (dist2_nonneg (p1 e) (p2 e)). lia.
Qed.

Lemma prepare_edges_spec b :
  Z.of_nat (length (mEdges b)) < 2 ^ 32 →
  mPoints (prepare_edges std_sort atan2 triangulate b) = mPoints b ∧
  mEdges (prepare_edges std_sort atan2 triangulate b) =
    mEdges b ++ (weigh <$> candidate_edges std_sort atan2 triangulate (mPoints b)).
Proof.
  intros Hlen. unfold prepare_edges. simpl. split; [done|].
  rewrite wrap_uint_small, Nat2Z.id by lia.
  by rewrite take_app_length, drop_app_length.
Qed.

End Candidates.

(** ** The state when the loop has stopped *)

Section Final.

Context (n : Z) (P K M rest : list Edge) (s : MstState).
Hypothesis Hghost : Ghost n P K M s.
Hypothesis Hvalid : Forall (valid_edge n) (P ++ rest).
Hypothesis Hsorted : StronglySorted (λ a b, weight a ≤ weight b) (P ++ rest).
Hypothesis Hend : rest = [] ∨ ¬ mstSize s < mstExpectedSize s.

Lemma final_tags_rest e :
  e ∈ rest → ∀ i j, 0 ≤ i < n → 0 ≤ j < n →
  tag_at (st_tags s) i = tag_at (st_tags s) j.
Proof.
  intros He i j Hi Hj. destruct Hend as [->|Hstop]; [by apply not_elem_of_nil in He|].
  apply (reps_single n); [apply Hghost| |done..].
  rewrite (ghost_cond _ _ _ _ _ Hghost) in Hstop. lia.
Qed.

(** Every edge of the list has both ends in one component. *)
Lemma final_sound e :
  e ∈ P ++ rest → tag_at (st_tags s) (id (p1 e)) = tag_at (st_tags s) (id (p2 e)).
Proof.
  intros He. pose proof (proj1 (Forall_forall _ _) Hvalid e He) as [Ha Hb].
  apply elem_of_app in He as [He|He]; [by apply (gh_sound _ _ _ _ _ Hghost)|].
  by apply (final_tags_rest e).
Qed.

Lemma final_connected i j :
  0 ≤ i < n → 0 ≤ j < n →
  connected (ends <$> (P ++ rest)) i j ↔ connected (ends <$> (K ++ M)) i j.
Proof.
  intros Hi Hj. split.
  - intros Hc. apply (gh_complete _ _ _ _ _ Hghost); [done..|].
    eapply connected_invariant; [|exact Hc].
    intros a b (e & [= -> ->] & He)%list_elem_of_fmap. by apply final_sound.
  - apply connected_mono. intros p (e & -> & He)%list_elem_of_fmap.
    apply list_elem_of_fmap. exists e. split; [done|].
    apply elem_of_app. left.
    apply elem_of_app in He as [He|He];
      [by apply (gh_K _ _ _ _ _ Hghost)|by apply (gh_M _ _ _ _ _ Hghost)].
Qed.

(** The known connections of the whole list are connected through the
    ones that merged. *)
Lemma final_known i j :
  connected (ends <$> filter (λ e, is_known e = true) (P ++ rest)) i j ↔
  connected (ends <$> K) i j.
Proof.
  split.
  - apply connected_refine.
    intros a b (e & [= -> ->] & [Hk He]%list_elem_of_filter)%list_elem_of_fmap.
    pose proof (proj1 (Forall_forall _ _) Hvalid e He) as [Ha Hb].
    apply elem_of_app in He as [He|He]; [by apply (gh_known _ _ _ _ _ Hghost)|].
    assert (M = []) as HM.
    { apply elem_of_nil_inv. intros m HmM.
      destruct (gh_M _ _ _ _ _ Hghost m HmM) as [Hm Hmk].
      pose proof (StronglySorted_app_1_elem_of _ _ _ _ _ Hsorted Hm He) as Hle.
      unfold is_known in Hk, Hmk. simpl in Hle. lia. }
    destruct Hend as [->|Hstop]; [by apply not_elem_of_nil in He|].
    pose proof (ghost_all_connected n P K M s Hghost Hstop _ _ Ha Hb) as Hc.
    by rewrite HM, app_nil_r in Hc.
  - apply connected_mono. intros p (e & -> & He)%list_elem_of_fmap.
    apply list_elem_of_fmap. exists e. split; [done|].
    destruct (gh_K _ _ _ _ _ Hghost e He) as [HeP Hk].
    apply list_elem_of_filter. split; [done|]. apply elem_of_app. by left.
Qed.

(** The components that are left are those of the whole list. *)
Lemma final_class_count :
  class_count n (connected (ends <$> (P ++ rest))) (length (reps n s)).
Proof.
  exists (reps n s). split; [|done].
  apply reps_class_system; [apply Hghost| |].
  - intros a b (e & [= -> ->] & He)%list_elem_of_fmap. by apply final_sound.
  - intros i j Hi Hj Hij. apply final_connected; [done..|].
    by apply (gh_complete _ _ _ _ _ Hghost).
Qed.

(** The air wires make up for the components the known connections left
    apart and the whole list joins. *)
Lemma final_count c c' :
  class_count n (connected (ends <$> filter (λ e, is_known e = true) (P ++ rest))) c →
  class_count n (connected (ends <$> (P ++ rest))) c' →
  (length M + c' = c)%nat.
Proof.
  intros Hc Hc'.
  rewrite (class_count_unique _ _ _ _ _ Hc' final_class_count).
  destruct (gh_Kclass _ _ _ _ _ Hghost) as (rk & Hrk & Hlen).
  assert (class_count n
    (connected (ends <$> filter (λ e, is_known e = true) (P ++ rest)))
    (length (reps n s) + length M)) as Hc2.
  { exists rk. split; [|done]. eapply class_system_proper; [|exact Hrk].
    intros i j. symmetry. apply final_known. }
  rewrite (class_count_unique _ _ _ _ _ Hc Hc2). lia.
Qed.

End Final.

(** ** [buildAirWires] on an input *)

Lemma filter_all {A} (P : A → Prop) `{!∀ a, Decision (P a)} (l : list A) :
  Forall P l → filter P l = l.
Proof.
  induction 1 as [|a l Ha Hl IH]; [done|]. by rewrite filter_cons_True, IH.
Qed.

Lemma filter_none {A} (P : A → Prop) `{!∀ a, Decision (P a)} (l : list A) :
  Forall (λ a, ¬ P a) l → filter P l = [].
Proof.
  induction 1 as [|a l Ha Hl IH]; [done|]. by rewrite filter_cons_False.
Qed.

Lemma ends_weigh (C : list Edge) : ends <$> (weigh <$> C) = ends <$> C.
Proof. rewrite <-list_fmap_compose. by apply list_fmap_ext. Qed.

Lemma class_count_empty R c : class_count 0 R c → c = 0%nat.
Proof.
  intros (reps & (_ & Hin & _) & <-). destruct reps as [|r reps]; [done|].
  assert (r ∈ r :: reps) as Hr by left. specialize (Hin r Hr). lia.
Qed.

Lemma class_count_all_connected n R :
  1 ≤ n → (∀ i j, 0 ≤ i < n → 0 ≤ j < n → R i j) → class_count n R 1.
Proof.
  intros Hn HR. exists [0]. split; [|done]. split; [|split; [|split]].
  - apply NoDup_singleton.
  - intros r ->%list_elem_of_singleton. lia.
  - by intros r r' ->%list_elem_of_singleton ->%list_elem_of_singleton.
  - intros i Hi. exists 0. split; [by left|]. apply HR; lia.
Qed.

Section Inputs.

Variable std_sort : ∀ A : Type, (A → A → bool) → list A → list A.
Variable atan2 : Z → Z → float.
Variable triangulate : list Vector2 → list Edge.

Hypothesis std_sort_ok : std_sort_contract std_sort.
Hypothesis triangulate_ok :
  ∀ pts e, e ∈ triangulate pts → p1 e ∈ pts ∧ p2 e ∈ pts.

Local Abbreviation cands := (candidate_edges std_sort atan2 triangulate).
Local Abbreviation build := (buildAirWires std_sort atan2 triangulate).
Local Abbreviation prepare := (prepare_edges std_sort atan2 triangulate).

(** The run of [buildAirWires] on an input with at least one point. *)
Lemma buildAirWires_run pts known b :
  make_builder pts known = Some b →
  1 ≤ Z.of_nat (length pts) < 2 ^ 31 → Z.of_nat (length known) < 2 ^ 32 →
  ∃ P K M rest s,
    P ++ rest ≡ₚ mEdges b ++ (weigh <$> cands (mPoints b)) ∧
    StronglySorted (λ a b, weight a ≤ weight b) (P ++ rest) ∧
    Forall (valid_edge (Z.of_nat (length pts))) (P ++ rest) ∧
    reverse (std_sort Edge by_weight_desc (mEdges (prepare b))) = P ++ rest ∧
    kruskal_loop (P ++ rest) (init_state (mPoints b)) = (rest, s) ∧
    Ghost (Z.of_nat (length pts)) P K M s ∧
    (rest = [] ∨ ¬ mstSize s < mstExpectedSize s) ∧
    Selects [] (P ++ rest) M ∧
    build b = (to_AirWire <$> M, mkBuilder (st_points s) (reverse rest)).
Proof.
  intros Hb Hn Hknown.
  destruct (make_builder_spec pts known b Hb) as (Hwf & Hpts & Hends & Hvalid & Hw & Hlen);
    [lia|].
  destruct (prepare_edges_spec std_sort atan2 triangulate b) as [Hp He]; [lia|].
  assert (Forall (valid_edge (Z.of_nat (length pts))) (mEdges (prepare b))) as Hvalid'.
  { rewrite He. apply Forall_app. split; [done|].
    apply Forall_fmap. eapply Forall_impl; [by apply candidate_edges_valid|].
    intros e [? ?]. by split. }
  destruct (kruskalMst_run std_sort std_sort_ok (prepare b) (Z.of_nat (length pts)))
    as (P & K & M & rest & s & HL & Hloop & HG & Hend & HS & Hres); [by rewrite Hp|done..|].
  destruct (processing_order std_sort std_sort_ok (mEdges (prepare b))) as [Hperm Hsorted].
  rewrite HL in Hperm, Hsorted. rewrite Hp in Hloop.
  exists P, K, M, rest, s. rewrite <-He.
  split; [done|]. split; [done|]. split; [by rewrite Hperm|]. done.
Qed.

(** The known connections of the processed list are those of the input. *)
Lemma known_of_run pts known b L :
  make_builder pts known = Some b → Z.of_nat (length pts) < 2 ^ 31 →
  L ≡ₚ mEdges b ++ (weigh <$> cands (mPoints b)) →
  ends <$> filter (λ e, is_known e = true) L ≡ₚ known ∧
  filter (λ e, is_known e = false) L ≡ₚ weigh <$> cands (mPoints b).
Proof.
  intros Hb Hn HL.
  destruct (make_builder_spec pts known b Hb Hn) as (_ & _ & Hends & _ & Hw & _).
  assert (Forall (λ e, is_known e = true) (mEdges b)) as Hk.
  { eapply Forall_impl; [exact Hw|]. intros e He. simpl in He. unfold is_known.
    by rewrite He. }
  assert (Forall (λ e, is_known e = false) (weigh <$> cands (mPoints b))) as Hc.
  { apply Forall_fmap, Forall_forall. intros e _. apply weigh_facts. }
  rewrite HL, !filter_app. split.
  - rewrite (filter_all _ _ Hk), filter_none, app_nil_r; [by rewrite Hends|].
    eapply Forall_impl; [exact Hc|]. intros e He. simpl. congruence.
  - rewrite (filter_all _ _ Hc), filter_none; [done|].
    eapply Forall_impl; [exact Hk|]. intros e He. simpl. congruence.
Qed.

(** Without points [buildAirWires] returns no air wire. *)
Lemma buildAirWires_no_points known b :
  make_builder [] known = Some b → known = [] ∧ build b = ([], mkBuilder [] []).
Proof.
  intros Hb.
  destruct (make_builder_spec [] known b Hb) as ([Hlen _] & _ & Hends & Hvalid & _);
    [done|].
  assert (mPoints b = []) as Hp by (by apply nil_length_inv; simpl in Hlen; lia).
  assert (mEdges b = []) as He.
  { destruct (mEdges b) as [|e es]; [done|].
    apply Forall_cons in Hvalid as [[? _] _]. simpl in *. lia. }
  rewrite He in Hends. split; [done|].
  unfold buildAirWires. apply kruskalMst_no_points; [done..|].
  unfold prepare_edges. by rewrite Hp, He.
Qed.

End Inputs.

Lemma class_count_le n R c : class_count n R c → (c ≤ Z.to_nat n)%nat.
Proof.
  intros (reps & (Hnd & Hin & _) & <-).
  rewrite <-(length_seqZ 0 n). apply submseteq_length, NoDup_submseteq; [done|].
  intros r Hr. apply elem_of_seqZ. specialize (Hin r Hr). lia.
Qed.

Lemma triangle_edges_ok pts e : e ∈ triangle_edges pts → p1 e ∈ pts ∧ p2 e ∈ pts.
Proof.
  destruct pts as [|a [|b [|c [|d pts]]]]; simpl; try by intros ?%not_elem_of_nil.
  intros He. repeat (apply elem_of_cons in He as [->|He]; [simpl; split; edge_mem|]).
  by apply not_elem_of_nil in He.
Qed.

Lemma class_count_zero R : class_count 0 R 0.
Proof.
  exists []. split; [|done]. split; [constructor|].
  split; [by intros r ?%not_elem_of_nil|]. split; [by intros r r' ?%not_elem_of_nil|].
  simpl. lia.
Qed.

Lemma connected_nil i j : connected [] i j → i = j.
Proof.
  apply (connected_invariant (λ k, k)). by intros a b ?%not_elem_of_nil.
Qed.

(** Without connections every point is a component of its own. *)
Lemma class_count_discrete n : class_count n (connected []) (Z.to_nat n).
Proof.
  exists (seqZ 0 n). split; [|by rewrite length_seqZ].
  split; [apply NoDup_seqZ|]. split; [|split].
  - intros r Hr%elem_of_seqZ. lia.
  - intros r r' _ _. apply connected_nil.
  - intros i Hi. exists i. split; [|done]. apply elem_of_seqZ. lia.
Qed.

Lemma candidate_edges_triangulate std_sort atan2 triangulate pts :
  (3 ≤ length pts)%nat → arePointsColinear atan2 pts = false →
  candidate_edges std_sort atan2 triangulate pts = triangulate pts.
Proof.
  intros Hlen Hcol. unfold candidate_edges. rewrite Hcol.
  destruct (Nat.leb_spec (length pts) 1); [lia|].
  destruct (Nat.eqb_spec (length pts) 2); [lia|done].
Qed.

Lemma make_builder_points pts known b :
  make_builder pts known = Some b → mPoints b = mPoints (add_points pts empty_builder).
Proof. intros Hb. by destruct (add_edges_spec _ _ _ Hb) as [-> _]. Qed.

(** A list in ascending order of weight has its known connections
    first. *)
Lemma sorted_known_first (L : list Edge) :
  StronglySorted (λ a b, weight a ≤ weight b) L →
  L = filter (λ e, is_known e = true) L ++ filter (λ e, is_known e = false) L.
Proof.
  induction 1 as [|a l Hl IH Ha]; [done|].
  rewrite !filter_cons. destruct (is_known a) eqn:Hk.
  - rewrite decide_True, decide_False by done. simpl. by f_equal.
  - rewrite decide_False, decide_True by done.
    assert (Forall (λ e, is_known e = false) l) as Hcand.
    { eapply Forall_impl; [exact Ha|]. intros e He. unfold is_known in *. lia. }
    rewrite (filter_all _ _ Hcand), filter_none; [done|].
    eapply Forall_impl; [exact Hcand|]. intros e He. simpl. congruence.
Qed.

(** A round either leaves the air wires alone or appends the edge at
    hand, whose ends then carried different tags. *)
Lemma process_edge_emits dt s :
  mst (process_edge dt s) = mst s ∨
  (mst (process_edge dt s) = mst s ++ [to_AirWire dt] ∧
   tag_at (st_tags s) (id (p1 dt)) ≠ tag_at (st_tags s) (id (p2 dt))).
Proof.
  unfold process_edge. case_bool_decide as Hne; [|by left].
  destruct (ratsnestLines s || (0 <=? weight dt)).
  - destruct (retag _ false _ _ _). by right.
  - destruct (retag _ true _ _ _). by left.
Qed.

Lemma reversing_sort_contract : std_sort_contract reversing_sort.
Proof.
  intros A comp Hc l. unfold reversing_sort.
  destruct (insertion_sort_contract A comp Hc (reverse l)) as [Hperm Hsorted].
  split; [by rewrite Hperm, reverse_Permutation|done].
Qed.

Lemma quad_edges_ok pts e : e ∈ quad_edges pts → p1 e ∈ pts ∧ p2 e ∈ pts.
Proof.
  destruct pts as [|a [|b [|c [|d [|d' pts]]]]]; try apply triangle_edges_ok.
  simpl. intros He. repeat (apply elem_of_cons in He as [->|He]; [simpl; split; edge_mem|]).
  by apply not_elem_of_nil in He.
Qed.

(** ** What [kruskalMst] leaves alone, on any builder *)

Lemma retag_one_geometry srcTag with_points acc it :
  geometry <$> (retag_one srcTag with_points acc it).2 = geometry <$> acc.2.
Proof.
  unfold retag_one. destruct (acc.2 !! Z.to_nat it) as [node|] eqn:Hnode; [|done].
  destruct with_points; [|done]. simpl.
  rewrite list_fmap_insert. apply list_insert_id. by rewrite list_lookup_fmap, Hnode.
Qed.

Lemma retag_geometry srcTag with_points members tags pts :
  geometry <$> (retag srcTag with_points members tags pts).2 = geometry <$> pts.
Proof.
  unfold retag. change pts with (tags, pts).2 at 2. generalize (tags, pts).
  induction members as [|it members IH]; intros acc; [done|].
  simpl. by rewrite IH, retag_one_geometry.
Qed.

Lemma process_edge_geometry dt s :
  geometry <$> st_points (process_edge dt s) = geometry <$> st_points s.
Proof.
  unfold process_edge. case_bool_decide; [|done].
  destruct (ratsnestLines s || (0 <=? weight dt)).
  - pose proof (retag_geometry (tag_at (st_tags s) (id (p1 dt))) false
      (cycle_at (st_cycles s) (tag_at (st_tags s) (id (p2 dt)))) (st_tags s)
      (st_points s)) as Hg.
    by destruct (retag _ false _ _ _).
  - pose proof (retag_geometry (tag_at (st_tags s) (id (p1 dt))) true
      (cycle_at (st_cycles s) (tag_at (st_tags s) (id (p2 dt)))) (st_tags s)
      (st_points s)) as Hg.
    by destruct (retag _ true _ _ _).
Qed.

Lemma kruskal_loop_frame L s :
  geometry <$> st_points (kruskal_loop L s).2 = geometry <$> st_points s ∧
  ∃ P, L = P ++ (kruskal_loop L s).1.
Proof.
  revert s. induction L as [|dt L IH]; intros s; simpl.
  { split; [done|]. by exists []. }
  destruct (mstSize s <? mstExpectedSize s); simpl.
  - destruct (IH (process_edge dt s)) as [Hg [P HP]]. split.
    + by rewrite Hg, process_edge_geometry.
    + exists (dt :: P). simpl. by f_equal.
  - split; [done|]. by exists [].
Qed.

Lemma init_tags_geometry pts t tags :
  geometry <$> (init_tags pts t tags).1 = geometry <$> pts.
Proof.
  revert t tags. induction pts as [|node pts IH]; intros t tags; [done|]. simpl.
  specialize (IH (wrap_uint (t + 1)) (<[id node:=wrap_int t]> tags)).
  destruct (init_tags pts _ _). simpl in *. by f_equal.
Qed.

Lemma stored_exact p :
  Z.abs (getX p) ≤ 2 ^ 53 → Z.abs (getY p) ≤ 2 ^ 53 → stored p = p.
Proof.
  intros Hx Hy. destruct p as [px py]. unfold stored, Qreal.of_int64. simpl in *.
  by rewrite !round_exact.
Qed.

Lemma stored_points_elem (pts : list Point) (vs : list Vector2) v :
  to_Point <$> vs = stored <$> pts → v ∈ vs →
  ∃ p, p ∈ pts ∧ to_Point v = stored p.
Proof.
  intros Heq [i Hi]%list_elem_of_lookup.
  assert ((stored <$> pts) !! i = Some (to_Point v)) as Hp
    by (by rewrite <-Heq, list_lookup_fmap, Hi).
  rewrite list_lookup_fmap in Hp.
  destruct (pts !! i) as [p|] eqn:Hpi; simplify_eq/=.
  exists p. split; [by eapply list_elem_of_lookup_2|done].
Qed.

(** Filtering keeps a list sorted. *)
Lemma StronglySorted_filter {A} (R : relation A) (P : A → Prop)
    `{!∀ a, Decision (P a)} (l : list A) :
  StronglySorted R l → StronglySorted R (filter P l).
Proof.
  induction 1 as [|a l Hl IH Ha]; [constructor|].
  rewrite filter_cons. destruct (decide (P a)); [|done].
  constructor; [done|]. apply Forall_forall. intros e [_ He]%list_elem_of_filter.
  rewrite Forall_forall in Ha. by apply Ha.
Qed.

(** * The claims *)

Section Claims.

Variable std_sort : ∀ A : Type, (A → A → bool) → list A → list A.
Variable atan2 : Z → Z → float.
Variable triangulate : list Vector2 → list Edge.

Hypothesis std_sort_ok : std_sort_contract std_sort.
Hypothesis triangulate_ok :
  ∀ pts e, e ∈ triangulate pts → p1 e ∈ pts ∧ p2 e ∈ pts.

Local Abbreviation cands := (candidate_edges std_sort atan2 triangulate).
Local Abbreviation build := (buildAirWires std_sort atan2 triangulate).
Local Abbreviation prepare := (prepare_edges std_sort atan2 triangulate).

(** The edges of [kruskalMst] in the order its loop takes them, and the
    loop stopped after [k] rounds. *)
Local Abbreviation order b :=
  (reverse (std_sort Edge by_weight_desc (mEdges (prepare b)))).
Local Abbreviation rounds k b :=
  (kruskal_steps k (order b) (init_state (mPoints (prepare b)))).

(** What a run of [buildAirWires] on an input amounts to. *)
Lemma buildAirWires_summary pts known b :
  make_builder pts known = Some b →
  Z.of_nat (length pts) < 2 ^ 31 → Z.of_nat (length known) < 2 ^ 32 →
  ∃ M,
    (build b).1 = to_AirWire <$> M ∧
    Selects [] (order b) M ∧
    (∀ e, e ∈ M → e ∈ weigh <$> cands (mPoints b)) ∧
    (∀ c c', class_count (Z.of_nat (length pts)) (connected known) c →
       class_count (Z.of_nat (length pts))
         (connected (known ++ (ends <$> cands (mPoints b)))) c' →
       (length M + c' = c)%nat) ∧
    (∃ c c', class_count (Z.of_nat (length pts)) (connected known) c ∧
       class_count (Z.of_nat (length pts))
         (connected (known ++ (ends <$> cands (mPoints b)))) c') ∧
    (∀ i j, 0 ≤ i < Z.of_nat (length pts) → 0 ≤ j < Z.of_nat (length pts) →
       connected (known ++ (ends <$> cands (mPoints b))) i j →
       connected (known ++ (ends <$> M)) i j).
Proof.
  intros Hb Hn Hknown.
  destruct (decide (length pts = 0%nat)) as [Hz|Hnz].
  { apply nil_length_inv in Hz as ->.
    destruct (buildAirWires_no_points std_sort atan2 triangulate std_sort_ok known b Hb)
      as [-> Hres].
    exists []. rewrite Hres. split; [done|]. split.
    { destruct (make_builder_spec [] [] b Hb Hn) as ([Hlen _] & _ & _ & _ & _ & Hl).
      apply nil_length_inv in Hl. simpl in Hlen.
      assert (mPoints b = []) as Hp by (apply nil_length_inv; lia).
      unfold prepare_edges. rewrite Hp, Hl. simpl.
      destruct (std_sort_ok Edge by_weight_desc by_weight_desc_swo []) as [Hperm _].
      apply Permutation_nil_r in Hperm. rewrite Hperm. constructor. }
    split; [by intros e ?%not_elem_of_nil|]. split.
    { intros c c' ->%class_count_empty ->%class_count_empty. done. }
    split; [|simpl; lia].
    assert (∀ R, class_count 0 R 0) as H0.
    { intros R. exists []. split; [|done]. split; [constructor|].
      split; [by intros r ?%not_elem_of_nil|]. split; [by intros r r' ?%not_elem_of_nil|].
      simpl. lia. }
    exists 0%nat, 0%nat. split; apply H0. }
  destruct (buildAirWires_run std_sort atan2 triangulate std_sort_ok triangulate_ok
              pts known b Hb) as (P & K & M & rest & s & Hperm & Hsorted & Hvalid & HL &
              _ & HG & Hend & HS & Hres); [lia..|].
  destruct (known_of_run std_sort atan2 triangulate pts known b (P ++ rest) Hb Hn Hperm)
    as [Hk Hc].
  assert (ends <$> (P ++ rest) ≡ₚ known ++ (ends <$> cands (mPoints b))) as Hall_perm.
  { rewrite Hperm, fmap_app, ends_weigh.
    by destruct (make_builder_spec pts known b Hb Hn) as (_ & _ & -> & _). }
  assert (∀ R R' c, (∀ i j, R i j ↔ R' i j) →
            class_count (Z.of_nat (length pts)) R c →
            class_count (Z.of_nat (length pts)) R' c) as Htransport.
  { intros R R' c HRR (reps & Hreps & Hlen). exists reps. split; [|done].
    by eapply class_system_proper. }
  exists M. rewrite Hres, HL. split; [done|]. split; [done|]. split; [|split; [|split]].
  - intros e He. destruct (gh_M _ _ _ _ _ HG e He) as [HeP Hek].
    rewrite <-Hc. apply list_elem_of_filter. split; [done|]. apply elem_of_app. by left.
  - intros c c' Hcc Hcc'.
    apply (final_count _ P K M rest s HG Hvalid Hsorted Hend).
    + eapply Htransport; [|exact Hcc]. intros i j. symmetry. by apply connected_perm.
    + eapply Htransport; [|exact Hcc']. intros i j. symmetry. by apply connected_perm.
  - exists (length (reps (Z.of_nat (length pts)) s) + length M)%nat,
      (length (reps (Z.of_nat (length pts)) s)). split.
    + eapply Htransport; [|exact (gh_Kclass _ _ _ _ _ HG)]. intros i j.
      rewrite <-(final_known _ P K M rest s HG Hvalid Hsorted Hend).
      by apply connected_perm.
    + eapply Htransport;
        [|exact (final_class_count _ P K M rest s HG Hvalid Hsorted Hend)].
      intros i j. by apply connected_perm.
  - intros i j Hi Hj Hij.
    apply (connected_perm _ _ _ _ Hall_perm) in Hij.
    apply (final_connected _ P K M rest s HG Hvalid Hsorted Hend i j Hi Hj) in Hij.
    eapply connected_mono; [|exact Hij].
    intros q (e & -> & He)%list_elem_of_fmap.
    apply elem_of_app in He as [He|He].
    + apply elem_of_app. left. rewrite <-Hk. apply list_elem_of_fmap. exists e.
      split; [done|]. destruct (gh_K _ _ _ _ _ HG e He) as [HeP Hek].
      apply list_elem_of_filter. split; [done|]. apply elem_of_app. by left.
    + apply elem_of_app. right. apply list_elem_of_fmap. by exists e.
Qed.

(** C1. For an input of points and known connections with valid
    identities, if the known connections and the candidate edges together
    connect all points, [buildAirWires] emits exactly [c - 1] air wires,
    where [c] is the number of connected components under the known
    connections alone.  Equivalently: the [n - c] merges the known
    connections perform are exactly what is missing from the [n - 1] air
    wires of the unconnected point set. *)
Theorem air_wire_count pts known b c :
  make_builder pts known = Some b →
  Z.of_nat (length pts) < 2 ^ 31 → Z.of_nat (length known) < 2 ^ 32 →
  (∀ i j, 0 ≤ i < Z.of_nat (length pts) → 0 ≤ j < Z.of_nat (length pts) →
     connected (known ++ (ends <$> cands (mPoints b))) i j) →
  class_count (Z.of_nat (length pts)) (connected known) c →
  length (build b).1 = (c - 1)%nat ∧
  (length (build b).1 + (length pts - c) = length pts - 1)%nat.
Proof.
  intros Hb Hn Hknown Hall Hc.
  destruct (buildAirWires_summary pts known b Hb Hn Hknown)
    as (M & -> & _ & _ & Hcount & _ & _).
  pose proof (class_count_le _ _ _ Hc) as Hle. rewrite length_fmap.
  destruct (decide (length pts = 0%nat)) as [Hz|Hnz].
  { rewrite Hz in *. apply class_count_empty in Hc as ->.
    specialize (Hcount 0%nat 0%nat). 
    assert (length M + 0 = 0)%nat; [|lia]. apply Hcount.
    - exists []. split; [|done]. split; [constructor|].
      split; [by intros r ?%not_elem_of_nil|]. split; [by intros r r' ?%not_elem_of_nil|].
      simpl. lia.
    - exists []. split; [|done]. split; [constructor|].
      split; [by intros r ?%not_elem_of_nil|]. split; [by intros r r' ?%not_elem_of_nil|].
      simpl. lia. }
  assert (length M + 1 = c)%nat; [|lia].
  apply Hcount; [done|]. apply class_count_all_connected; [lia|done].
Qed.

(** C6. Every air wire [buildAirWires] returns is one of the candidate
    edges it generated and weighed: it carries a squared length as weight,
    not the mark of a known connection, and is none of the known
    connections. *)
Theorem air_wires_are_candidates pts known b :
  make_builder pts known = Some b →
  Z.of_nat (length pts) < 2 ^ 31 → Z.of_nat (length known) < 2 ^ 32 →
  ∃ M, (build b).1 = to_AirWire <$> M ∧
    ∀ e, e ∈ M →
      e ∈ weigh <$> cands (mPoints b) ∧
      weight e = dist2 (p1 e) (p2 e) ∧ 0 ≤ weight e ∧ is_known e = false ∧
      ¬ e ∈ mEdges b.
Proof.
  intros Hb Hn Hknown.
  destruct (buildAirWires_summary pts known b Hb Hn Hknown)
    as (M & Hres & _ & Hcands & _).
  destruct (make_builder_spec pts known b Hb Hn) as (_ & _ & _ & _ & Hw & _).
  exists M. split; [done|]. intros e He. split; [by apply Hcands|].
  destruct (proj1 (list_elem_of_fmap _ _ _) (Hcands e He)) as (e0 & -> & _).
  destruct (weigh_facts e0) as (_ & -> & -> & Hwe & Hk).
  pose proof (dist2_nonneg (p1 e0) (p2 e0)).
  split; [done|]. split; [lia|]. split; [done|].
  intros Hin. rewrite Forall_forall in Hw. specialize (Hw _ Hin). simpl in Hw. lia.
Qed.

(** C8, as the code has it.  [std::sort] puts the edges in descending
    order of weight and the loop takes them from the back: the edges are
    processed in ascending order of weight, in the order the sort left
    edges of equal weight, whatever that is.  The air wires are the
    selection [Selects] makes along that order, and no other. *)
Theorem selection_follows_sorted_order pts known b :
  make_builder pts known = Some b →
  Z.of_nat (length pts) < 2 ^ 31 → Z.of_nat (length known) < 2 ^ 32 →
  order b ≡ₚ mEdges (prepare b) ∧
  StronglySorted (λ e1 e2, weight e1 ≤ weight e2)
    (order b) ∧
  ∃ M, (build b).1 = to_AirWire <$> M ∧
    Selects [] (order b) M ∧
    ∀ M', Selects [] (order b) M' →
      M' = M.
Proof.
  intros Hb Hn Hknown.
  destruct (processing_order std_sort std_sort_ok (mEdges (prepare b))) as [Hperm Hsorted].
  split; [done|]. split; [done|].
  destruct (buildAirWires_summary pts known b Hb Hn Hknown) as (M & Hres & HS & _).
  exists M. split; [done|]. split; [done|]. intros M' HS'. by eapply Selects_det.
Qed.

(** The selection of a run, seen from the known connections and the
    candidates in the order they are processed. *)
Lemma selection_from_known pts known b M :
  make_builder pts known = Some b →
  Z.of_nat (length pts) < 2 ^ 31 → Z.of_nat (length known) < 2 ^ 32 →
  Selects [] (order b) M →
  Selects known
    (filter (λ e, is_known e = false)
       (order b)) M.
Proof.
  intros Hb Hn Hknown HS.
  destruct (processing_order std_sort std_sort_ok (mEdges (prepare b))) as [Hperm Hsorted].
  destruct (prepare_edges_spec std_sort atan2 triangulate b) as [_ He].
  { by destruct (make_builder_spec pts known b Hb Hn) as (_ & _ & _ & _ & _ & ->). }
  set (L := reverse (std_sort Edge by_weight_desc (mEdges (prepare b)))) in *.
  rewrite He in Hperm.
  destruct (known_of_run std_sort atan2 triangulate pts known b L Hb Hn Hperm) as [Hk _].
  rewrite (sorted_known_first L Hsorted) in HS.
  apply Selects_known_prefix in HS.
  - eapply Selects_proper; [|exact HS]. intros i j. apply connected_perm.
    by rewrite app_nil_r, reverse_Permutation.
  - apply Forall_forall. by intros e [? _]%list_elem_of_filter.
Qed.

(** The candidates among the edges of a run, in the order they are
    processed: the weighed candidate edges, sorted by weight. *)
Lemma candidates_of_order pts known b :
  make_builder pts known = Some b →
  Z.of_nat (length pts) < 2 ^ 31 → Z.of_nat (length known) < 2 ^ 32 →
  filter (λ e, is_known e = false) (order b) ≡ₚ weigh <$> cands (mPoints b) ∧
  StronglySorted (λ e1 e2, weight e1 ≤ weight e2)
    (filter (λ e, is_known e = false) (order b)).
Proof.
  intros Hb Hn Hknown.
  destruct (processing_order std_sort std_sort_ok (mEdges (prepare b))) as [Hperm Hsorted].
  destruct (prepare_edges_spec std_sort atan2 triangulate b) as [_ He].
  { by destruct (make_builder_spec pts known b Hb Hn) as (_ & _ & _ & _ & _ & ->). }
  split; [|by apply StronglySorted_filter].
  set (L := reverse (std_sort Edge by_weight_desc (mEdges (prepare b)))) in *.
  rewrite He in Hperm.
  by destruct (known_of_run std_sort atan2 triangulate pts known b L Hb Hn Hperm).
Qed.

(** C9, as the code has it.  A known connection from a point to itself,
    or between two points the other known connections connect already,
    never changes the number of air wires.  The air wires themselves stay
    as they are as long as [std::sort] leaves the candidate edges in the
    same order, and so whenever no two different candidate edges weigh
    the same. *)
Theorem redundant_known_edge pts known1 known2 i0 j0 b b' :
  make_builder pts (known1 ++ known2) = Some b →
  make_builder pts (known1 ++ (i0, j0) :: known2) = Some b' →
  Z.of_nat (length pts) < 2 ^ 31 →
  Z.of_nat (length (known1 ++ (i0, j0) :: known2)) < 2 ^ 32 →
  i0 = j0 ∨ connected (known1 ++ known2) i0 j0 →
  length (build b').1 = length (build b).1 ∧
  (filter (λ e, is_known e = false) (order b') =
   filter (λ e, is_known e = false) (order b) →
   (build b').1 = (build b).1) ∧
  ((∀ e1 e2, e1 ∈ weigh <$> cands (mPoints b) → e2 ∈ weigh <$> cands (mPoints b) →
      weight e1 = weight e2 → e1 = e2) →
   (build b').1 = (build b).1).
Proof.
  intros Hb Hb' Hn Hknown' Hred.
  assert (Z.of_nat (length (known1 ++ known2)) < 2 ^ 32) as Hknown.
  { rewrite length_app in *. simpl in Hknown'. lia. }
  assert (connected (known1 ++ known2) i0 j0) as Hc by (by destruct Hred as [->|]).
  assert (∀ E i j, connected ((known1 ++ (i0, j0) :: known2) ++ E) i j ↔
                   connected ((known1 ++ known2) ++ E) i j) as Hsame.
  { intros E i j.
    rewrite (connected_perm ((known1 ++ (i0, j0) :: known2) ++ E)
               ((i0, j0) :: (known1 ++ known2) ++ E)).
    - apply connected_absorb. eapply connected_mono; [|exact Hc].
      intros q Hq. apply elem_of_app. by left.
    - by rewrite <-Permutation_middle. }
  assert (mPoints b' = mPoints b) as Hpts.
  { by rewrite (make_builder_points _ _ _ Hb), (make_builder_points _ _ _ Hb'). }
  destruct (buildAirWires_summary _ _ _ Hb Hn Hknown)
    as (M & Hres & HS & _ & Hcount & (c & c' & Hcc & Hcc') & _).
  destruct (buildAirWires_summary _ _ _ Hb' Hn Hknown')
    as (M' & Hres' & HS' & _ & Hcount' & _ & _).
  assert (filter (λ e, is_known e = false) (order b') =
          filter (λ e, is_known e = false) (order b) →
          (build b').1 = (build b).1) as Hlist.
  { intros Horder.
    apply (selection_from_known _ _ _ _ Hb Hn Hknown) in HS.
    apply (selection_from_known _ _ _ _ Hb' Hn Hknown') in HS'.
    rewrite Horder in HS'. rewrite Hres, Hres'. f_equal.
    eapply Selects_det; [exact HS'|].
    eapply Selects_proper; [|exact HS]. intros i j.
    specialize (Hsame [] i j). rewrite !app_nil_r in Hsame. by symmetry. }
  split; [|split; [exact Hlist|]].
  - rewrite Hres, Hres', !length_fmap.
    specialize (Hcount c c' Hcc Hcc'). rewrite Hpts in Hcount'.
    assert (length M' + c' = c)%nat; [|lia].
    apply Hcount'.
    + destruct Hcc as (reps & Hreps & Hlen). exists reps. split; [|done].
      eapply class_system_proper; [|exact Hreps]. intros i j.
      specialize (Hsame [] i j). by rewrite !app_nil_r in Hsame.
    + destruct Hcc' as (reps & Hreps & Hlen). exists reps. split; [|done].
      eapply class_system_proper; [|exact Hreps]. intros i j. symmetry. apply Hsame.
  - intros Hdistinct. apply Hlist.
    destruct (candidates_of_order _ _ _ Hb Hn Hknown) as [Hperm Hsorted].
    destruct (candidates_of_order _ _ _ Hb' Hn Hknown') as [Hperm' Hsorted'].
    rewrite Hpts in Hperm'.
    eapply StronglySorted_unique_strong; [|exact Hsorted'|exact Hsorted|].
    + intros e1 e2 He1 He2 Hle Hge. simpl in Hle, Hge. apply Hdistinct; [| |lia].
      * by rewrite <-Hperm'.
      * by rewrite <-Hperm.
    + by rewrite Hperm, Hperm'.
Qed.

(** C7. After any number [k] of rounds of the loop of [kruskalMst], two
    points carry the same tag exactly when the known connections
    processed so far and the air wires emitted so far connect them; and a
    round that emits an air wire does so for an edge whose two ends
    carried different tags.  The run of [buildAirWires] is the state
    after as many rounds as there are edges. *)
Theorem tags_track_connectivity pts known b k :
  make_builder pts known = Some b →
  Z.of_nat (length pts) < 2 ^ 31 → Z.of_nat (length known) < 2 ^ 32 →
  (build b).1 =
    mst (rounds (length (order b)) b).2 ∧
  ∃ P M,
    order b =
      P ++ (rounds k b).1 ∧
    mst (rounds k b).2 = to_AirWire <$> M ∧
    (∀ e, e ∈ M → e ∈ P) ∧
    (∀ i j, 0 ≤ i < Z.of_nat (length pts) → 0 ≤ j < Z.of_nat (length pts) →
       tag_at (st_tags (rounds k b).2) i =
       tag_at (st_tags (rounds k b).2) j ↔
       connected (ends <$> (filter (λ e, is_known e = true) P ++ M)) i j) ∧
    (∀ dt rest,
       (rounds k b).1 = dt :: rest →
       mst (process_edge dt (rounds k b).2) =
         mst (rounds k b).2 ∨
       (mst (process_edge dt (rounds k b).2) =
          mst (rounds k b).2 ++ [to_AirWire dt] ∧
        tag_at (st_tags (rounds k b).2) (id (p1 dt)) ≠
        tag_at (st_tags (rounds k b).2) (id (p2 dt)))).
Proof.
  intros Hb Hn Hknown.
  set (L := reverse (std_sort Edge by_weight_desc (mEdges (prepare b)))).
  set (s0 := init_state (mPoints (prepare b))).
  split.
  { unfold buildAirWires, kruskalMst. fold L s0. rewrite <-kruskal_loop_steps.
    by destruct (kruskal_loop L s0). }
  assert (∃ P M, L = P ++ (kruskal_steps k L s0).1 ∧
            mst (kruskal_steps k L s0).2 = to_AirWire <$> M ∧
            (∀ e, e ∈ M → e ∈ P) ∧
            ∀ i j, 0 ≤ i < Z.of_nat (length pts) → 0 ≤ j < Z.of_nat (length pts) →
              tag_at (st_tags (kruskal_steps k L s0).2) i =
              tag_at (st_tags (kruskal_steps k L s0).2) j ↔
              connected (ends <$> (filter (λ e, is_known e = true) P ++ M)) i j)
    as (P & M & HP & HM & HMP & Htags).
  { destruct (decide (length pts = 0%nat)) as [Hz|Hnz].
    - exists [], []. 
      destruct (buildAirWires_summary pts known b Hb Hn Hknown) as (M0 & _ & HS & _).
      fold L in HS.
      assert (L = []) as HL.
      { destruct (processing_order std_sort std_sort_ok (mEdges (prepare b)))
          as [Hperm _]. fold L in Hperm.
        destruct (make_builder_spec pts known b Hb Hn) as (_ & _ & _ & Hvalid & _ & _).
        destruct (prepare_edges_spec std_sort atan2 triangulate b) as [Hp He].
        { destruct (mEdges b) as [|e es]; [done|].
          apply Forall_cons in Hvalid as [[? _] _]. lia. }
        destruct (make_builder_spec pts known b Hb Hn) as ([Hlen _] & _).
        assert (mPoints b = []) as Hmp by (apply nil_length_inv; lia).
        rewrite He, Hmp in Hperm.
        destruct (mEdges b) as [|e es].
        - simpl in Hperm. by apply Permutation_nil_r in Hperm.
        - apply Forall_cons in Hvalid as [[? _] _]. lia. }
      rewrite HL. destruct k; simpl; (split; [done|]); (split;
        [by destruct (init_state_fields (mPoints (prepare b))) as (_&_&_&_&_&_&?)|]);
        (split; [by intros e ?%not_elem_of_nil|]); intros i j Hi; lia.
    - destruct (buildAirWires_run std_sort atan2 triangulate std_sort_ok triangulate_ok
                  pts known b Hb) as (P0 & K0 & M0 & rest0 & s & _ & Hsorted & Hvalid &
                  HL & _); [lia..|].
      fold L in HL. rewrite <-HL in Hsorted, Hvalid.
      destruct (make_builder_spec pts known b Hb Hn) as (Hwf & _).
      destruct (kruskal_steps_ghost (Z.of_nat (length pts)) k L s0 [] [] []) 
        as (P & K & M & HP & HG); [|done|done|].
      { apply init_state_ghost; [done|lia]. }
      exists P, M. split; [done|]. split; [apply HG|].
      split; [intros e He; by apply (gh_M _ _ _ _ _ HG)|].
      intros i j Hi Hj. split.
      + intros Hij. eapply connected_mono;
          [|by apply (gh_complete _ _ _ _ _ HG)].
        intros q (e & -> & He)%list_elem_of_fmap. apply list_elem_of_fmap.
        exists e. split; [done|]. apply elem_of_app in He as [He|He].
        * apply elem_of_app. left. apply list_elem_of_filter.
          destruct (gh_K _ _ _ _ _ HG e He). done.
        * apply elem_of_app. by right.
      + apply connected_invariant.
        intros a c (e & [= -> ->] & He)%list_elem_of_fmap.
        apply (gh_sound _ _ _ _ _ HG).
        apply elem_of_app in He as [[_ He]%list_elem_of_filter|He]; [done|].
        by apply (gh_M _ _ _ _ _ HG). }
  exists P, M. split; [done|]. split; [done|]. split; [done|]. split; [done|].
  intros dt rest _. apply process_edge_emits.
Qed.

(** C4, as the code has it.  A candidate edge (an edge of [mEdges] from
    index [connectedEdges] on) joins two registered points and is weighed
    with [dist2] of their stored coordinates, computed in [qreal]
    arithmetic.  That is the exact squared Euclidean distance whenever
    this distance is at most 2^53; for points with coordinates within
    2^25 nm of the origin it is the exact squared distance of the
    coordinates they were registered with. *)
Theorem candidate_weight pts known b e :
  make_builder pts known = Some b →
  Z.of_nat (length pts) < 2 ^ 31 → Z.of_nat (length known) < 2 ^ 32 →
  e ∈ drop (length (mEdges b)) (mEdges (prepare b)) →
  weight e = dist2 (p1 e) (p2 e) ∧
  ((x (p1 e) - x (p2 e)) ^ 2 + (y (p1 e) - y (p2 e)) ^ 2 ≤ 2 ^ 53 →
   weight e = (x (p1 e) - x (p2 e)) ^ 2 + (y (p1 e) - y (p2 e)) ^ 2) ∧
  ∃ p q, p ∈ pts ∧ q ∈ pts ∧
    to_Point (p1 e) = stored p ∧ to_Point (p2 e) = stored q ∧
    ((∀ r, r ∈ pts → Z.abs (getX r) ≤ 2 ^ 25 ∧ Z.abs (getY r) ≤ 2 ^ 25) →
     weight e = (getX p - getX q) ^ 2 + (getY p - getY q) ^ 2).
Proof.
  intros Hb Hn Hknown He.
  destruct (make_builder_spec pts known b Hb Hn) as (_ & Hpts & _ & _ & _ & Hlen).
  destruct (prepare_edges_spec std_sort atan2 triangulate b) as [_ Hedges]; [lia|].
  rewrite Hedges, drop_app_length in He.
  apply list_elem_of_fmap in He as (e0 & -> & He0).
  destruct (weigh_facts e0) as (_ & -> & -> & -> & _).
  destruct (candidate_edges_in std_sort atan2 triangulate std_sort_ok triangulate_ok
              _ _ He0) as [H1 H2].
  destruct (stored_points_elem pts _ _ Hpts H1) as (p & Hp & Hp1).
  destruct (stored_points_elem pts _ _ Hpts H2) as (q & Hq & Hq1).
  split; [done|]. split.
  { intros Hd. apply dist2_exact; [nia..|done]. }
  exists p, q. split; [done|]. split; [done|]. split; [done|]. split; [done|].
  intros Hsmall. destruct (Hsmall p Hp) as [Hpx Hpy]. destruct (Hsmall q Hq) as [Hqx Hqy].
  rewrite stored_exact in Hp1 by lia. rewrite stored_exact in Hq1 by lia.
  rewrite <-Hp1, <-Hq1. simpl. rewrite <-Hp1 in Hpx, Hpy. rewrite <-Hq1 in Hqx, Hqy.
  simpl in *. apply dist2_exact; nia.
Qed.

End Claims.

(** C10. [buildAirWires] leaves the identities and coordinates of the
    points as they were; only their tags are written.  The edge list is
    not restored: the candidates are appended and weighed, the list is
    sorted, and what the call leaves is the front part of the sorted list
    that the loop did not reach.  So the builder is good for one call:
    for two points with a known connection, the first call returns no air
    wire and leaves the candidate behind, and a second call on what is
    left returns one air wire. *)
Theorem buildAirWires_single_use std_sort atan2 triangulate b :
  geometry <$> mPoints (buildAirWires std_sort atan2 triangulate b).2 =
    geometry <$> mPoints b ∧
  (∃ k, mEdges (buildAirWires std_sort atan2 triangulate b).2 =
        take k (std_sort Edge by_weight_desc
                  (mEdges (prepare_edges std_sort atan2 triangulate b)))) ∧
  (Z.of_nat (length (mEdges b)) < 2 ^ 32 →
   mEdges (prepare_edges std_sort atan2 triangulate b) =
     mEdges b ++
     (weigh <$> candidate_edges std_sort atan2 triangulate (mPoints b))) ∧
  (∃ b1 b2,
     make_builder [mkPoint 100 200; mkPoint 300 400] [(0, 1)] = Some b1 ∧
     buildAirWires insertion_sort atan2 triangulate b1 = ([], b2) ∧
     length (mEdges b2) = 1%nat ∧
     (buildAirWires insertion_sort atan2 triangulate b2).1 =
       [(mkPoint 100 200, mkPoint 300 400)]).
Proof.
  split; [|split; [|split]].
  - unfold buildAirWires, kruskalMst.
    set (L := reverse _).
    pose proof (kruskal_loop_frame L
      (init_state (mPoints (prepare_edges std_sort atan2 triangulate b)))) as [Hg _].
    destruct (kruskal_loop L _) as [rest s]. simpl in *. rewrite Hg.
    destruct (init_state_fields (mPoints b)) as (-> & _).
    apply init_tags_geometry.
  - unfold buildAirWires, kruskalMst.
    set (sorted := std_sort Edge by_weight_desc _).
    pose proof (kruskal_loop_frame (reverse sorted)
      (init_state (mPoints (prepare_edges std_sort atan2 triangulate b)))) as [_ [P HP]].
    destruct (kruskal_loop (reverse sorted) _) as [rest s]. simpl in *.
    exists (length rest).
    rewrite <-(reverse_involutive sorted), HP, reverse_app.
    by rewrite <-(length_reverse rest), take_app_length.
  - intros Hlen. by apply prepare_edges_spec.
  - eexists _, _. split; [reflexivity|]. split; [by vm_compute|].
    split; by vm_compute.
Qed.

(** C3, at a vertical line.  The three points (0,0), (0,2 mm), (0,1 mm)
    lie on one line, and [arePointsColinear] finds them so as soon as
    [std::atan2] gives both directions the same angle, the [double] next
    to pi/2.  Sorting them by [x] alone leaves them as they came, and the
    air wires are (0,2 mm)-(0,1 mm) and (0,0)-(0,2 mm): the end point
    (0,0) is joined to the far end, not to its neighbour (0,1 mm). *)
Theorem vertical_line_air_wires atan2 triangulate :
  atan2 2000000 0 = 0x1.921fb54442d18p+0%float →
  atan2 1000000 0 = 0x1.921fb54442d18p+0%float →
  ∃ b,
    make_builder [mkPoint 0 0; mkPoint 0 2000000; mkPoint 0 1000000] [] = Some b ∧
    far_enough (mkVector2 0 0 0 0) (mkVector2 0 1000000 2 0) = true ∧
    arePointsColinear atan2 (mPoints b) = true ∧
    (buildAirWires insertion_sort atan2 triangulate b).1 =
      [(mkPoint 0 2000000, mkPoint 0 1000000); (mkPoint 0 0, mkPoint 0 2000000)].
Proof.
  intros Hfar Hnear.
  set (pts := [mkVector2 0 0 0 0; mkVector2 0 2000000 1 0; mkVector2 0 1000000 2 0]).
  exists {| mPoints := pts; mEdges := [] |}.
  split; [reflexivity|]. split; [by vm_compute|].
  assert (arePointsColinear atan2 pts = true) as Hcol.
  { vm_compute. rewrite Hfar, Hnear. by vm_compute. }
  split; [exact Hcol|].
  unfold buildAirWires, prepare_edges, candidate_edges.
  cbn [mPoints]. rewrite Hcol. by vm_compute.
Qed.

(** C2, at a horizontal line.  The three points (0,0), (2 mm,0),
    (-2 mm,0) lie on one line, the first of them between the other two.
    [arePointsColinear] adds pi to a negative angle only: the direction
    of the third point, pi, stays as it is and is compared with the
    direction 0 of the second.  The points are found not colinear and
    are left to the triangulation, whose edges are the only candidates;
    when it has no triangle for the three points, and so no edge, there
    is no air wire at all, where two are needed to connect the points. *)
Theorem horizontal_line_air_wires std_sort atan2 triangulate :
  std_sort_contract std_sort →
  atan2 0 2000000 = 0%float →
  atan2 0 (-2000000) = 0x1.921fb54442d18p+1%float →
  ∃ b,
    make_builder [mkPoint 0 0; mkPoint 2000000 0; mkPoint (-2000000) 0] [] = Some b ∧
    far_enough (mkVector2 0 0 0 0) (mkVector2 (-2000000) 0 2 0) = true ∧
    arePointsColinear atan2 (mPoints b) = false ∧
    candidate_edges std_sort atan2 triangulate (mPoints b) = triangulate (mPoints b) ∧
    (triangulate (mPoints b) = [] →
     (buildAirWires std_sort atan2 triangulate b).1 = [] ∧
     Z.of_nat (length (buildAirWires std_sort atan2 triangulate b).1) ≠ Z.max 0 (3 - 1)).
Proof.
  intros Hsort Hright Hleft.
  set (pts := [mkVector2 0 0 0 0; mkVector2 2000000 0 1 0; mkVector2 (-2000000) 0 2 0]).
  exists {| mPoints := pts; mEdges := [] |}.
  split; [reflexivity|]. split; [by vm_compute|].
  assert (arePointsColinear atan2 pts = false) as Hcol.
  { vm_compute. rewrite Hright, Hleft. by vm_compute. }
  split; [exact Hcol|].
  assert (candidate_edges std_sort atan2 triangulate pts = triangulate pts) as Hcands.
  { unfold candidate_edges. by rewrite Hcol. }
  split; [exact Hcands|]. cbn [mPoints]. intros Hnone.
  assert ((buildAirWires std_sort atan2 triangulate {| mPoints := pts; mEdges := [] |}).1
          = []) as Hres.
  { unfold buildAirWires, prepare_edges, kruskalMst. cbn [mPoints mEdges].
    rewrite Hcands, Hnone. simpl.
    destruct (Hsort Edge by_weight_desc by_weight_desc_swo []) as [Hperm _].
    apply Permutation_nil_r in Hperm. rewrite Hperm. by vm_compute. }
  rewrite Hres. split; [done|]. simpl. lia.
Qed.

(** C5, as the code has it.  [arePointsColinear] says "not colinear"
    exactly when some point after the first two is more than 1000 nm away
    from the first point (a squared distance above 1e6 nm², in [qreal]
    arithmetic) and its direction, brought into the half turn from 0 to
    pi, differs from that of the second point by more than 1e-6.  The
    squared distance is the exact one as long as it is at most 2^53. *)
Theorem colinearity_test atan2 pp0 pp1 rest :
  (arePointsColinear atan2 (pp0 :: pp1 :: rest) = false ↔
   ∃ p, p ∈ rest ∧ far_enough pp0 p = true ∧
        off_line atan2
          (direction atan2 (Qreal.sub (x pp1) (x pp0)) (Qreal.sub (y pp1) (y pp0)))
          pp0 p = true) ∧
  (∀ p, far_enough pp0 p = true ↔ 1000000 < dist2 p pp0) ∧
  (∀ p a0, off_line atan2 a0 pp0 p = true ↔
     PrimFloat.ltb angle_tolerance
       (PrimFloat.abs
          (PrimFloat.sub
             (direction atan2 (Qreal.sub (x p) (x pp0)) (Qreal.sub (y p) (y pp0)))
             a0)) = true) ∧
  (∀ p, (x p - x pp0) ^ 2 + (y p - y pp0) ^ 2 ≤ 2 ^ 53 →
     (far_enough pp0 p = true ↔ 1000 ^ 2 < (x p - x pp0) ^ 2 + (y p - y pp0) ^ 2)).
Proof.
  split; [|split; [|split]].
  - unfold arePointsColinear.
    set (a0 := direction atan2 _ _).
    destruct rest as [|p0 rest0]; simpl length.
    { simpl. split; [done|]. by intros (p & ?%not_elem_of_nil & _). }
    change (S (S (S (length rest0))) <? 3)%nat with false.
    generalize (p0 :: rest0). clear. intros rest.
    induction rest as [|p rest IH]; simpl.
    { split; [done|]. by intros (p & ?%not_elem_of_nil & _). }
    destruct (far_enough pp0 p && off_line atan2 a0 pp0 p) eqn:Hp.
    + split; [intros _|done]. apply andb_true_iff in Hp as [? ?].
      exists p. split; [by left|done].
    + rewrite IH. split.
      * intros (q & Hq & ?). exists q. split; [by right|done].
      * intros (q & [->|Hq]%elem_of_cons & Hf & Ho); [|by exists q].
        by rewrite Hf, Ho in Hp.
  - intros p. unfold far_enough, dist2. apply Z.ltb_lt.
  - done.
  - intros p Hp. unfold far_enough. rewrite Z.ltb_lt.
    change (Qreal.add _ _) with (dist2 p pp0).
    rewrite dist2_exact; [lia| | |done]; nia.
Qed.

(** * Samples *)

(** Three points on a line, the first two connected. *)
Definition sample_points : list Point := [mkPoint 0 0; mkPoint 100 0; mkPoint (-100) 0].
Definition sample_known : list (Z * Z) := [(0, 1)].
Definition sample_builder : AirWiresBuilder :=
  Eval vm_compute in default empty_builder (make_builder sample_points sample_known).

Lemma sample_builder_eq : make_builder sample_points sample_known = Some sample_builder.
Proof. reflexivity. Qed.

Lemma sample_classes : class_count 3 (connected sample_known) 2.
Proof.
  exists [0; 2]. split; [|done]. split; [|split; [|split]].
  - apply NoDup_cons. split; [by intros ?%list_elem_of_singleton|apply NoDup_singleton].
  - intros r Hr. repeat (apply elem_of_cons in Hr as [->|Hr]; [lia|]).
    by apply not_elem_of_nil in Hr.
  - intros r r' Hr Hr' Hc.
    apply (connected_invariant (λ i, bool_decide (i = 2))) in Hc.
    + repeat (apply elem_of_cons in Hr as [->|Hr]);
        repeat (apply elem_of_cons in Hr' as [->|Hr']);
        try done; by apply not_elem_of_nil in Hr || by apply not_elem_of_nil in Hr'.
    + intros a b0 [= -> ->]%list_elem_of_singleton. done.
  - intros i Hi. assert (i = 0 ∨ i = 1 ∨ i = 2) as [->|[->| ->]] by lia.
    + exists 0. split; [by left|done].
    + exists 0. split; [by left|]. symmetry. apply connected_edge. by left.
    + exists 2. split; [right; by left|done].
Qed.

Lemma air_wire_count_witness :
  length (buildAirWires insertion_sort atan2_axes triangle_edges sample_builder).1
    = (2 - 1)%nat ∧
  (length (buildAirWires insertion_sort atan2_axes triangle_edges sample_builder).1
     + (length sample_points - 2) = length sample_points - 1)%nat.
Proof.
  apply (air_wire_count insertion_sort atan2_axes triangle_edges
           insertion_sort_contract triangle_edges_ok sample_points sample_known).
  - reflexivity.
  - simpl. lia.
  - simpl. lia.
  - intros i j Hi Hj.
    eapply connected_mono;
      [|apply (candidate_edges_connect insertion_sort atan2_axes triangle_edges
                 insertion_sort_contract 3 (mPoints sample_builder))].
    + intros p Hp. apply elem_of_app. by right.
    + split; [done|]. intros k v Hv.
      do 3 (destruct k as [|k]; [by simplify_eq/=|]). done.
    + exact Hi.
    + exact Hj.
    + right. reflexivity.
  - exact sample_classes.
Defined.

(** Four points on the corners of a square of 2 mm, without known
    connections. *)
Definition square_points : list Point :=
  [mkPoint 0 0; mkPoint 2000000 0; mkPoint 0 2000000; mkPoint 2000000 2000000].
Definition square_builder : AirWiresBuilder :=
  Eval vm_compute in default empty_builder (make_builder square_points []).

(** Sixteen points in a row on the x axis, 1 mm apart and registered
    from left to right, the first and the third of them connected; the
    same with a connection from the first point to itself; and the same
    with the known connection given twice. *)
Definition row_points : list Point :=
  (λ k, mkPoint (k * 1000000) 0) <$> seqZ 0 16.
Definition row_builder : AirWiresBuilder :=
  Eval vm_compute in default empty_builder (make_builder row_points [(0, 2)]).
Definition row_builder_self : AirWiresBuilder :=
  Eval vm_compute in default empty_builder (make_builder row_points [(0, 2); (0, 0)]).
Definition row_builder_twice : AirWiresBuilder :=
  Eval vm_compute in default empty_builder (make_builder row_points [(0, 2); (0, 2)]).

(** The air wire from the [i]-th to the [j]-th point of the row. *)
Definition row_wire (ij : Z * Z) : AirWire :=
  (mkPoint (ij.1 * 1000000) 0, mkPoint (ij.2 * 1000000) 0).

(** The sample of three points with its known connection given twice. *)
Definition sample_builder_twice : AirWiresBuilder :=
  Eval vm_compute in
    default empty_builder (make_builder sample_points (sample_known ++ [(0, 1)])).

(** The candidate edge between the first and the second sample point. *)
Definition sample_candidate : Edge :=
  mkEdge (mkVector2 0 0 0 0) (mkVector2 100 0 1 0) 10000.

Lemma square_connected i j :
  0 ≤ i < 4 → 0 ≤ j < 4 →
  connected (ends <$> quad_edges (mPoints square_builder)) i j.
Proof.
  assert (∀ k, 0 ≤ k < 4 →
            connected (ends <$> quad_edges (mPoints square_builder)) 0 k) as H0.
  { intros k Hk. assert (k = 0 ∨ k = 1 ∨ k = 2 ∨ k = 3) as [->|[->|[->| ->]]] by lia.
    - done.
    - apply connected_edge. vm_compute. constructor.
    - apply connected_edge. vm_compute. do 1 constructor. constructor.
    - apply connected_edge. vm_compute. do 4 constructor. constructor. }
  intros Hi Hj. rewrite <-(H0 i Hi). by apply H0.
Qed.

(** ** Counterexamples *)

(** C4: two points 94906267 nm apart.  The exact squared distance is
    odd and above 2^53; the weight of the candidate edge is the even
    number below it. *)
Lemma weight_is_rounded :
  ∃ b,
    make_builder [mkPoint 0 0; mkPoint 94906267 0] [] = Some b ∧
    weight <$> mEdges (prepare_edges insertion_sort atan2_axes triangle_edges b) =
      [9007199515875288] ∧
    (0 - 94906267) ^ 2 + (0 - 0) ^ 2 = 9007199515875289.
Proof. eexists. split; [reflexivity|]. split; by vm_compute. Qed.

(** C5: the third point is 2000 nm away from the first, a squared
    distance of 4e6 nm², far below 1 mm² = 1e12 nm²; it takes part in the
    test all the same and makes it answer "not colinear". *)
Lemma two_micrometres_take_part :
  far_enough (mkVector2 0 0 0 0) (mkVector2 0 2000 2 0) = true ∧
  (0 - 0) ^ 2 + (2000 - 0) ^ 2 < (10 ^ 6) ^ 2 ∧
  arePointsColinear atan2_axes
    [mkVector2 0 0 0 0; mkVector2 2000000 0 1 0; mkVector2 0 2000 2 0] = false.
Proof. split; [by vm_compute|]. split; by vm_compute. Qed.

(** C8: on the square, whose four sides weigh the same, a sort that
    meets the contract of [std::sort] hands the sides back in the reverse
    of the order they were generated in, and the air wires it leads to
    are not those the insertion sort leads to.  The insertion sort keeps
    the sides in the order they were generated in; the loop, which takes
    the edges from the back, then meets them in the reverse order. *)
Lemma ties_not_kept :
  std_sort_contract reversing_sort ∧
  (let E := mEdges (prepare_edges insertion_sort atan2_axes quad_edges square_builder) in
   filter (λ e, weight e = 4000000000000) (insertion_sort Edge by_weight_desc E) =
     filter (λ e, weight e = 4000000000000) E ∧
   filter (λ e, weight e = 4000000000000)
     (reverse (insertion_sort Edge by_weight_desc E)) =
     reverse (filter (λ e, weight e = 4000000000000) E)) ∧
  (let E := mEdges (prepare_edges reversing_sort atan2_axes quad_edges square_builder) in
   length (filter (λ e, weight e = 4000000000000) E) = 4%nat ∧
   filter (λ e, weight e = 4000000000000) (reversing_sort Edge by_weight_desc E) =
     reverse (filter (λ e, weight e = 4000000000000) E) ∧
   filter (λ e, weight e = 4000000000000) (reversing_sort Edge by_weight_desc E) ≠
     filter (λ e, weight e = 4000000000000) E) ∧
  (buildAirWires insertion_sort atan2_axes quad_edges square_builder).1 =
    [(mkPoint 0 2000000, mkPoint 2000000 2000000);
     (mkPoint 2000000 0, mkPoint 2000000 2000000);
     (mkPoint 0 0, mkPoint 0 2000000)] ∧
  (buildAirWires reversing_sort atan2_axes quad_edges square_builder).1 =
    [(mkPoint 0 0, mkPoint 2000000 0);
     (mkPoint 0 0, mkPoint 0 2000000);
     (mkPoint 2000000 0, mkPoint 2000000 2000000)].
Proof.
  split; [exact reversing_sort_contract|]. split; [split; by vm_compute|].
  split; [|split; by vm_compute].
  split; [by vm_compute|]. split; [by vm_compute|]. by vm_compute.
Qed.

(** C9: sixteen points in a row, the first and the third connected,
    with [std::sort] as the GNU C++ library has it.  The fifteen
    candidates weigh the same.  With the one known connection [mEdges]
    has 16 elements and the sort is the insertion sort alone; the second
    point gets its air wire to the third.  A connection from the first
    point to itself, or the known connection given once more, makes 17
    elements: the sort now starts with a round of quicksort, the
    candidates come out in another order, and the second point gets its
    air wire to the first; the other air wires come in another order. *)
Lemma self_edge_changes_air_wires :
  make_builder row_points [(0, 2)] = Some row_builder ∧
  make_builder row_points [(0, 2); (0, 0)] = Some row_builder_self ∧
  make_builder row_points [(0, 2); (0, 2)] = Some row_builder_twice ∧
  length (mEdges (prepare_edges gnu_sort atan2_axes triangle_edges row_builder)) = 16%nat ∧
  length (mEdges (prepare_edges gnu_sort atan2_axes triangle_edges row_builder_self))
    = 17%nat ∧
  (buildAirWires gnu_sort atan2_axes triangle_edges row_builder).1 =
    (row_wire <$>
       [(14, 15); (13, 14); (12, 13); (11, 12); (10, 11); (9, 10); (8, 9); (7, 8);
        (6, 7); (5, 6); (4, 5); (3, 4); (2, 3); (1, 2)]) ∧
  (buildAirWires gnu_sort atan2_axes triangle_edges row_builder_self).1 =
    (row_wire <$>
       [(0, 1); (2, 3); (3, 4); (4, 5); (5, 6); (7, 8); (8, 9); (9, 10); (10, 11);
        (11, 12); (12, 13); (13, 14); (14, 15); (6, 7)]) ∧
  (buildAirWires gnu_sort atan2_axes triangle_edges row_builder_twice).1 =
    (buildAirWires gnu_sort atan2_axes triangle_edges row_builder_self).1 ∧
  (row_wire (1, 2) ∈ (buildAirWires gnu_sort atan2_axes triangle_edges row_builder).1) ∧
  (row_wire (1, 2) ∉
     (buildAirWires gnu_sort atan2_axes triangle_edges row_builder_self).1) ∧
  (buildAirWires gnu_sort atan2_axes triangle_edges row_builder_self).1 ≠
    (buildAirWires gnu_sort atan2_axes triangle_edges row_builder).1.
Proof.
  assert ((buildAirWires gnu_sort atan2_axes triangle_edges row_builder).1 =
    (row_wire <$>
       [(14, 15); (13, 14); (12, 13); (11, 12); (10, 11); (9, 10); (8, 9); (7, 8);
        (6, 7); (5, 6); (4, 5); (3, 4); (2, 3); (1, 2)])) as H0 by (by vm_compute).
  assert ((buildAirWires gnu_sort atan2_axes triangle_edges row_builder_self).1 =
    (row_wire <$>
       [(0, 1); (2, 3); (3, 4); (4, 5); (5, 6); (7, 8); (8, 9); (9, 10); (10, 11);
        (11, 12); (12, 13); (13, 14); (14, 15); (6, 7)])) as H1 by (by vm_compute).
  split; [reflexivity|]. split; [reflexivity|]. split; [reflexivity|].
  split; [by vm_compute|]. split; [by vm_compute|].
  split; [exact H0|]. split; [exact H1|]. split; [by vm_compute|].
  rewrite H0, H1. split; [|split].
  - apply (bool_decide_unpack _). by vm_compute.
  - apply (bool_decide_unpack _). by vm_compute.
  - intros Heq. by vm_compute in Heq.
Qed.

(** ** The theorems at the samples *)

Lemma candidate_weight_witness :
  weight sample_candidate = dist2 (p1 sample_candidate) (p2 sample_candidate) ∧
  ((x (p1 sample_candidate) - x (p2 sample_candidate)) ^ 2 +
   (y (p1 sample_candidate) - y (p2 sample_candidate)) ^ 2 ≤ 2 ^ 53 →
   weight sample_candidate =
     (x (p1 sample_candidate) - x (p2 sample_candidate)) ^ 2 +
     (y (p1 sample_candidate) - y (p2 sample_candidate)) ^ 2) ∧
  ∃ p q, p ∈ sample_points ∧ q ∈ sample_points ∧
    to_Point (p1 sample_candidate) = stored p ∧
    to_Point (p2 sample_candidate) = stored q ∧
    ((∀ r, r ∈ sample_points → Z.abs (getX r) ≤ 2 ^ 25 ∧ Z.abs (getY r) ≤ 2 ^ 25) →
     weight sample_candidate = (getX p - getX q) ^ 2 + (getY p - getY q) ^ 2).
Proof.
  apply (candidate_weight insertion_sort atan2_axes triangle_edges
           insertion_sort_contract triangle_edges_ok sample_points sample_known
           sample_builder sample_candidate).
  - reflexivity.
  - simpl. lia.
  - simpl. lia.
  - vm_compute. right. left.
Defined.

Lemma air_wires_are_candidates_witness :
  ∃ M, (buildAirWires insertion_sort atan2_axes triangle_edges sample_builder).1
         = to_AirWire <$> M ∧
    ∀ e, e ∈ M →
      e ∈ weigh <$> candidate_edges insertion_sort atan2_axes triangle_edges
                      (mPoints sample_builder) ∧
      weight e = dist2 (p1 e) (p2 e) ∧ 0 ≤ weight e ∧ is_known e = false ∧
      ¬ e ∈ mEdges sample_builder.
Proof.
  apply (air_wires_are_candidates insertion_sort atan2_axes triangle_edges
           insertion_sort_contract triangle_edges_ok sample_points sample_known
           sample_builder).
  - reflexivity.
  - simpl. lia.
  - simpl. lia.
Defined.

Lemma selection_follows_sorted_order_witness :
  reverse (insertion_sort Edge by_weight_desc
             (mEdges (prepare_edges insertion_sort atan2_axes triangle_edges
                        sample_builder)))
    ≡ₚ mEdges (prepare_edges insertion_sort atan2_axes triangle_edges sample_builder) ∧
  StronglySorted (λ e1 e2, weight e1 ≤ weight e2)
    (reverse (insertion_sort Edge by_weight_desc
                (mEdges (prepare_edges insertion_sort atan2_axes triangle_edges
                           sample_builder)))) ∧
  ∃ M, (buildAirWires insertion_sort atan2_axes triangle_edges sample_builder).1
         = to_AirWire <$> M ∧
    Selects []
      (reverse (insertion_sort Edge by_weight_desc
                  (mEdges (prepare_edges insertion_sort atan2_axes triangle_edges
                             sample_builder)))) M ∧
    ∀ M', Selects []
            (reverse (insertion_sort Edge by_weight_desc
                        (mEdges (prepare_edges insertion_sort atan2_axes triangle_edges
                                   sample_builder)))) M' →
      M' = M.
Proof.
  apply (selection_follows_sorted_order insertion_sort atan2_axes triangle_edges
           insertion_sort_contract triangle_edges_ok sample_points sample_known
           sample_builder).
  - reflexivity.
  - simpl. lia.
  - simpl. lia.
Defined.

Lemma redundant_known_edge_witness :
  length (buildAirWires insertion_sort atan2_axes triangle_edges sample_builder_twice).1 =
  length (buildAirWires insertion_sort atan2_axes triangle_edges sample_builder).1 ∧
  (filter (λ e, is_known e = false)
     (reverse (insertion_sort Edge by_weight_desc
                 (mEdges (prepare_edges insertion_sort atan2_axes triangle_edges
                            sample_builder_twice)))) =
   filter (λ e, is_known e = false)
     (reverse (insertion_sort Edge by_weight_desc
                 (mEdges (prepare_edges insertion_sort atan2_axes triangle_edges
                            sample_builder)))) →
   (buildAirWires insertion_sort atan2_axes triangle_edges sample_builder_twice).1 =
   (buildAirWires insertion_sort atan2_axes triangle_edges sample_builder).1) ∧
  ((∀ e1 e2,
      e1 ∈ weigh <$> candidate_edges insertion_sort atan2_axes triangle_edges
                       (mPoints sample_builder) →
      e2 ∈ weigh <$> candidate_edges insertion_sort atan2_axes triangle_edges
                       (mPoints sample_builder) →
      weight e1 = weight e2 → e1 = e2) →
   (buildAirWires insertion_sort atan2_axes triangle_edges sample_builder_twice).1 =
   (buildAirWires insertion_sort atan2_axes triangle_edges sample_builder).1).
Proof.
  apply (redundant_known_edge insertion_sort atan2_axes triangle_edges
           insertion_sort_contract triangle_edges_ok sample_points sample_known []
           0 1 sample_builder sample_builder_twice).
  - reflexivity.
  - reflexivity.
  - simpl. lia.
  - simpl. lia.
  - right. apply connected_edge. left.
Defined.

(** The edges of the sample in the order the loop takes them, and the
    loop on the sample stopped after [k] rounds. *)
Definition sample_order : list Edge :=
  reverse (insertion_sort Edge by_weight_desc
             (mEdges (prepare_edges insertion_sort atan2_axes triangle_edges
                        sample_builder))).
Definition sample_rounds (k : nat) : list Edge * MstState :=
  kruskal_steps k sample_order
    (init_state (mPoints (prepare_edges insertion_sort atan2_axes triangle_edges
                            sample_builder))).

Lemma tags_track_connectivity_witness :
  (buildAirWires insertion_sort atan2_axes triangle_edges sample_builder).1 =
    mst (sample_rounds (length sample_order)).2 ∧
  ∃ P M,
    sample_order = P ++ (sample_rounds 1).1 ∧
    mst (sample_rounds 1).2 = to_AirWire <$> M ∧
    (∀ e, e ∈ M → e ∈ P) ∧
    (∀ i j, 0 ≤ i < Z.of_nat (length sample_points) →
            0 ≤ j < Z.of_nat (length sample_points) →
       tag_at (st_tags (sample_rounds 1).2) i = tag_at (st_tags (sample_rounds 1).2) j ↔
       connected (ends <$> (filter (λ e, is_known e = true) P ++ M)) i j) ∧
    (∀ dt rest,
       (sample_rounds 1).1 = dt :: rest →
       mst (process_edge dt (sample_rounds 1).2) = mst (sample_rounds 1).2 ∨
       (mst (process_edge dt (sample_rounds 1).2) =
          mst (sample_rounds 1).2 ++ [to_AirWire dt] ∧
        tag_at (st_tags (sample_rounds 1).2) (id (p1 dt)) ≠
        tag_at (st_tags (sample_rounds 1).2) (id (p2 dt)))).
Proof.
  apply (tags_track_connectivity insertion_sort atan2_axes triangle_edges
           insertion_sort_contract triangle_edges_ok sample_points sample_known
           sample_builder 1).
  - reflexivity.
  - simpl. lia.
  - simpl. lia.
Defined.

Lemma vertical_line_air_wires_witness :
  ∃ b,
    make_builder [mkPoint 0 0; mkPoint 0 2000000; mkPoint 0 1000000] [] = Some b ∧
    far_enough (mkVector2 0 0 0 0) (mkVector2 0 1000000 2 0) = true ∧
    arePointsColinear atan2_axes (mPoints b) = true ∧
    (buildAirWires insertion_sort atan2_axes triangle_edges b).1 =
      [(mkPoint 0 2000000, mkPoint 0 1000000); (mkPoint 0 0, mkPoint 0 2000000)].
Proof.
  apply (vertical_line_air_wires atan2_axes triangle_edges); reflexivity.
Defined.

Lemma horizontal_line_air_wires_witness :
  ∃ b,
    make_builder [mkPoint 0 0; mkPoint 2000000 0; mkPoint (-2000000) 0] [] = Some b ∧
    arePointsColinear atan2_axes (mPoints b) = false ∧
    proper_triangle_edges (mPoints b) = [] ∧
    (buildAirWires insertion_sort atan2_axes proper_triangle_edges b).1 = [].
Proof.
  destruct (horizontal_line_air_wires insertion_sort atan2_axes proper_triangle_edges
              insertion_sort_contract eq_refl eq_refl)
    as (b & Hb & _ & Hcol & _ & Hres).
  exists b. split; [exact Hb|]. split; [exact Hcol|].
  assert (proper_triangle_edges (mPoints b) = []) as Hnone.
  { vm_compute in Hb. injection Hb as <-. reflexivity. }
  split; [exact Hnone|]. exact (proj1 (Hres Hnone)).
Defined.

(** * Further properties of the builder *)

(** ** Counting components *)

(** The points of [0, n) fall into components under a list of joined
    pairs.  [labels E] gives every identity a label such that two
    identities have the same label exactly when [E] connects them: each
    pair in turn hands the label of its first end to everything labelled
    like its second end, as the loop of [kruskalMst] does with its tags.
    [components n E] counts the labels in use in [0, n). *)
Definition valid_pair (n : Z) (p : Z * Z) : Prop := 0 ≤ p.1 < n ∧ 0 ≤ p.2 < n.

Definition relabel (tg : Z → Z) (p : Z * Z) (k : Z) : Z :=
  if decide (tg k = tg p.2) then tg p.1 else tg k.

Fixpoint labels (E : list (Z * Z)) : Z → Z :=
  match E with
  | [] => λ k, k
  | p :: E' => relabel (labels E') p
  end.

Definition components (n : Z) (E : list (Z * Z)) : nat :=
  length (filter (λ i, labels E i = i) (seqZ 0 n)).

(** The squared length of an air wire, as [dist2] computes it. *)
Definition length2 (w : AirWire) : Z :=
  let dx := Qreal.sub (getX w.1) (getX w.2) in
  let dy := Qreal.sub (getY w.1) (getY w.2) in
  Qreal.add (Qreal.mul dx dx) (Qreal.mul dy dy).

Lemma labels_idem E k : labels E (labels E k) = labels E k.
Proof.
  revert k. induction E as [|p E IH]; intros k; [done|].
  simpl. unfold relabel.
  destruct (decide (labels E k = labels E p.2)) as [Hk|Hk].
  - rewrite IH. by destruct (decide (labels E p.1 = labels E p.2)).
  - rewrite IH. by rewrite decide_False.
Qed.

Lemma labels_range n E k :
  Forall (valid_pair n) E → 0 ≤ k < n → 0 ≤ labels E k < n.
Proof.
  intros HE. revert k. induction HE as [|p E [Hp1 Hp2] HE IH]; intros k Hk; [done|].
  simpl. unfold relabel. destruct (decide _); by apply IH.
Qed.

Lemma labels_connected E i j : labels E i = labels E j ↔ connected E i j.
Proof.
  revert i j. induction E as [|[a b] E IH]; intros i j.
  { simpl. split; [by intros ->|apply connected_nil]. }
  assert (∀ u v, labels E u = labels E v → connected ((a, b) :: E) u v) as Hc.
  { intros u v Huv. eapply connected_mono; [|by apply IH]. intros q. by right. }
  assert (connected ((a, b) :: E) a b) as Hab by (apply connected_edge; by left).
  split.
  - simpl. unfold relabel. simpl.
    destruct (decide (labels E i = labels E b)) as [Hib|Hib],
      (decide (labels E j = labels E b)) as [Hjb|Hjb]; intros Hij.
    + apply Hc. congruence.
    + etrans; [exact (Hc i b Hib)|]. etrans; [symmetry; exact Hab|]. by apply Hc.
    + etrans; [exact (Hc i a Hij)|]. etrans; [exact Hab|]. apply Hc. congruence.
    + by apply Hc.
  - apply connected_invariant. intros c d [[= -> ->]|Hcd]%elem_of_cons.
    + simpl. unfold relabel. simpl. rewrite (decide_True (P := labels E b = labels E b)) by done.
      by destruct (decide _).
    + assert (labels E c = labels E d) as Heq by (by apply IH, connected_edge).
      simpl. unfold relabel. by rewrite Heq.
Qed.

#[local] Instance connected_dec E i j : Decision (connected E i j).
Proof.
  destruct (decide (labels E i = labels E j)) as [H|H].
  - left. by apply labels_connected.
  - right. by rewrite <-labels_connected.
Defined.

Lemma components_class_count n E :
  Forall (valid_pair n) E → class_count n (connected E) (components n E).
Proof.
  intros HE. exists (filter (λ i, labels E i = i) (seqZ 0 n)). split; [|done].
  split; [|split; [|split]].
  - apply NoDup_filter, NoDup_seqZ.
  - intros r [_ Hr%elem_of_seqZ]%list_elem_of_filter. lia.
  - intros r r' [Hr _]%list_elem_of_filter [Hr' _]%list_elem_of_filter Hc.
    apply labels_connected in Hc. congruence.
  - intros i Hi. exists (labels E i). split.
    + apply list_elem_of_filter. split; [apply labels_idem|].
      apply elem_of_seqZ. pose proof (labels_range n E i HE Hi). lia.
    + apply labels_connected. by rewrite labels_idem.
Qed.

Lemma components_unique n E c :
  Forall (valid_pair n) E → class_count n (connected E) c → c = components n E.
Proof.
  intros HE Hc. apply (class_count_unique n (connected E)); [apply _|exact Hc|].
  by apply components_class_count.
Qed.

(** A coarser relation has no more classes. *)
Lemma class_system_mono n (R R' : relation Z) reps reps' :
  Equivalence R' →
  (∀ i j, 0 ≤ i < n → 0 ≤ j < n → R i j → R' i j) →
  class_system n R reps → class_system n R' reps' →
  (length reps' ≤ length reps)%nat.
Proof.
  intros HR' Hsub (_ & Hin & _ & Hcov) (Hnd' & Hin' & Hsep' & _).
  assert (∃ img, Forall2 (λ r' r, r ∈ reps ∧ R r' r) reps' img) as [img Himg].
  { clear Hnd' Hsep'. induction reps' as [|r' reps' IH]; [by exists []|].
    destruct IH as [img Himg]; [intros; apply Hin'; by right|].
    destruct (Hcov r') as (r & Hr & Hrr); [apply Hin'; by left|].
    exists (r :: img). by constructor. }
  rewrite (Forall2_length _ _ _ Himg).
  apply submseteq_length, NoDup_submseteq.
  - revert Hnd' Hsep' Hin'.
    induction Himg as [|u v us vs [Hv Huv] Himg IH]; intros Hnd' Hsep' Hin'; [constructor|].
    apply NoDup_cons in Hnd' as [Hnotin Hnd'].
    constructor; [|apply IH; [done| |]].
    + intros Hvs. apply Hnotin.
      apply list_elem_of_lookup in Hvs as [k Hk].
      destruct (Forall2_lookup_r _ _ _ _ _ Himg Hk) as (u2 & Hu2 & _ & Hu2v).
      assert (u2 ∈ us) as Hu2in by (by eapply list_elem_of_lookup_2).
      assert (u = u2) as ->; [|done].
      apply Hsep'; [by left|by right|].
      assert (0 ≤ u < n) by (apply Hin'; by left).
      assert (0 ≤ u2 < n) by (apply Hin'; by right).
      assert (0 ≤ v < n) by by apply Hin.
      etrans; [by apply (Hsub u v)|]. symmetry. by apply (Hsub u2 v).
    + intros a b Ha Hb. apply Hsep'; by right.
    + intros a Ha. apply Hin'. by right.
  - intros v Hv. apply list_elem_of_lookup in Hv as [k Hk].
    by destruct (Forall2_lookup_r _ _ _ _ _ Himg Hk) as (? & _ & ? & _).
Qed.

Lemma components_mono n E E' :
  Forall (valid_pair n) E → Forall (valid_pair n) E' →
  (∀ i j, 0 ≤ i < n → 0 ≤ j < n → connected E i j → connected E' i j) →
  (components n E' ≤ components n E)%nat.
Proof.
  intros HE HE' Hsub.
  destruct (components_class_count n E HE) as (reps & Hreps & <-).
  destruct (components_class_count n E' HE') as (reps' & Hreps' & <-).
  eapply (class_system_mono n (connected E) (connected E')); [apply _|done..].
Qed.

Lemma components_proper n E E' :
  Forall (valid_pair n) E → Forall (valid_pair n) E' →
  (∀ i j, 0 ≤ i < n → 0 ≤ j < n → connected E i j ↔ connected E' i j) →
  components n E = components n E'.
Proof.
  intros HE HE' Heq. apply Nat.le_antisymm; apply components_mono; try done;
    intros i j Hi Hj; by apply Heq.
Qed.

(** A pair that joins nothing new leaves the count, a pair that joins
    two components takes one off. *)
Lemma components_cons_same n E a b :
  connected E a b → components n ((a, b) :: E) = components n E.
Proof.
  intros Hab%labels_connected. unfold components. f_equal.
  apply filter_ext_in. intros k _. simpl. unfold relabel. simpl.
  destruct (decide _); [|done]. by rewrite Hab, <-e.
Qed.

Lemma components_cons_join n E a b :
  Forall (valid_pair n) E → valid_pair n (a, b) → ¬ connected E a b →
  (components n ((a, b) :: E) + 1 = components n E)%nat.
Proof.
  intros HE [Ha Hb] Hab. rewrite <-labels_connected in Hab. simpl in Ha, Hb.
  unfold components.
  pose proof (labels_range n E b HE Hb) as Hrb.
  apply (filter_drop_one _ _ _ (labels E b)); [apply NoDup_seqZ| | |].
  - apply elem_of_seqZ. lia.
  - apply labels_idem.
  - intros k Hk%elem_of_seqZ. simpl. unfold relabel. simpl.
    destruct (decide (labels E k = labels E b)) as [Hkb|Hkb].
    + split.
      * intros Hk'. exfalso. apply Hab. rewrite <-Hkb, <-Hk'. by rewrite labels_idem.
      * intros [Hk' Hne]. congruence.
    + split; [|by intros []]. intros Hk'. split; [done|]. congruence.
Qed.

Lemma components_cons_le n E p :
  Forall (valid_pair n) E → valid_pair n p →
  (components n (p :: E) ≤ components n E ≤ components n (p :: E) + 1)%nat.
Proof.
  intros HE Hp. destruct p as [a b].
  destruct (decide (connected E a b)) as [Hc|Hc].
  - rewrite components_cons_same by done. lia.
  - pose proof (components_cons_join n E a b HE Hp Hc). lia.
Qed.

Lemma components_app_le n F E :
  Forall (valid_pair n) F → Forall (valid_pair n) E →
  (components n E ≤ components n (F ++ E) + length F)%nat.
Proof.
  intros HF HE. induction HF as [|p F Hp HF IH]; [simpl; lia|].
  simpl. pose proof (components_cons_le n (F ++ E) p) as Hle.
  rewrite Forall_app in Hle. specialize (Hle (conj HF HE) Hp). lia.
Qed.

Lemma components_pos n E :
  0 < n → Forall (valid_pair n) E → (1 ≤ components n E)%nat.
Proof.
  intros Hn HE. unfold components.
  assert (labels E 0 ∈ filter (λ i, labels E i = i) (seqZ 0 n)) as Hin.
  { apply list_elem_of_filter. split; [apply labels_idem|].
    apply elem_of_seqZ. pose proof (labels_range n E 0 HE). lia. }
  destruct (filter _ _); [by apply not_elem_of_nil in Hin|simpl; lia].
Qed.

Lemma components_le n E : 0 ≤ n → (components n E ≤ Z.to_nat n)%nat.
Proof.
  intros Hn. unfold components. etrans; [apply length_filter|].
  rewrite length_seqZ. lia.
Qed.

Lemma components_perm n E E' :
  Forall (valid_pair n) E → E ≡ₚ E' → components n E = components n E'.
Proof.
  intros HE Hperm. apply components_proper; [done|by rewrite <-Hperm|].
  intros i j _ _. by apply connected_perm.
Qed.

Lemma components_nil n : 0 ≤ n → components n [] = Z.to_nat n.
Proof.
  intros Hn. unfold components. rewrite filter_all, length_seqZ; [done|].
  by apply Forall_forall.
Qed.

Lemma components_all_connected n E :
  1 ≤ n → Forall (valid_pair n) E →
  (∀ i j, 0 ≤ i < n → 0 ≤ j < n → connected E i j) → components n E = 1%nat.
Proof.
  intros Hn HE Hall. symmetry. apply components_unique; [done|].
  by apply class_count_all_connected.
Qed.

(** More pairs joined beforehand leave less to gain from the pairs
    [C]. *)
Lemma components_gain_mono n X E C :
  Forall (valid_pair n) X → Forall (valid_pair n) E → Forall (valid_pair n) C →
  (components n (X ++ E) + components n (E ++ C)
   ≤ components n E + components n (X ++ E ++ C))%nat.
Proof.
  intros HX HE HC. induction HX as [|[a b] X Hp HX IH]; [simpl; lia|].
  assert (Forall (valid_pair n) (X ++ E)) as HXE by (by apply Forall_app).
  assert (Forall (valid_pair n) (X ++ E ++ C)) as HXEC
    by (rewrite !Forall_app; done).
  simpl. destruct (decide (connected (X ++ E) a b)) as [Hc|Hc].
  - rewrite (components_cons_same n (X ++ E)) by done.
    rewrite (components_cons_same n (X ++ E ++ C)); [done|].
    eapply connected_mono; [|exact Hc]. intros p. rewrite !elem_of_app. tauto.
  - pose proof (components_cons_join n _ a b HXE Hp Hc).
    pose proof (components_cons_le n _ (a, b) HXEC Hp). lia.
Qed.

Lemma consecutive_edges_length (l : list Vector2) :
  length (consecutive_edges l) = (length l - 1)%nat.
Proof.
  induction l as [|a [|b l] IH]; [done..|].
  change (consecutive_edges (a :: b :: l))
    with (mkEdge a b (-1) :: consecutive_edges (b :: l)).
  simpl length in *. lia.
Qed.

Lemma to_AirWire_weigh (C : list Edge) : to_AirWire <$> (weigh <$> C) = to_AirWire <$> C.
Proof. rewrite <-list_fmap_compose. by apply list_fmap_ext. Qed.

(** The loop of [arePointsColinear] looks at the points far enough from
    the first one only, in whatever order. *)
Lemma colinear_loop_far atan2 a0 pp0 rest :
  colinear_loop atan2 a0 pp0 rest =
  colinear_loop atan2 a0 pp0 (filter (λ p, far_enough pp0 p = true) rest).
Proof.
  induction rest as [|p rest IH]; [done|].
  rewrite filter_cons. simpl. destruct (far_enough pp0 p) eqn:Hfar.
  - rewrite decide_True by done. simpl. rewrite Hfar. simpl. by rewrite IH.
  - by rewrite decide_False.
Qed.

Lemma colinear_loop_perm atan2 a0 pp0 rest rest' :
  rest ≡ₚ rest' → colinear_loop atan2 a0 pp0 rest = colinear_loop atan2 a0 pp0 rest'.
Proof.
  induction 1 as [|p l l' _ IH|p q l|l l' l'' _ IH1 _ IH2]; simpl.
  - done.
  - by rewrite IH.
  - by destruct (far_enough pp0 p && _), (far_enough pp0 q && _).
  - congruence.
Qed.

Lemma arePointsColinear_loop atan2 pp0 pp1 rest :
  arePointsColinear atan2 (pp0 :: pp1 :: rest) =
  colinear_loop atan2
    (direction atan2 (Qreal.sub (x pp1) (x pp0)) (Qreal.sub (y pp1) (y pp0))) pp0 rest.
Proof. by destruct rest. Qed.

(** ** Sums of weights *)

Definition Zsum {A} (f : A → Z) (l : list A) : Z := foldr (λ a s, f a + s) 0 l.

(** The sum of the weights of a list of edges, and the sum of the
    squared lengths of a list of air wires. *)
Definition total_weight (l : list Edge) : Z := Zsum weight l.
Definition total_length2 (l : AirWires) : Z := Zsum length2 l.

Lemma Zsum_perm {A} (f : A → Z) (l k : list A) : l ≡ₚ k → Zsum f l = Zsum f k.
Proof. induction 1; simpl; lia. Qed.

Lemma Zsum_nonneg {A} (f : A → Z) (l : list A) :
  Forall (λ a, 0 ≤ f a) l → 0 ≤ Zsum f l.
Proof. induction 1; simpl; lia. Qed.

Lemma Zsum_fmap {A B} (h : A → B) (f : B → Z) (g : A → Z) (l : list A) :
  Forall (λ a, f (h a) = g a) l → Zsum f (h <$> l) = Zsum g l.
Proof.
  induction 1 as [|a l Ha _ IH]; [done|].
  rewrite fmap_cons. unfold Zsum in *. cbn [foldr]. by rewrite Ha, IH.
Qed.

Lemma filter_length_fmap {A B} (h : A → B) (P : B → Prop) (Q : A → Prop)
    `{!∀ b, Decision (P b)} `{!∀ a, Decision (Q a)} (l : list A) :
  Forall (λ a, P (h a) ↔ Q a) l →
  length (filter P (h <$> l)) = length (filter Q l).
Proof.
  induction 1 as [|a l Ha _ IH]; [done|].
  rewrite fmap_cons, !filter_cons.
  destruct (decide (P (h a))) as [HP|HP], (decide (Q a)) as [HQ|HQ]; simpl; tauto || lia.
Qed.

(** If [lb] has, above every bound, at least as many elements as [la],
    its sum is at least that of [la]. *)
Lemma heavier_sum {A B} (f : A → Z) (g : B → Z) (la : list A) (lb : list B) :
  StronglySorted (λ a1 a2, f a2 ≤ f a1) la →
  Forall (λ b, 0 ≤ g b) lb →
  (∀ w : Z, (length (filter (λ a, (w < f a)%Z) la) ≤ length (filter (λ b, (w < g b)%Z) lb))%nat) →
  Zsum f la ≤ Zsum g lb.
Proof.
  intros Hs. revert lb. induction Hs as [|a la Hla IH Ha]; intros lb Hpos Hdom.
  { simpl. by apply Zsum_nonneg. }
  pose proof (Hdom (f a - 1)) as H1.
  rewrite filter_cons, decide_True in H1 by lia. simpl in H1.
  destruct (filter (λ b, f a - 1 < g b) lb) as [|b0 fl] eqn:Hf; [simpl in H1; lia|].
  assert (b0 ∈ filter (λ b, f a - 1 < g b) lb) as Hb0 by (rewrite Hf; left).
  apply list_elem_of_filter in Hb0 as [Hgb Hb0].
  apply elem_of_Permutation in Hb0 as [lb' Hlb'].
  rewrite (Zsum_perm g _ _ Hlb'). simpl.
  assert (Zsum f la ≤ Zsum g lb'); [|lia].
  apply IH.
  - rewrite Hlb' in Hpos. by apply Forall_cons in Hpos as [_ ?].
  - intros w. specialize (Hdom w). rewrite Hlb', !filter_cons in Hdom.
    destruct (decide (w < f a)) as [Hw|Hw].
    + rewrite decide_True in Hdom by lia. simpl in Hdom. lia.
    + rewrite filter_none; [simpl; lia|].
      rewrite Forall_forall in Ha. apply Forall_forall. intros a' Ha'.
      specialize (Ha a' Ha'). simpl. lia.
Qed.

(** A list in ascending order of weight is its light part followed by
    its heavy part. *)
Lemma sorted_split_at (w : Z) (L : list Edge) :
  StronglySorted (λ a b, weight a ≤ weight b) L →
  L = filter (λ e, weight e ≤ w) L ++ filter (λ e, w < weight e) L.
Proof.
  induction 1 as [|a l Hl IH Ha]; [done|].
  rewrite !filter_cons. destruct (decide (weight a ≤ w)) as [Hw|Hw].
  - rewrite decide_False by lia. simpl. by f_equal.
  - rewrite decide_True by lia.
    rewrite (filter_none (λ e, weight e ≤ w) l).
    + simpl. f_equal. symmetry. apply filter_all.
      eapply Forall_impl; [exact Ha|]. intros e He. simpl in *. lia.
    + eapply Forall_impl; [exact Ha|]. intros e He. simpl in *. lia.
Qed.

Lemma connected_app_proper X E E' :
  (∀ i j, connected E i j ↔ connected E' i j) →
  ∀ i j, connected (X ++ E) i j ↔ connected (X ++ E') i j.
Proof.
  intros HEE. induction X as [|p X IH]; [done|].
  simpl. by apply connected_cons_proper.
Qed.

(** ** The selection and the components *)

Lemma valid_edge_pair n e : valid_edge n e ↔ valid_pair n (ends e).
Proof. done. Qed.

Lemma valid_edges_pairs n (L : list Edge) :
  Forall (valid_edge n) L → Forall (valid_pair n) (ends <$> L).
Proof. intros HL. by apply Forall_fmap. Qed.

(** Every candidate emitted takes one component off, and what is not
    emitted takes none. *)
Lemma Selects_components n E L M :
  Forall (valid_pair n) E → Forall (valid_edge n) L →
  Forall (λ e, is_known e = false) L → Selects E L M →
  (length M + components n ((ends <$> L) ++ E) = components n E)%nat.
Proof.
  intros HE HL Hcand HS. revert HE HL Hcand.
  induction HS as [E|E e L M Hk HS IH|E e L M Hk Hc HS IH|E e L M Hk Hc HS IH];
    intros HE HL Hcand.
  - done.
  - apply Forall_cons in Hcand as [? _]. congruence.
  - apply Forall_cons in HL as [He HL]. apply Forall_cons in Hcand as [_ Hcand].
    rewrite fmap_cons. simpl. unfold ends at 1.
    rewrite components_cons_same; [by apply IH|].
    eapply connected_mono; [|exact Hc]. intros q Hq. apply elem_of_app. by right.
  - apply Forall_cons in HL as [He HL]. apply Forall_cons in Hcand as [_ Hcand].
    pose proof (components_cons_join n E _ _ HE He Hc) as Hjoin.
    specialize (IH (Forall_cons_2 (valid_pair n) (ends e) E He HE) HL Hcand).
    rewrite (components_proper n ((ends <$> e :: L) ++ E) ((ends <$> L) ++ ends e :: E)).
    + change (ends e) with (id (p1 e), id (p2 e)) in *. simpl length. lia.
    + apply Forall_app. split; [by apply valid_edges_pairs; constructor|done].
    + apply Forall_app. split; [by apply valid_edges_pairs|by constructor].
    + intros i j _ _. apply connected_perm. rewrite fmap_cons. simpl.
      by rewrite Permutation_middle.
Qed.

(** A selection along [L1 ++ L2] is one along [L1] followed by one along
    [L2]. *)
Lemma Selects_app E L1 L2 M :
  Forall (λ e, is_known e = false) L1 →
  Selects E (L1 ++ L2) M →
  ∃ M1 M2 E1, M = M1 ++ M2 ∧ Selects E L1 M1 ∧ Selects E1 L2 M2 ∧
    (∀ p, p ∈ E1 → p ∈ (ends <$> L1) ++ E) ∧
    ∀ i j, connected E1 i j ↔ connected ((ends <$> L1) ++ E) i j.
Proof.
  intros Hcand. revert E M. induction Hcand as [|e L1 Hk Hcand IH]; intros E M HS.
  { exists [], M, E. split; [done|]. split; [constructor|]. done. }
  simpl in HS. inversion HS as [|? ? ? ? Hk' HS'|? ? ? ? Hk' Hc HS'|? ? ? M' Hk' Hc HS'];
    simplify_eq.
  - congruence.
  - destruct (IH _ _ HS') as (M1 & M2 & E1 & -> & HS1 & HS2 & Hsub & Heq).
    exists M1, M2, E1. split; [done|]. split; [by apply selects_skip|].
    split; [done|]. split.
    { intros p Hp. rewrite fmap_cons. right. by apply Hsub. }
    intros i j. rewrite Heq, fmap_cons. simpl. unfold ends at 2. symmetry.
    apply connected_absorb.
    eapply connected_mono; [|exact Hc]. intros q Hq. apply elem_of_app. by right.
  - destruct (IH _ _ HS') as (M1 & M2 & E1 & -> & HS1 & HS2 & Hsub & Heq).
    exists (e :: M1), M2, E1. split; [done|]. split; [by apply selects_take|].
    split; [done|]. split.
    { intros p Hp. apply Hsub in Hp. revert Hp. edge_mem. }
    intros i j. rewrite Heq. apply connected_perm.
    rewrite fmap_cons. simpl. by rewrite Permutation_middle.
Qed.

(** No emitted candidate closes a cycle: its ends are not connected by
    the pairs joined before and the candidates emitted before it. *)
Lemma Selects_forest E L M M1 e M2 :
  Forall (λ e, is_known e = false) L → Selects E L M → M = M1 ++ e :: M2 →
  ¬ connected ((ends <$> M1) ++ E) (id (p1 e)) (id (p2 e)).
Proof.
  intros Hcand HS. revert M1.
  induction HS as [E|E e0 L M Hk HS IH|E e0 L M Hk Hc HS IH|E e0 L M Hk Hc HS IH];
    intros M1 HM.
  - by destruct M1.
  - apply Forall_cons in Hcand as [? _]. congruence.
  - apply Forall_cons in Hcand as [_ Hcand]. by apply IH.
  - apply Forall_cons in Hcand as [_ Hcand].
    destruct M1 as [|e1 M1]; simplify_eq/=; [done|].
    specialize (IH Hcand M1 eq_refl). intros Hc'. apply IH.
    eapply connected_perm; [|exact Hc']. by rewrite Permutation_middle.
Qed.

Lemma StronglySorted_sublist {A} (R : relation A) (l k : list A) :
  sublist l k → StronglySorted R k → StronglySorted R l.
Proof.
  induction 1 as [|a l k Hlk IH|a l k Hlk IH]; intros Hk; [done|..].
  - apply StronglySorted_cons in Hk as [Ha Hk]. constructor; [by apply IH|].
    rewrite Forall_forall in Ha. apply Forall_forall. intros b Hb. apply Ha.
    by eapply elem_of_sublist.
  - apply StronglySorted_cons in Hk as [_ Hk]. by apply IH.
Qed.

Lemma length2_weight e : length2 (to_AirWire e) = dist2 (p1 e) (p2 e).
Proof. done. Qed.


(** Above every bound [w], the selection has as many candidates as the
    candidates above [w] take components off. *)
Lemma Selects_heavy n K Lc M (w : Z) :
  Forall (valid_pair n) K → Forall (valid_edge n) Lc →
  Forall (λ e, is_known e = false) Lc →
  StronglySorted (λ a b, weight a ≤ weight b) Lc →
  Selects K Lc M →
  (length (filter (λ e, (w < weight e)%Z) M) + components n ((ends <$> Lc) ++ K)
   = components n ((ends <$> filter (λ e, (weight e ≤ w)%Z) Lc) ++ K))%nat.
Proof.
  intros HK HLc Hcand Hsorted HS.
  set (L1 := filter (λ e, weight e ≤ w) Lc). set (L2 := filter (λ e, w < weight e) Lc).
  assert (Lc = L1 ++ L2) as HL by (by apply sorted_split_at).
  assert (∀ e, e ∈ L1 → e ∈ Lc) as HL1 by (by intros e [_ ?]%list_elem_of_filter).
  assert (∀ e, e ∈ L2 → e ∈ Lc) as HL2 by (by intros e [_ ?]%list_elem_of_filter).
  rewrite Forall_forall in HLc, Hcand.
  assert (Forall (λ e, is_known e = false) L1) as Hc1
    by (apply Forall_forall; intros; by apply Hcand, HL1).
  assert (Forall (λ e, is_known e = false) L2) as Hc2
    by (apply Forall_forall; intros; by apply Hcand, HL2).
  assert (Forall (valid_edge n) L1) as Hv1
    by (apply Forall_forall; intros; by apply HLc, HL1).
  assert (Forall (valid_edge n) L2) as Hv2
    by (apply Forall_forall; intros; by apply HLc, HL2).
  rewrite HL in HS.
  destruct (Selects_app _ _ _ _ Hc1 HS) as (M1 & M2 & E1 & -> & HS1 & HS2 & Hsub & Heq).
  assert (Forall (valid_pair n) ((ends <$> L1) ++ K)) as Hv1K.
  { apply Forall_app. split; [by apply valid_edges_pairs|done]. }
  assert (Forall (valid_pair n) E1) as HE1.
  { rewrite Forall_forall in Hv1K. apply Forall_forall. intros p Hp. by apply Hv1K, Hsub. }
  pose proof (Selects_components n _ _ _ HE1 Hv2 Hc2 HS2) as Hcount.
  assert (filter (λ e, w < weight e) (M1 ++ M2) = M2) as ->.
  { rewrite filter_app, filter_none, filter_all; [done| |].
    - apply Forall_forall. intros e He.
      pose proof (Selects_sublist _ _ _ HS2) as Hs2.
      apply (elem_of_sublist _ _ _ He) in Hs2.
      apply list_elem_of_filter in Hs2 as [_ Hs2].
      by apply list_elem_of_filter in Hs2 as [? _].
    - apply Forall_forall. intros e He.
      pose proof (Selects_sublist _ _ _ HS1) as Hs1.
      apply (elem_of_sublist _ _ _ He) in Hs1.
      apply list_elem_of_filter in Hs1 as [_ Hs1].
      apply list_elem_of_filter in Hs1 as [? _]. simpl. lia. }
  rewrite (components_proper n ((ends <$> Lc) ++ K) ((ends <$> L2) ++ E1)),
    (components_proper n ((ends <$> L1) ++ K) E1); [done|done|done| | | |].
  - intros i j _ _. symmetry. apply Heq.
  - apply Forall_app. split; [|done]. apply valid_edges_pairs, Forall_forall, HLc.
  - apply Forall_app. split; [by apply valid_edges_pairs|done].
  - intros i j _ _. rewrite (connected_app_proper _ _ _ Heq i j).
    apply connected_perm. rewrite HL at 1. rewrite fmap_app.
    rewrite (comm (++) (ends <$> L1)). by rewrite <-(assoc (++)).
Qed.

(** Edges among the candidates that connect what the candidates connect
    have, above every bound [w], at least as many members as the
    candidates above [w] take components off. *)
Lemma connecting_heavy n K Lc F (w : Z) :
  Forall (valid_pair n) K → Forall (valid_edge n) Lc →
  Forall (λ e, e ∈ Lc) F →
  (∀ i j, 0 ≤ i < n → 0 ≤ j < n →
     connected ((ends <$> Lc) ++ K) i j → connected ((ends <$> F) ++ K) i j) →
  (components n ((ends <$> filter (λ e, (weight e ≤ w)%Z) Lc) ++ K)
   ≤ components n ((ends <$> Lc) ++ K) + length (filter (λ e, (w < weight e)%Z) F))%nat.
Proof.
  intros HK HLc HF Hconn.
  set (F1 := filter (λ e, weight e ≤ w) F). set (F2 := filter (λ e, w < weight e) F).
  set (L1 := filter (λ e, weight e ≤ w) Lc).
  rewrite Forall_forall in HLc, HF.
  assert (∀ l : list Edge, (∀ e, e ∈ l → e ∈ Lc) →
            Forall (valid_pair n) ((ends <$> l) ++ K)) as Hvalid.
  { intros l Hl. apply Forall_app. split; [|done].
    apply valid_edges_pairs, Forall_forall. intros e He. by apply HLc, Hl. }
  assert (∀ e, e ∈ F1 → e ∈ Lc) as HF1
    by (intros e [_ ?]%list_elem_of_filter; by apply HF).
  assert (∀ e, e ∈ F2 → e ∈ Lc) as HF2
    by (intros e [_ ?]%list_elem_of_filter; by apply HF).
  assert (components n ((ends <$> L1) ++ K) ≤ components n ((ends <$> F1) ++ K))%nat as H1.
  { apply components_mono; [apply Hvalid, HF1| |].
    - apply Hvalid. by intros e [_ ?]%list_elem_of_filter.
    - intros i j _ _. apply connected_mono. intros p.
      rewrite !elem_of_app, !list_elem_of_fmap. intros [(e & -> & He)|?]; [|by right].
      left. exists e. split; [done|].
      apply list_elem_of_filter in He as [Hw He]. apply list_elem_of_filter.
      split; [done|by apply HF]. }
  assert (components n ((ends <$> F1) ++ K)
          ≤ components n ((ends <$> F2) ++ (ends <$> F1) ++ K) + length F2)%nat as H2.
  { etrans; [apply (components_app_le n (ends <$> F2))|by rewrite length_fmap].
    - apply valid_edges_pairs, Forall_forall. intros e He. by apply HLc, HF2.
    - apply Hvalid, HF1. }
  assert (components n ((ends <$> F2) ++ (ends <$> F1) ++ K)
          ≤ components n ((ends <$> Lc) ++ K))%nat as H3.
  { apply components_mono; [by apply Hvalid| |].
    - apply Forall_app. split; [|apply Hvalid, HF1].
      apply valid_edges_pairs, Forall_forall. intros e He. by apply HLc, HF2.
    - intros i j Hi Hj Hc. apply (Hconn i j Hi Hj) in Hc.
      eapply connected_mono; [|exact Hc]. intros p.
      rewrite !elem_of_app, !list_elem_of_fmap. intros [(e & -> & He)|?]; [|by right; right].
      destruct (decide (weight e ≤ w)) as [Hw|Hw].
      + right. left. exists e. split; [done|]. by apply list_elem_of_filter.
      + left. exists e. split; [done|]. apply list_elem_of_filter. split; [lia|done]. }
  lia.
Qed.
(** ** Air wires as a graph on coordinates *)

(** Two coordinates are joined by a list of air wires when a chain of
    its wires, each taken in either direction, leads from one to the
    other. *)
Definition joined (W : AirWires) : relation Point := rtsc (λ a b, (a, b) ∈ W).

#[local] Instance joined_equivalence W : Equivalence (joined W).
Proof. unfold joined. apply _. Qed.

Lemma joined_wire W a b : (a, b) ∈ W → joined W a b.
Proof. intros H. by apply rtsc_lr. Qed.

(** A map that sends the two ends of every pair to related values sends
    connected identities to related values. *)
Lemma connected_map {B} (f : Z → B) (R : relation B) `{!Equivalence R} E i j :
  (∀ a b, (a, b) ∈ E → R (f a) (f b)) → connected E i j → R (f i) (f j).
Proof.
  intros HE Hc. induction Hc as [i|i k j [Hik|Hki] _ IH]; [done| |].
  - etrans; [by apply HE|done].
  - etrans; [symmetry; by apply HE|done].
Qed.

(** The points and the known edges of a builder: every end of a known
    edge is one of the points. *)
Lemma make_builder_known_in pts known b :
  make_builder pts known = Some b → Z.of_nat (length pts) < 2 ^ 31 →
  Forall (λ e, p1 e ∈ mPoints b ∧ p2 e ∈ mPoints b) (mEdges b).
Proof.
  unfold make_builder. intros Hb Hlen.
  destruct (add_points_spec pts empty_builder) as (Hwf & _ & Hedges); [|done|].
  { split; [done|]. by intros [|i] v. }
  destruct (add_edges_spec _ _ _ Hb) as (Hp & es & Hes & Hks).
  rewrite Hedges in Hes. simpl in Hes. rewrite Hp, Hes.
  clear Hes Hb. induction Hks as [|k e known es Hk _ IH]; [constructor|].
  constructor; [|done].
  by destruct (known_edge_facts _ _ _ _ Hwf Hk) as (_ & _ & _ & ? & ?).
Qed.

(** Points of a builder with the same coordinates are one point, when no
    two registered points share their coordinates. *)
Lemma to_Point_inj (V : list Vector2) u v :
  NoDup (to_Point <$> V) → u ∈ V → v ∈ V → to_Point u = to_Point v → u = v.
Proof.
  intros Hnd [i Hi]%list_elem_of_lookup [j Hj]%list_elem_of_lookup Huv.
  assert (i = j) as ->; [|congruence].
  apply (NoDup_lookup _ i j (to_Point u) Hnd).
  - by rewrite list_lookup_fmap, Hi.
  - by rewrite list_lookup_fmap, Hj, Huv.
Qed.

(** From identities to coordinates: what a list of edges connects, its
    air wires join. *)
Lemma connected_joined n (V : list Vector2) (F : list Edge) u v :
  wf_points n V → Forall (λ e, p1 e ∈ V ∧ p2 e ∈ V) F →
  u ∈ V → v ∈ V → connected (ends <$> F) (id u) (id v) →
  joined (to_AirWire <$> F) (to_Point u) (to_Point v).
Proof.
  intros [Hlen Hid] HF Hu Hv Hc.
  set (f := λ k : Z, default (mkPoint 0 0) (to_Point <$> V !! Z.to_nat k)).
  assert (∀ w, w ∈ V → f (id w) = to_Point w) as Hf.
  { intros w [k Hk]%list_elem_of_lookup. unfold f.
    by rewrite (Hid _ _ Hk), Nat2Z.id, Hk. }
  rewrite <-(Hf u Hu), <-(Hf v Hv).
  apply (connected_map f (joined (to_AirWire <$> F)) (ends <$> F)); [|done].
  intros a c (e & [= -> ->] & He)%list_elem_of_fmap.
  rewrite Forall_forall in HF. destruct (HF e He) as [H1 H2].
  rewrite (Hf _ H1), (Hf _ H2). apply joined_wire.
  apply list_elem_of_fmap. by exists e.
Qed.

(** From coordinates back to identities, when no two points share their
    coordinates: what the air wires of a list of edges join, the edges
    connect. *)
Lemma joined_connected (V : list Vector2) (F : list Edge) u v :
  NoDup (to_Point <$> V) → Forall (λ e, p1 e ∈ V ∧ p2 e ∈ V) F →
  u ∈ V → v ∈ V → joined (to_AirWire <$> F) (to_Point u) (to_Point v) →
  connected (ends <$> F) (id u) (id v).
Proof.
  intros Hnd HF Hu Hv Hj. rewrite Forall_forall in HF.
  remember (to_Point u) as P eqn:HP. remember (to_Point v) as Q eqn:HQ.
  revert u Hu HP. induction Hj as [P|P P' Q Hstep _ IH]; intros u Hu HP.
  { assert (u = v) as -> by (apply (to_Point_inj V); [done..|congruence]). done. }
  assert (∃ e, e ∈ F ∧
            ((to_Point (p1 e) = P ∧ to_Point (p2 e) = P') ∨
             (to_Point (p1 e) = P' ∧ to_Point (p2 e) = P))) as (e & He & Hends).
  { destruct Hstep as [(e & [= -> ->] & He)%list_elem_of_fmap
                      |(e & [= -> ->] & He)%list_elem_of_fmap];
      exists e; (split; [done|]); [by left|by right]. }
  destruct (HF e He) as [H1 H2].
  assert ((id (p1 e), id (p2 e)) ∈ ends <$> F) as Hin.
  { apply list_elem_of_fmap. by exists e. }
  destruct Hends as [[HeP HeP']|[HeP' HeP]].
  - assert (p1 e = u) as <- by (apply (to_Point_inj V); [done..|congruence]).
    etrans; [by apply connected_edge|]. by apply IH.
  - assert (p2 e = u) as <- by (apply (to_Point_inj V); [done..|congruence]).
    etrans; [symmetry; by apply connected_edge|]. by apply IH.
Qed.

Section Forest.

Variable std_sort : ∀ A : Type, (A → A → bool) → list A → list A.
Variable atan2 : Z → Z → float.
Variable triangulate : list Vector2 → list Edge.

Hypothesis std_sort_ok : std_sort_contract std_sort.
Hypothesis triangulate_ok :
  ∀ pts e, e ∈ triangulate pts → p1 e ∈ pts ∧ p2 e ∈ pts.

Local Abbreviation cands := (candidate_edges std_sort atan2 triangulate).
Local Abbreviation build := (buildAirWires std_sort atan2 triangulate).
Local Abbreviation prepare := (prepare_edges std_sort atan2 triangulate).

(** A run of [buildAirWires], seen as the selection along the candidate
    edges in ascending order of weight, from the known connections. *)
Lemma buildAirWires_selection pts known b :
  make_builder pts known = Some b →
  Z.of_nat (length pts) < 2 ^ 31 → Z.of_nat (length known) < 2 ^ 32 →
  ∃ M Lc,
    (build b).1 = to_AirWire <$> M ∧
    Selects known Lc M ∧
    Lc ≡ₚ weigh <$> cands (mPoints b) ∧
    StronglySorted (λ e1 e2, weight e1 ≤ weight e2) Lc ∧
    Forall (valid_pair (Z.of_nat (length pts))) known ∧
    Forall (valid_edge (Z.of_nat (length pts))) Lc ∧
    Forall (λ e, is_known e = false) Lc ∧
    Forall (λ e, weight e = dist2 (p1 e) (p2 e) ∧ p1 e ∈ mPoints b ∧ p2 e ∈ mPoints b) Lc.
Proof.
  intros Hb Hn Hknown.
  destruct (buildAirWires_summary std_sort atan2 triangulate std_sort_ok triangulate_ok
              pts known b Hb Hn Hknown) as (M & Hres & HS & _).
  apply (selection_from_known std_sort atan2 triangulate std_sort_ok
           pts known b M Hb Hn Hknown) in HS.
  destruct (candidates_of_order std_sort atan2 triangulate std_sort_ok
              pts known b Hb Hn Hknown) as [Hperm Hsorted].
  destruct (make_builder_spec pts known b Hb Hn) as (Hwf & _ & Hends & Hvalid & _).
  eexists M, _. split; [done|]. split; [exact HS|]. split; [done|]. split; [done|].
  assert (∀ e, e ∈ weigh <$> cands (mPoints b) →
            valid_edge (Z.of_nat (length pts)) e ∧ is_known e = false ∧
            weight e = dist2 (p1 e) (p2 e) ∧ p1 e ∈ mPoints b ∧ p2 e ∈ mPoints b) as Hc.
  { intros e (e0 & -> & He0)%list_elem_of_fmap.
    destruct (weigh_facts e0) as (Hends0 & -> & -> & -> & ->).
    pose proof (candidate_edges_valid std_sort atan2 triangulate std_sort_ok
                  triangulate_ok _ _ Hwf) as Hv.
    rewrite Forall_forall in Hv. specialize (Hv e0 He0).
    destruct (candidate_edges_in std_sort atan2 triangulate std_sort_ok triangulate_ok
                _ _ He0) as [? ?].
    split; [|done]. unfold valid_edge. by rewrite (weigh_facts e0).1 || done. }
  split.
  { rewrite <-Hends. by apply valid_edges_pairs. }
  split; [|split]; apply Forall_forall; intros e He; rewrite Hperm in He;
    by destruct (Hc e He) as (? & ? & ? & ? & ?).
Qed.

(** X1. For every input, connected by its candidates or not, the number
    of air wires is the number of components under the known connections
    less the number of components under the known connections and the
    candidate edges together; it is never more than [n - 1]. *)
Theorem air_wire_count_by_components pts known b :
  make_builder pts known = Some b →
  Z.of_nat (length pts) < 2 ^ 31 → Z.of_nat (length known) < 2 ^ 32 →
  (length (build b).1 +
     components (Z.of_nat (length pts)) (known ++ (ends <$> cands (mPoints b)))
   = components (Z.of_nat (length pts)) known)%nat ∧
  (length (build b).1 ≤ length pts - 1)%nat.
Proof.
  intros Hb Hn Hknown.
  destruct (buildAirWires_selection pts known b Hb Hn Hknown)
    as (M & Lc & -> & HS & Hperm & _ & Hvk & Hvc & Hcand & _).
  pose proof (Selects_components _ _ _ _ Hvk Hvc Hcand HS) as Hcount.
  assert (Forall (valid_pair (Z.of_nat (length pts))) ((ends <$> Lc) ++ known)) as Hall.
  { apply Forall_app. split; [by apply valid_edges_pairs|done]. }
  assert (ends <$> Lc ≡ₚ ends <$> cands (mPoints b)) as Hends.
  { by rewrite Hperm, ends_weigh. }
  rewrite length_fmap.
  rewrite (components_proper _ (known ++ (ends <$> cands (mPoints b)))
             ((ends <$> Lc) ++ known)).
  - split; [done|].
    destruct (decide (length pts = 0%nat)) as [Hz|Hnz].
    + rewrite Hz in *. unfold components in Hcount. simpl in Hcount. lia.
    + assert (0 < Z.of_nat (length pts)) as Hpos by lia.
      pose proof (components_pos _ _ Hpos Hall).
      pose proof (components_le (Z.of_nat (length pts)) known ltac:(lia)). lia.
  - by rewrite <-Hends, (comm (++)).
  - done.
  - intros i j _ _. apply connected_perm. by rewrite <-Hends, (comm (++)).
Qed.

(** X2. When the known connections connect all points already, there is
    no air wire. *)
Theorem no_air_wires_when_connected pts known b :
  make_builder pts known = Some b →
  Z.of_nat (length pts) < 2 ^ 31 → Z.of_nat (length known) < 2 ^ 32 →
  (∀ i j, 0 ≤ i < Z.of_nat (length pts) → 0 ≤ j < Z.of_nat (length pts) →
     connected known i j) →
  (build b).1 = [].
Proof.
  intros Hb Hn Hknown Hall.
  destruct (buildAirWires_selection pts known b Hb Hn Hknown)
    as (M & Lc & -> & HS & _ & _ & _ & Hvc & _).
  by rewrite (Selects_det _ _ _ _ HS (Selects_all_connected _ _ _ Hall Hvc)).
Qed.

(** X3. The air wires never close a cycle.  In identities: each edge the
    loop emits has two different ends that neither the known connections
    nor the edges emitted before it connect.  In coordinates, when no
    two registered points share theirs: the two ends of an air wire are
    different, and the known connections and the air wires before it in
    the list do not join them. *)
Theorem air_wires_form_forest pts known b :
  make_builder pts known = Some b →
  Z.of_nat (length pts) < 2 ^ 31 → Z.of_nat (length known) < 2 ^ 32 →
  (∃ M, (build b).1 = to_AirWire <$> M ∧
     Selects [] (reverse (std_sort Edge by_weight_desc (mEdges (prepare b)))) M ∧
     ∀ M1 e M2, M = M1 ++ e :: M2 →
       id (p1 e) ≠ id (p2 e) ∧
       ¬ connected (known ++ (ends <$> M1)) (id (p1 e)) (id (p2 e))) ∧
  (NoDup (stored <$> pts) →
   ∀ W1 w W2, (build b).1 = W1 ++ w :: W2 →
     w.1 ≠ w.2 ∧ ¬ joined ((to_AirWire <$> mEdges b) ++ W1) w.1 w.2).
Proof.
  intros Hb Hn Hknown.
  destruct (buildAirWires_summary std_sort atan2 triangulate std_sort_ok triangulate_ok
              pts known b Hb Hn Hknown) as (M & Hres & HS0 & HMc & _).
  pose proof (selection_from_known std_sort atan2 triangulate std_sort_ok
                pts known b M Hb Hn Hknown HS0) as HS.
  assert (Forall (λ e, is_known e = false)
            (filter (λ e, is_known e = false)
               (reverse (std_sort Edge by_weight_desc (mEdges (prepare b)))))) as Hcand.
  { apply Forall_forall. by intros e [? _]%list_elem_of_filter. }
  assert (∀ M1 e M2, M = M1 ++ e :: M2 →
            ¬ connected (known ++ (ends <$> M1)) (id (p1 e)) (id (p2 e))) as Hforest.
  { intros M1 e M2 HM Hc.
    apply (Selects_forest _ _ _ _ _ _ Hcand HS HM).
    eapply connected_perm; [|exact Hc]. by rewrite (comm (++)). }
  split.
  { exists M. split; [done|]. split; [done|]. intros M1 e M2 HM.
    split; [|by eapply Hforest]. intros Heq. apply (Hforest M1 e M2 HM). by rewrite Heq. }
  intros Hnd W1 w W2 HW. rewrite Hres in HW.
  apply fmap_app_inv in HW as (M1 & M' & -> & HW & ->).
  symmetry in HW. apply fmap_cons_inv in HW as (e & M2 & -> & -> & ->).
  destruct (make_builder_spec pts known b Hb Hn) as (Hwf & Hpts & Hends & _).
  pose proof (make_builder_known_in pts known b Hb Hn) as Hkin.
  assert (Forall (λ e, p1 e ∈ mPoints b ∧ p2 e ∈ mPoints b) (mEdges b ++ M1)) as HF.
  { apply Forall_app. split; [done|]. apply Forall_forall. intros e' He'.
    assert (e' ∈ weigh <$> cands (mPoints b)) as (e0 & -> & He0)%list_elem_of_fmap.
    { apply HMc. apply elem_of_app. by left. }
    destruct (weigh_facts e0) as (_ & -> & -> & _).
    by apply (candidate_edges_in std_sort atan2 triangulate std_sort_ok triangulate_ok). }
  assert (p1 e ∈ mPoints b ∧ p2 e ∈ mPoints b) as [H1 H2].
  { assert (e ∈ weigh <$> cands (mPoints b)) as (e0 & -> & He0)%list_elem_of_fmap.
    { apply HMc. apply elem_of_app. right. by left. }
    destruct (weigh_facts e0) as (_ & -> & -> & _).
    by apply (candidate_edges_in std_sort atan2 triangulate std_sort_ok triangulate_ok). }
  rewrite <-Hpts in Hnd.
  assert (joined ((to_AirWire <$> mEdges b) ++ (to_AirWire <$> M1))
            (to_Point (p1 e)) (to_Point (p2 e)) → False) as Hno.
  { rewrite <-fmap_app. intros Hj.
    apply (joined_connected (mPoints b)) in Hj; [|done..].
    rewrite fmap_app, Hends in Hj. by apply (Hforest M1 e M2). }
  split; [|exact Hno]. simpl. intros Heq. apply Hno. by rewrite Heq.
Qed.

(** X4. The air wires come in ascending order of their squared length. *)
Theorem air_wires_ascending pts known b :
  make_builder pts known = Some b →
  Z.of_nat (length pts) < 2 ^ 31 → Z.of_nat (length known) < 2 ^ 32 →
  StronglySorted (λ w1 w2, length2 w1 ≤ length2 w2) (build b).1.
Proof.
  intros Hb Hn Hknown.
  destruct (buildAirWires_selection pts known b Hb Hn Hknown)
    as (M & Lc & -> & HS & _ & Hsorted & _ & _ & Hcand & Hw).
  assert (sublist M Lc) as Hsub.
  { pose proof (Selects_sublist _ _ _ HS) as Hsub. by rewrite filter_all in Hsub. }
  apply (StronglySorted_sublist _ _ _ Hsub) in Hsorted.
  assert (Forall (λ e, weight e = length2 (to_AirWire e)) M) as HwM.
  { apply Forall_forall. intros e He. rewrite Forall_forall in Hw.
    by destruct (Hw e (elem_of_sublist _ _ _ He Hsub)) as [-> _]. }
  clear -HwM Hsorted. induction Hsorted as [|e M HM IH He]; [constructor|].
  apply Forall_cons in HwM as [Hwe HwM]. rewrite fmap_cons.
  constructor; [by apply IH|].
  rewrite Forall_forall in He, HwM. apply Forall_fmap, Forall_forall. intros e' He'.
  simpl. rewrite <-Hwe, <-(HwM e' He'). by apply He.
Qed.

(** X5. Every air wire joins the stored coordinates of two registered
    points with different identities. *)
Theorem air_wire_ends_registered pts known b w :
  make_builder pts known = Some b →
  Z.of_nat (length pts) < 2 ^ 31 → Z.of_nat (length known) < 2 ^ 32 →
  w ∈ (build b).1 →
  ∃ (i j : nat) p q, i ≠ j ∧ pts !! i = Some p ∧ pts !! j = Some q ∧
    w = (stored p, stored q).
Proof.
  intros Hb Hn Hknown Hw.
  destruct (buildAirWires_selection pts known b Hb Hn Hknown)
    as (M & Lc & Hres & HS & _ & _ & _ & _ & Hcand & Hin).
  rewrite Hres in Hw. apply list_elem_of_fmap in Hw as (e & -> & He).
  apply list_elem_of_split in He as (M1 & M2 & HM).
  pose proof (Selects_forest _ _ _ _ _ _ Hcand HS HM) as Hnc.
  assert (e ∈ Lc) as HeL.
  { pose proof (Selects_sublist _ _ _ HS) as Hsub. rewrite filter_all in Hsub by done.
    eapply elem_of_sublist; [|exact Hsub]. rewrite HM. apply elem_of_app. right. by left. }
  rewrite Forall_forall in Hin. destruct (Hin e HeL) as (_ & H1 & H2).
  destruct (make_builder_spec pts known b Hb Hn) as ([_ Hid] & Hpts & _).
  apply list_elem_of_lookup in H1 as [i Hi]. apply list_elem_of_lookup in H2 as [j Hj].
  assert (∀ k v, mPoints b !! k = Some v → ∃ p, pts !! k = Some p ∧ to_Point v = stored p)
    as Hstored.
  { intros k v Hk.
    assert ((stored <$> pts) !! k = Some (to_Point v)) as Hp
      by (by rewrite <-Hpts, list_lookup_fmap, Hk).
    rewrite list_lookup_fmap in Hp.
    destruct (pts !! k) as [p|]; simplify_eq/=. by exists p. }
  destruct (Hstored i _ Hi) as (p & Hp & Hp1). destruct (Hstored j _ Hj) as (q & Hq & Hq1).
  exists i, j, p, q. split; [|split; [done|split; [done|]]].
  - intros ->. apply Hnc. rewrite (Hid _ _ Hi), (Hid _ _ Hj). done.
  - unfold to_AirWire. by rewrite Hp1, Hq1.
Qed.

(** X6. The air wires are a cheapest way to connect what the candidate
    edges can connect.  For any list [F] of candidate edges that,
    together with the known connections, connects whatever all the
    candidates connect: above every bound the air wires have no more
    members than [F], and the squared lengths of the air wires sum up to
    no more than the weights of [F]. *)
Theorem air_wires_minimal pts known b F :
  make_builder pts known = Some b →
  Z.of_nat (length pts) < 2 ^ 31 → Z.of_nat (length known) < 2 ^ 32 →
  Forall (λ e, e ∈ weigh <$> cands (mPoints b)) F →
  (∀ i j, 0 ≤ i < Z.of_nat (length pts) → 0 ≤ j < Z.of_nat (length pts) →
     connected (known ++ (ends <$> cands (mPoints b))) i j →
     connected (known ++ (ends <$> F)) i j) →
  (∀ w : Z, (length (filter (λ a, (w < length2 a)%Z) (build b).1)
             ≤ length (filter (λ e, (w < weight e)%Z) F))%nat) ∧
  total_length2 (build b).1 ≤ total_weight F.
Proof.
  intros Hb Hn Hknown HF Hconn.
  destruct (buildAirWires_selection pts known b Hb Hn Hknown)
    as (M & Lc & -> & HS & Hperm & Hsorted & Hvk & Hvc & Hcand & Hw).
  assert (sublist M Lc) as Hsub.
  { pose proof (Selects_sublist _ _ _ HS) as Hsub. by rewrite filter_all in Hsub. }
  assert (Forall (λ e, length2 (to_AirWire e) = weight e) M) as HwM.
  { apply Forall_forall. intros e He. rewrite Forall_forall in Hw.
    by destruct (Hw e (elem_of_sublist _ _ _ He Hsub)) as [-> _]. }
  assert (Forall (λ e, e ∈ Lc) F) as HF'.
  { eapply Forall_impl; [exact HF|]. intros e He. simpl. by rewrite Hperm. }
  assert (∀ w : Z, (length (filter (λ e, (w < weight e)%Z) M)
                    ≤ length (filter (λ e, (w < weight e)%Z) F))%nat) as Hdom.
  { intros w.
    pose proof (Selects_heavy _ _ _ _ w Hvk Hvc Hcand Hsorted HS) as Hheavy.
    pose proof (connecting_heavy (Z.of_nat (length pts)) known Lc F w Hvk Hvc HF')
      as Hbound.
    assert (components (Z.of_nat (length pts))
              ((ends <$> filter (λ e : Edge, (weight e ≤ w)%Z) Lc) ++ known)
            ≤ components (Z.of_nat (length pts)) ((ends <$> Lc) ++ known) +
              length (filter (λ e : Edge, (w < weight e)%Z) F))%nat; [|lia].
    apply Hbound. intros i j Hi Hj Hc.
    eapply connected_perm; [apply (comm (++))|]. apply (Hconn i j Hi Hj).
    eapply connected_perm; [|exact Hc]. by rewrite Hperm, ends_weigh, (comm (++)). }
  split.
  - intros w. etrans; [|apply (Hdom w)]. apply Nat.eq_le_incl.
    apply filter_length_fmap.
    eapply Forall_impl; [exact HwM|]. intros e He. simpl in *. by rewrite He.
  - unfold total_length2, total_weight. rewrite (Zsum_fmap _ _ weight) by done.
    rewrite <-(Zsum_perm weight _ _ (reverse_Permutation M)).
    apply heavier_sum.
    + apply (StronglySorted_sublist _ _ _ Hsub) in Hsorted.
      by apply StronglySorted_reverse in Hsorted.
    + eapply Forall_impl; [exact HF'|]. intros e He. simpl.
      rewrite Forall_forall in Hw. destruct (Hw e He) as [-> _]. apply dist2_nonneg.
    + intros w. by rewrite filter_reverse, length_reverse.
Qed.

(** X7. In the colinear branch, without known connections, every
    candidate becomes an air wire: the air wires are the pairs of
    neighbours in the list [std::sort] makes of the points by their [x],
    which is a rearrangement of the points in ascending order of [x]. *)
Theorem colinear_air_wires pts b :
  make_builder pts [] = Some b →
  Z.of_nat (length pts) < 2 ^ 31 → (3 ≤ length pts)%nat →
  arePointsColinear atan2 (mPoints b) = true →
  (build b).1 ≡ₚ to_AirWire <$> consecutive_edges (std_sort Vector2 by_x (mPoints b)) ∧
  std_sort Vector2 by_x (mPoints b) ≡ₚ mPoints b ∧
  StronglySorted (λ v1 v2, x v1 ≤ x v2) (std_sort Vector2 by_x (mPoints b)).
Proof.
  intros Hb Hn Hlen Hcol.
  destruct (std_sort_ok Vector2 by_x by_x_swo (mPoints b)) as [Hpermx Hsortedx].
  split; [|split; [done|]].
  2:{ eapply StronglySorted_fmap with (f := λ v, v) in Hsortedx.
      - by rewrite list_fmap_id in Hsortedx.
      - intros v1 v2. unfold by_x. simpl. lia. }
  destruct (buildAirWires_selection pts [] b Hb Hn)
    as (M & Lc & -> & HS & Hperm & _ & Hvk & Hvc & Hcand & _); [simpl; lia|].
  destruct (make_builder_spec pts [] b Hb Hn) as (Hwf & _).
  pose proof Hwf as [Hlenb _].
  assert (cands (mPoints b) = consecutive_edges (std_sort Vector2 by_x (mPoints b))) as Hc.
  { unfold candidate_edges. rewrite Hcol.
    destruct (Nat.leb_spec (length (mPoints b)) 1); [lia|].
    destruct (Nat.eqb_spec (length (mPoints b)) 2); [lia|done]. }
  pose proof (Selects_components _ _ _ _ Hvk Hvc Hcand HS) as Hcount.
  rewrite components_nil in Hcount by lia.
  rewrite (components_all_connected _ ((ends <$> Lc) ++ [])) in Hcount; [|lia| |].
  - assert (M ≡ₚ Lc) as HM.
    { apply submseteq_length_Permutation.
      - pose proof (Selects_sublist _ _ _ HS) as Hsub. rewrite filter_all in Hsub by done.
        by apply sublist_submseteq.
      - rewrite Hperm, length_fmap, Hc, consecutive_edges_length.
        rewrite (Permutation_length Hpermx). lia. }
    by rewrite HM, Hperm, to_AirWire_weigh, Hc.
  - rewrite app_nil_r. by apply valid_edges_pairs.
  - intros i j Hi Hj. rewrite app_nil_r.
    eapply connected_perm; [by rewrite Hperm, ends_weigh|].
    eapply candidate_edges_connect; [done..|]. by right.
Qed.

(** X9. Adding known connections never increases the number of air
    wires. *)
Theorem more_known_fewer_air_wires pts known extra b b' :
  make_builder pts known = Some b →
  make_builder pts (known ++ extra) = Some b' →
  Z.of_nat (length pts) < 2 ^ 31 → Z.of_nat (length (known ++ extra)) < 2 ^ 32 →
  (length (build b').1 ≤ length (build b).1)%nat.
Proof.
  intros Hb Hb' Hn Hknown'.
  assert (Z.of_nat (length known) < 2 ^ 32) as Hknown.
  { rewrite length_app in Hknown'. lia. }
  assert (mPoints b' = mPoints b) as Hpts.
  { by rewrite (make_builder_points _ _ _ Hb), (make_builder_points _ _ _ Hb'). }
  destruct (buildAirWires_selection pts known b Hb Hn Hknown)
    as (M & Lc & -> & HS & Hperm & _ & Hvk & Hvc & Hcand & _).
  destruct (buildAirWires_selection pts _ b' Hb' Hn Hknown')
    as (M' & Lc' & -> & HS' & Hperm' & _ & Hvk' & Hvc' & Hcand' & _).
  rewrite Hpts in Hperm'. rewrite !length_fmap.
  pose proof (Selects_components _ _ _ _ Hvk Hvc Hcand HS) as Hcount.
  pose proof (Selects_components _ _ _ _ Hvk' Hvc' Hcand' HS') as Hcount'.
  apply Forall_app in Hvk' as [_ Hvx].
  assert (Forall (valid_pair (Z.of_nat (length pts))) (ends <$> Lc)) as HvC
    by (by apply valid_edges_pairs).
  pose proof (components_gain_mono _ extra known (ends <$> Lc) Hvx Hvk HvC) as Hgain.
  rewrite (components_perm _ ((ends <$> Lc) ++ known) (known ++ (ends <$> Lc)))
    in Hcount; [| by apply Forall_app | by rewrite (comm (++))].
  rewrite (components_perm _ ((ends <$> Lc') ++ known ++ extra)
             (extra ++ known ++ (ends <$> Lc))) in Hcount'.
  - rewrite (components_perm _ (known ++ extra) (extra ++ known)) in Hcount';
      [lia| by apply Forall_app | by rewrite (comm (++))].
  - apply Forall_app. split; [by apply valid_edges_pairs|by apply Forall_app].
  - rewrite Hperm', <-Hperm. rewrite (comm (++) known extra).
    rewrite (comm (++) (ends <$> Lc)). by rewrite <-(assoc (++)).
Qed.

(** X22. Without known connections, for at most two points, for points
    that [arePointsColinear] accepts, and for points that the edges of
    the triangulation connect, [buildAirWires] returns [max 0 (n - 1)]
    air wires, and these join the coordinates of every registered point
    with those of every other.  Two points, coincident or not, get the
    one air wire between them. *)
Theorem air_wires_span_points pts b :
  make_builder pts [] = Some b →
  Z.of_nat (length pts) < 2 ^ 31 →
  ((length pts ≤ 2)%nat ∨ arePointsColinear atan2 (mPoints b) = true ∨
   ∀ i j, 0 ≤ i < Z.of_nat (length pts) → 0 ≤ j < Z.of_nat (length pts) →
     connected (ends <$> triangulate (mPoints b)) i j) →
  Z.of_nat (length (build b).1) = Z.max 0 (Z.of_nat (length pts) - 1) ∧
  (∀ p q, p ∈ pts → q ∈ pts → joined (build b).1 (stored p) (stored q)) ∧
  (∀ p q, pts = [p; q] → (build b).1 = [(stored p, stored q)]).
Proof.
  intros Hb Hn Hbranch.
  destruct (buildAirWires_summary std_sort atan2 triangulate std_sort_ok triangulate_ok
              pts [] b Hb Hn)
    as (M & Hres & _ & Hcands & Hcount & _ & Hconn); [simpl; lia|].
  destruct (make_builder_spec pts [] b Hb Hn) as (Hwf & Hpts & _).
  pose proof Hwf as [Hlen Hid].
  assert (∀ i j, 0 ≤ i < Z.of_nat (length pts) → 0 ≤ j < Z.of_nat (length pts) →
            connected ([] ++ (ends <$> cands (mPoints b))) i j) as Hall.
  { intros i j Hi Hj. simpl.
    destruct (decide (length pts ≤ 2)%nat) as [Hle|Hgt].
    { eapply (candidate_edges_connect std_sort atan2 triangulate std_sort_ok);
        [done..|]. left. lia. }
    destruct (arePointsColinear atan2 (mPoints b)) eqn:Hcol.
    { eapply (candidate_edges_connect std_sort atan2 triangulate std_sort_ok);
        [done..|]. by right. }
    rewrite candidate_edges_triangulate by (done || lia).
    destruct Hbranch as [?|[?|Htri]]; [lia|done|]. by apply Htri. }
  assert (length M = length pts - 1)%nat as HlenM.
  { destruct (decide (length pts = 0%nat)) as [Hz|Hnz].
    - rewrite Hz in *. specialize (Hcount 0%nat 0%nat (class_count_zero _)
        (class_count_zero _)). lia.
    - specialize (Hcount _ 1%nat (class_count_discrete _)).
      rewrite Nat2Z.id in Hcount. rewrite <-Hcount; [lia|].
      apply class_count_all_connected; [lia|done]. }
  assert (Forall (λ e, p1 e ∈ mPoints b ∧ p2 e ∈ mPoints b) M) as HM.
  { apply Forall_forall. intros e He. apply Hcands in He.
    apply list_elem_of_fmap in He as (e0 & -> & He0).
    destruct (weigh_facts e0) as (_ & -> & -> & _).
    by apply (candidate_edges_in std_sort atan2 triangulate std_sort_ok triangulate_ok). }
  rewrite Hres, length_fmap. split; [lia|]. split.
  - intros p q [i Hi]%list_elem_of_lookup [j Hj]%list_elem_of_lookup.
    assert (∀ k r, pts !! k = Some r →
              ∃ v, mPoints b !! k = Some v ∧ to_Point v = stored r) as Hstored.
    { intros k r Hk.
      assert ((to_Point <$> mPoints b) !! k = Some (stored r)) as Hv
        by (by rewrite Hpts, list_lookup_fmap, Hk).
      rewrite list_lookup_fmap in Hv.
      destruct (mPoints b !! k) as [v|]; simplify_eq/=. by exists v. }
    destruct (Hstored i p Hi) as (u & Hu & <-). destruct (Hstored j q Hj) as (v & Hv & <-).
    apply (connected_joined (Z.of_nat (length pts)) (mPoints b)); [done|done|..].
    + by eapply list_elem_of_lookup_2.
    + by eapply list_elem_of_lookup_2.
    + rewrite (Hid _ _ Hu), (Hid _ _ Hv).
      apply lookup_lt_Some in Hi, Hj.
      apply (Hconn (Z.of_nat i) (Z.of_nat j)); [lia|lia|].
      apply Hall; lia.
  - intros p q ->. simpl in HlenM.
    destruct (mPoints b) as [|v0 [|v1 [|v2 vs]]] eqn:Hmp; simplify_eq/=.
    destruct M as [|e [|e' M]]; simplify_eq/=.
    assert (e ∈ [e]) as He by left. specialize (Hcands e He).
    apply list_elem_of_singleton in Hcands as ->.
    unfold to_AirWire, weigh, set_weight. simpl. by rewrite H, H0.
Qed.

End Forest.

(** X8. The verdict of [arePointsColinear] depends on the first point,
    the second point and the points more than 1000 nm away from the
    first: neither the other points nor the order of the points after the
    second matter. *)
Theorem arePointsColinear_far_points atan2 pp0 pp1 rest rest' :
  filter (λ p, far_enough pp0 p = true) rest ≡ₚ
    filter (λ p, far_enough pp0 p = true) rest' →
  arePointsColinear atan2 (pp0 :: pp1 :: rest) =
  arePointsColinear atan2 (pp0 :: pp1 :: rest').
Proof.
  intros Hperm. rewrite !arePointsColinear_loop.
  rewrite (colinear_loop_far atan2 _ pp0 rest), (colinear_loop_far atan2 _ pp0 rest').
  by apply colinear_loop_perm.
Qed.

(** ** The GNU [std::sort] on short ranges

    On at most 16 elements [std::sort] of the GNU C++ library is its
    insertion sort alone, and that is the insertion sort above. *)

Section GnuShort.
Context {A : Type} (comp : A → A → bool).
Hypothesis comp_swo : StrictWeakOrder comp.

Lemma linear_insert_front val (acc : list A) :
  Forall (λ a, comp val a = true) acc → linear_insert comp val acc = acc ++ [val].
Proof.
  induction 1 as [|prev acc Hprev _ IH]; simpl; [done|]. by rewrite Hprev, IH.
Qed.

(** The unguarded loop on the sorted front of the array, kept as [acc]
    with its last element first, some element of which stops it. *)
Lemma linear_insert_loop_spec val (acc : list A) old post :
  Exists (λ a, comp val a = false) acc →
  GnuSort.linear_insert_loop comp val (reverse acc ++ old :: post) (length acc)
  = reverse (linear_insert comp val acc) ++ post.
Proof.
  revert old post. induction acc as [|prev acc IH]; intros old post Hstop.
  { by apply Exists_nil in Hstop. }
  simpl. rewrite reverse_cons, <-(assoc_L (++)). simpl.
  assert ((reverse acc ++ prev :: old :: post) !! length acc = Some prev) as ->.
  { apply list_lookup_middle. by rewrite length_reverse. }
  destruct (comp val prev) eqn:Hvp.
  - apply Exists_cons in Hstop as [Hstop|Hstop]; [congruence|].
    assert (<[S (length acc) := prev]> (reverse acc ++ prev :: old :: post)
            = reverse acc ++ prev :: prev :: post) as ->.
    { rewrite insert_app_r_alt by (rewrite length_reverse; lia).
      rewrite length_reverse. by replace (S (length acc) - length acc)%nat with 1%nat by lia. }
    rewrite (IH prev (prev :: post) Hstop).
    by rewrite reverse_cons, <-(assoc_L (++)).
  - assert (<[S (length acc) := val]> (reverse acc ++ prev :: old :: post)
            = reverse acc ++ prev :: val :: post) as ->.
    { rewrite insert_app_r_alt by (rewrite length_reverse; lia).
      rewrite length_reverse. by replace (S (length acc) - length acc)%nat with 1%nat by lia. }
    by rewrite !reverse_cons, <-!(assoc_L (++)).
Qed.

(** One round of [__insertion_sort] on the array whose sorted front is
    [acc] read backwards. *)
Lemma insertion_sort_step_spec val (acc : list A) post :
  acc ≠ [] → StronglySorted (λ a b, comp a b = false) acc →
  GnuSort.insertion_sort_step comp 0 (reverse acc ++ val :: post) (length acc)
  = reverse (linear_insert comp val acc) ++ post.
Proof.
  intros Hne Hsorted.
  destruct (reverse acc) as [|f r] eqn:Hrev.
  { apply (f_equal reverse) in Hrev. by rewrite reverse_involutive in Hrev. }
  assert (acc = reverse r ++ [f]) as Hacc.
  { by rewrite <-(reverse_involutive acc), Hrev, reverse_cons. }
  assert (length acc = S (length r)) as Hlen.
  { by rewrite <-(length_reverse acc), Hrev. }
  unfold GnuSort.insertion_sort_step, GnuSort.comp_iter.
  assert (((f :: r) ++ val :: post) !! length acc = Some val) as Hval.
  { apply list_lookup_middle. by rewrite Hlen. }
  rewrite Hval. cbn [lookup list_lookup app].
  destruct (comp val f) eqn:Hvf.
  - assert (Forall (λ a, comp val a = true) acc) as Hall.
    { apply Forall_forall. intros a Ha. rewrite Hacc in Ha, Hsorted.
      apply elem_of_app in Ha as [Ha| ->%list_elem_of_singleton]; [|done].
      assert (comp a f = false) as Haf.
      { apply (StronglySorted_app_1_elem_of _ _ _ _ _ Hsorted Ha). by left. }
      destruct (comp val a) eqn:Hva; [done|].
      by rewrite (swo_neg_trans comp comp_swo val a f Hva Haf) in Hvf. }
    rewrite (linear_insert_front val acc Hall), reverse_app, Hrev. simpl.
    unfold GnuSort.move_backward. simpl. rewrite Nat.sub_0_r.
    rewrite Hlen. f_equal.
    assert (drop (S (length r)) (r ++ val :: post) = post) as ->.
    { rewrite (cons_middle val r post), (assoc_L (++)).
      rewrite drop_app_length'; [done|]. rewrite length_app. simpl. lia. }
    simpl. by rewrite take_app_length.
  - change (f :: r ++ val :: post) with ((f :: r) ++ val :: post).
    unfold GnuSort.unguarded_linear_insert. rewrite Hval. rewrite <-Hrev.
    apply linear_insert_loop_spec. apply Exists_exists. exists f. split; [|done].
    rewrite Hacc. apply elem_of_app. right. by left.
Qed.

Lemma insertion_sort_rounds (acc post : list A) :
  acc ≠ [] → StronglySorted (λ a b, comp a b = false) acc →
  foldl (GnuSort.insertion_sort_step comp 0) (reverse acc ++ post)
    (seq (length acc) (length post))
  = reverse (foldl (λ acc val, linear_insert comp val acc) acc post).
Proof.
  revert acc. induction post as [|val post IH]; intros acc Hne Hsorted; simpl.
  { by rewrite app_nil_r. }
  rewrite insertion_sort_step_spec by done.
  assert (length (linear_insert comp val acc) = S (length acc)) as Hlen.
  { by rewrite (Permutation_length (linear_insert_perm comp val acc)). }
  rewrite <-Hlen. apply IH.
  - intros Hnil. by rewrite Hnil in Hlen.
  - by apply linear_insert_sorted.
Qed.

(** On at most 16 elements the GNU [std::sort] is the insertion sort. *)
Lemma gnu_sort_short (l : list A) :
  (length l ≤ 16)%nat → gnu_sort A comp l = insertion_sort A comp l.
Proof.
  intros Hlen. unfold gnu_sort, GnuSort.sort, insertion_sort.
  destruct l as [|a post]; [done|]. simpl in Hlen.
  assert (∀ d, GnuSort.introsort_loop comp d (a :: post) 0 (length (a :: post))
               = a :: post) as ->.
  { intros d.
    destruct d; simpl; (destruct (Nat.ltb_spec GnuSort.S_threshold (S (length post)));
      [unfold GnuSort.S_threshold in *; lia|done]). }
  unfold GnuSort.final_insertion_sort.
  destruct (Nat.ltb_spec GnuSort.S_threshold (length (a :: post) - 0)) as [Hgt|_].
  { unfold GnuSort.S_threshold in *. simpl in Hgt. lia. }
  unfold GnuSort.insertion_sort. simpl. rewrite Nat.sub_0_r.
  apply (insertion_sort_rounds [a] post); [done|]. repeat constructor.
Qed.

(** The insertion sort keeps elements in their order when none of them
    has to precede another. *)
Lemma linear_insert_filter (P : A → Prop) `{!∀ a, Decision (P a)} val (acc : list A) :
  (∀ a b, P a → P b → comp a b = false) →
  filter P (linear_insert comp val acc) = filter P (val :: acc).
Proof.
  intros HP. induction acc as [|prev acc IH]; simpl; [done|].
  destruct (comp val prev) eqn:Hvp; [|done].
  rewrite (filter_cons P prev), IH, !(filter_cons P val), (filter_cons P prev).
  destruct (decide (P val)) as [Hval|Hval]; [|done].
  destruct (decide (P prev)) as [Hprev|Hprev]; [|done].
  by rewrite (HP val prev Hval Hprev) in Hvp.
Qed.

Lemma insertion_sort_stable (P : A → Prop) `{!∀ a, Decision (P a)} (l : list A) :
  (∀ a b, P a → P b → comp a b = false) →
  filter P (insertion_sort A comp l) = filter P l.
Proof.
  intros HP. unfold insertion_sort.
  assert (∀ acc, filter P (foldl (λ acc val, linear_insert comp val acc) acc l)
                 = reverse (filter P l) ++ filter P acc) as Hfold.
  { induction l as [|val l IH]; intros acc; simpl; [done|].
    rewrite IH, linear_insert_filter by done. rewrite !(filter_cons P val).
    destruct (decide (P val)); [|done].
    by rewrite reverse_cons, <-(assoc_L (++)). }
  by rewrite filter_reverse, Hfold, filter_nil, app_nil_r, reverse_involutive.
Qed.

End GnuShort.

(** X23. With [std::sort] of the GNU C++ library, [buildAirWires] on at
    most 16 points and at most 16 edges, known and candidate, is
    [buildAirWires] with the insertion sort.  The loop of [kruskalMst]
    then takes the edges in ascending order of weight, and edges of equal
    weight in the reverse of the order they were added to [mEdges] in. *)
Theorem buildAirWires_short atan2 triangulate b :
  (length (mPoints b) ≤ 16)%nat →
  (length (mEdges (prepare_edges gnu_sort atan2 triangulate b)) ≤ 16)%nat →
  buildAirWires gnu_sort atan2 triangulate b
    = buildAirWires insertion_sort atan2 triangulate b ∧
  reverse (gnu_sort Edge by_weight_desc
             (mEdges (prepare_edges gnu_sort atan2 triangulate b)))
    ≡ₚ mEdges (prepare_edges gnu_sort atan2 triangulate b) ∧
  StronglySorted (λ e1 e2, weight e1 ≤ weight e2)
    (reverse (gnu_sort Edge by_weight_desc
                (mEdges (prepare_edges gnu_sort atan2 triangulate b)))) ∧
  ∀ w, filter (λ e, weight e = w)
         (reverse (gnu_sort Edge by_weight_desc
                     (mEdges (prepare_edges gnu_sort atan2 triangulate b))))
       = reverse (filter (λ e, weight e = w)
                    (mEdges (prepare_edges gnu_sort atan2 triangulate b))).
Proof.
  intros Hpts Hedges.
  assert (prepare_edges gnu_sort atan2 triangulate b
          = prepare_edges insertion_sort atan2 triangulate b) as Hprep.
  { unfold prepare_edges, candidate_edges.
    by rewrite (gnu_sort_short by_x by_x_swo (mPoints b) Hpts). }
  rewrite Hprep in *.
  rewrite (gnu_sort_short by_weight_desc by_weight_desc_swo _ Hedges).
  split.
  { unfold buildAirWires, kruskalMst. rewrite Hprep.
    by rewrite (gnu_sort_short by_weight_desc by_weight_desc_swo _ Hedges). }
  destruct (processing_order insertion_sort insertion_sort_contract
              (mEdges (prepare_edges insertion_sort atan2 triangulate b)))
    as [Hperm Hsorted].
  split; [done|]. split; [done|]. intros w.
  rewrite <-(insertion_sort_stable by_weight_desc (λ e, weight e = w)
               (mEdges (prepare_edges insertion_sort atan2 triangulate b))).
  - apply filter_reverse.
  - intros e1 e2 H1 H2. unfold by_weight_desc. apply Z.ltb_ge. lia.
Qed.

(** ** The further properties at the samples *)

(** The three sample points without a known connection, and two points
    with one. *)
Definition line_builder : AirWiresBuilder :=
  Eval vm_compute in default empty_builder (make_builder sample_points []).
Definition pair_builder : AirWiresBuilder :=
  Eval vm_compute in
    default empty_builder (make_builder [mkPoint 100 200; mkPoint 300 400] [(0, 1)]).

Lemma air_wire_count_by_components_witness :
  (length (buildAirWires insertion_sort atan2_axes triangle_edges sample_builder).1 +
     components (Z.of_nat (length sample_points))
       (sample_known ++
        (ends <$> candidate_edges insertion_sort atan2_axes triangle_edges
                    (mPoints sample_builder)))
   = components (Z.of_nat (length sample_points)) sample_known)%nat ∧
  (length (buildAirWires insertion_sort atan2_axes triangle_edges sample_builder).1
   ≤ length sample_points - 1)%nat.
Proof.
  apply (air_wire_count_by_components insertion_sort atan2_axes triangle_edges
           insertion_sort_contract triangle_edges_ok sample_points sample_known
           sample_builder).
  - reflexivity.
  - simpl. lia.
  - simpl. lia.
Defined.

Lemma no_air_wires_when_connected_witness :
  (buildAirWires insertion_sort atan2_axes triangle_edges pair_builder).1 = [].
Proof.
  apply (no_air_wires_when_connected insertion_sort atan2_axes triangle_edges
           insertion_sort_contract triangle_edges_ok
           [mkPoint 100 200; mkPoint 300 400] [(0, 1)] pair_builder).
  - reflexivity.
  - simpl. lia.
  - simpl. lia.
  - intros i j Hi Hj. simpl in Hi, Hj.
    assert (connected [(0, 1)] 0 1) as Hc by (apply connected_edge; left).
    assert (i = 0 ∨ i = 1) as [-> | ->] by lia;
      assert (j = 0 ∨ j = 1) as [-> | ->] by lia; done.
Defined.

Lemma air_wires_form_forest_witness :
  (∃ M, (buildAirWires insertion_sort atan2_axes triangle_edges sample_builder).1
          = to_AirWire <$> M ∧
     Selects []
       (reverse (insertion_sort Edge by_weight_desc
                   (mEdges (prepare_edges insertion_sort atan2_axes triangle_edges
                              sample_builder)))) M ∧
     ∀ M1 e M2, M = M1 ++ e :: M2 →
       id (p1 e) ≠ id (p2 e) ∧
       ¬ connected (sample_known ++ (ends <$> M1)) (id (p1 e)) (id (p2 e))) ∧
  (∀ W1 w W2,
     (buildAirWires insertion_sort atan2_axes triangle_edges sample_builder).1
       = W1 ++ w :: W2 →
     w.1 ≠ w.2 ∧ ¬ joined ((to_AirWire <$> mEdges sample_builder) ++ W1) w.1 w.2).
Proof.
  destruct (air_wires_form_forest insertion_sort atan2_axes triangle_edges
              insertion_sort_contract triangle_edges_ok sample_points sample_known
              sample_builder) as [Hids Hcoordinates].
  - reflexivity.
  - simpl. lia.
  - simpl. lia.
  - split; [exact Hids|]. apply Hcoordinates.
    apply (bool_decide_unpack _). by vm_compute.
Defined.

Lemma air_wires_ascending_witness :
  StronglySorted (λ w1 w2, length2 w1 ≤ length2 w2)
    (buildAirWires insertion_sort atan2_axes quad_edges square_builder).1.
Proof.
  apply (air_wires_ascending insertion_sort atan2_axes quad_edges
           insertion_sort_contract quad_edges_ok square_points [] square_builder).
  - reflexivity.
  - simpl. lia.
  - simpl. lia.
Defined.

Lemma air_wire_ends_registered_witness :
  ∃ (i j : nat) p q, i ≠ j ∧ sample_points !! i = Some p ∧ sample_points !! j = Some q ∧
    (mkPoint (-100) 0, mkPoint 0 0) = (stored p, stored q).
Proof.
  apply (air_wire_ends_registered insertion_sort atan2_axes triangle_edges
           insertion_sort_contract triangle_edges_ok sample_points sample_known
           sample_builder).
  - reflexivity.
  - simpl. lia.
  - simpl. lia.
  - vm_compute. left.
Defined.

Lemma air_wires_minimal_witness :
  (∀ w : Z,
     (length (filter (λ a, (w < length2 a)%Z)
                (buildAirWires insertion_sort atan2_axes quad_edges square_builder).1)
      ≤ length (filter (λ e, (w < weight e)%Z)
                  (weigh <$> candidate_edges insertion_sort atan2_axes quad_edges
                               (mPoints square_builder))))%nat) ∧
  total_length2 (buildAirWires insertion_sort atan2_axes quad_edges square_builder).1
    ≤ total_weight (weigh <$> candidate_edges insertion_sort atan2_axes quad_edges
                                (mPoints square_builder)).
Proof.
  apply (air_wires_minimal insertion_sort atan2_axes quad_edges
           insertion_sort_contract quad_edges_ok square_points [] square_builder).
  - reflexivity.
  - simpl. lia.
  - simpl. lia.
  - by apply Forall_forall.
  - intros i j _ _ Hc.
    eapply connected_perm; [|exact Hc]. by rewrite ends_weigh.
Defined.

Lemma colinear_air_wires_witness :
  (buildAirWires insertion_sort atan2_axes triangle_edges line_builder).1 ≡ₚ
    to_AirWire <$> consecutive_edges (insertion_sort Vector2 by_x (mPoints line_builder)) ∧
  insertion_sort Vector2 by_x (mPoints line_builder) ≡ₚ mPoints line_builder ∧
  StronglySorted (λ v1 v2, x v1 ≤ x v2)
    (insertion_sort Vector2 by_x (mPoints line_builder)).
Proof.
  apply (colinear_air_wires insertion_sort atan2_axes triangle_edges
           insertion_sort_contract triangle_edges_ok sample_points line_builder).
  - reflexivity.
  - simpl. lia.
  - simpl. lia.
  - reflexivity.
Defined.

Lemma more_known_fewer_air_wires_witness :
  (length (buildAirWires insertion_sort atan2_axes triangle_edges sample_builder).1
   ≤ length (buildAirWires insertion_sort atan2_axes triangle_edges line_builder).1)%nat.
Proof.
  apply (more_known_fewer_air_wires insertion_sort atan2_axes triangle_edges
           insertion_sort_contract triangle_edges_ok sample_points [] sample_known).
  - reflexivity.
  - reflexivity.
  - simpl. lia.
  - simpl. lia.
Defined.

Lemma air_wires_span_points_witness :
  Z.of_nat (length (buildAirWires insertion_sort atan2_axes quad_edges square_builder).1)
    = Z.max 0 (Z.of_nat (length square_points) - 1) ∧
  (∀ p q, p ∈ square_points → q ∈ square_points →
     joined (buildAirWires insertion_sort atan2_axes quad_edges square_builder).1
       (stored p) (stored q)) ∧
  (∀ p q, square_points = [p; q] →
     (buildAirWires insertion_sort atan2_axes quad_edges square_builder).1
       = [(stored p, stored q)]).
Proof.
  apply (air_wires_span_points insertion_sort atan2_axes quad_edges
           insertion_sort_contract quad_edges_ok square_points square_builder).
  - reflexivity.
  - simpl. lia.
  - right. right. intros i j Hi Hj. apply square_connected; simpl in *; lia.
Defined.

Lemma buildAirWires_short_witness :
  buildAirWires gnu_sort atan2_axes quad_edges square_builder
    = buildAirWires insertion_sort atan2_axes quad_edges square_builder ∧
  reverse (gnu_sort Edge by_weight_desc
             (mEdges (prepare_edges gnu_sort atan2_axes quad_edges square_builder)))
    ≡ₚ mEdges (prepare_edges gnu_sort atan2_axes quad_edges square_builder) ∧
  StronglySorted (λ e1 e2, weight e1 ≤ weight e2)
    (reverse (gnu_sort Edge by_weight_desc
                (mEdges (prepare_edges gnu_sort atan2_axes quad_edges square_builder)))) ∧
  ∀ w, filter (λ e, weight e = w)
         (reverse (gnu_sort Edge by_weight_desc
                     (mEdges (prepare_edges gnu_sort atan2_axes quad_edges
                                square_builder))))
       = reverse (filter (λ e, weight e = w)
                    (mEdges (prepare_edges gnu_sort atan2_axes quad_edges
                               square_builder))).
Proof.
  apply (buildAirWires_short atan2_axes quad_edges square_builder).
  - simpl. lia.
  - vm_compute. lia.
Defined.

Lemma arePointsColinear_far_points_witness :
  arePointsColinear atan2_axes
    [mkVector2 0 0 0 0; mkVector2 2000000 0 1 0; mkVector2 0 100 2 0;
     mkVector2 0 2000000 3 0] =
  arePointsColinear atan2_axes
    [mkVector2 0 0 0 0; mkVector2 2000000 0 1 0; mkVector2 0 2000000 3 0].
Proof.
  apply (arePointsColinear_far_points atan2_axes). reflexivity.
Defined.

(** * The test helper [sorted] *)

(** What [operator<] of [Point] is taken to be: a strict total order. *)
Record StrictTotalOrder {A} (lt : A → A → bool) : Prop := mkStrictTotalOrder {
  sto_irrefl : ∀ a, lt a a = false;
  sto_trans : ∀ a b c, lt a b = true → lt b c = true → lt a c = true;
  sto_total : ∀ a b, a = b ∨ lt a b = true ∨ lt b a = true
}.

Section Sorted.

(** [std::sort], and [operator<] of [Point], whose header is not among
    the sources. *)
Variable std_sort : ∀ A : Type, (A → A → bool) → list A → list A.
Variable Point_lt : Point → Point → bool.

(** [if (airwire.second < airwire.first)
      std::swap(airwire.second, airwire.first);] *)
Definition orient (airwire : AirWire) : AirWire :=
  if Point_lt airwire.2 airwire.1 then (airwire.2, airwire.1) else airwire.

(** [operator<] of [QPair]:
    [p1.first < p2.first || (!(p2.first < p1.first) && p1.second < p2.second)]. *)
Definition QPair_lt (p1 p2 : AirWire) : bool :=
  Point_lt p1.1 p2.1 || (negb (Point_lt p2.1 p1.1) && Point_lt p1.2 p2.2).

(** [AirWiresBuilderTest::sorted] *)
Definition sorted (airwires : AirWires) : AirWires :=
  std_sort AirWire QPair_lt (orient <$> airwires).

Hypothesis std_sort_ok : std_sort_contract std_sort.
Hypothesis Point_lt_ok : StrictTotalOrder Point_lt.

Lemma Point_lt_asym a b : Point_lt a b = true → Point_lt b a = false.
Proof.
  intros Hab. destruct (Point_lt b a) eqn:Hba; [|done].
  by rewrite <-(sto_irrefl _ Point_lt_ok a), (sto_trans _ Point_lt_ok a b a Hab Hba).
Qed.

Lemma QPair_lt_spec p1 p2 :
  QPair_lt p1 p2 = true ↔
  Point_lt p1.1 p2.1 = true ∨ (p1.1 = p2.1 ∧ Point_lt p1.2 p2.2 = true).
Proof.
  unfold QPair_lt. rewrite orb_true_iff, andb_true_iff, negb_true_iff. split.
  - intros [?|[Hn Hlt]]; [by left|].
    destruct (sto_total _ Point_lt_ok p1.1 p2.1) as [?|[?|?]]; [by right|by left|congruence].
  - intros [?|[Heq Hlt]]; [by left|]. right. split; [|done].
    rewrite Heq. apply (sto_irrefl _ Point_lt_ok).
Qed.

Lemma QPair_lt_total : StrictTotalOrder QPair_lt.
Proof.
  split.
  - intros a. apply not_true_iff_false. rewrite QPair_lt_spec.
    rewrite !(sto_irrefl _ Point_lt_ok). by intros [?|[_ ?]].
  - intros a b c. rewrite !QPair_lt_spec.
    intros [Hab|[Hab Hab']] [Hbc|[Hbc Hbc']].
    + left. by eapply (sto_trans _ Point_lt_ok).
    + left. by rewrite <-Hbc.
    + left. by rewrite Hab.
    + right. split; [congruence|]. by eapply (sto_trans _ Point_lt_ok).
  - intros [a1 a2] [b1 b2]. rewrite !QPair_lt_spec. simpl.
    destruct (sto_total _ Point_lt_ok a1 b1) as [->|[?|?]]; [|tauto..].
    destruct (sto_total _ Point_lt_ok a2 b2) as [->|[?|?]]; [by left|tauto..].
Qed.

Lemma total_swo {A} (lt : A → A → bool) : StrictTotalOrder lt → StrictWeakOrder lt.
Proof.
  intros [Hirr Htrans Htotal]. split; [done|done|].
  intros a b c Hab Hbc. apply not_true_iff_false. intros Hac.
  destruct (Htotal a b) as [->|[?|Hba]]; [congruence..|].
  destruct (Htotal b c) as [->|[?|Hcb]]; [congruence..|].
  pose proof (Htrans _ _ _ Hcb Hba) as Hca.
  pose proof (Htrans _ _ _ Hac Hca). by rewrite Hirr in *.
Qed.

Lemma orient_flip a b : orient (b, a) = orient (a, b).
Proof.
  unfold orient. simpl.
  destruct (Point_lt a b) eqn:Hab, (Point_lt b a) eqn:Hba; try done.
  - by rewrite (Point_lt_asym _ _ Hab) in Hba.
  - by destruct (sto_total _ Point_lt_ok a b) as [->|[?|?]]; [|congruence..].
Qed.

Lemma orient_ordered w : Point_lt (orient w).2 (orient w).1 = false.
Proof.
  unfold orient. destruct (Point_lt w.2 w.1) eqn:Hw; [|done].
  simpl. by apply Point_lt_asym.
Qed.

(** X10. The helper hands back the air wires, each with its lesser end
    first, in ascending order. *)
Theorem sorted_normalises (airwires : AirWires) :
  sorted airwires ≡ₚ orient <$> airwires ∧
  Forall (λ w, Point_lt w.2 w.1 = false) (sorted airwires) ∧
  StronglySorted (λ w1 w2, QPair_lt w2 w1 = false) (sorted airwires) ∧
  ∀ w, w ∈ sorted airwires ↔ ∃ a b, ((a, b) ∈ airwires ∨ (b, a) ∈ airwires) ∧
                               w = (a, b) ∧ Point_lt b a = false.
Proof.
  destruct (std_sort_ok AirWire QPair_lt (total_swo _ QPair_lt_total) (orient <$> airwires))
    as [Hperm Hsorted].
  split; [done|]. split; [|split; [done|]].
  - unfold sorted. rewrite Hperm. apply Forall_fmap, Forall_forall.
    intros w _. apply orient_ordered.
  - intros w. unfold sorted. rewrite Hperm, list_elem_of_fmap. split.
    + intros ([a b] & -> & Hin). pose proof (orient_ordered (a, b)) as Hord.
      destruct (orient (a, b)) as [a' b'] eqn:Ho. exists a', b'.
      split; [|done]. unfold orient in Ho. simpl in Ho.
      destruct (Point_lt b a); simplify_eq; [by right|by left].
    + intros (a & b & [Hin|Hin] & -> & Hord).
      * exists (a, b). split; [|done]. unfold orient. simpl. by rewrite Hord.
      * exists (b, a). split; [|done]. rewrite orient_flip. unfold orient. simpl.
        by rewrite Hord.
Qed.

(** X11. The helper gives a canonical form: two lists of air wires that
    agree up to the order of the wires and the order of the two ends of
    each wire are handed back as the same list. *)
Theorem sorted_canonical (l k l' : AirWires) :
  l ≡ₚ k → Forall2 (λ w w', w' = w ∨ w' = (w.2, w.1)) k l' →
  sorted l = sorted l'.
Proof.
  intros Hperm Hflip.
  assert (orient <$> k = orient <$> l') as Hk.
  { clear Hperm. induction Hflip as [|[a b] w' k0 l0 Hw _ IH]; [done|].
    rewrite !fmap_cons, IH. f_equal. destruct Hw as [->| ->]; [done|].
    simpl. by rewrite orient_flip. }
  pose proof (total_swo _ QPair_lt_total) as Hswo.
  destruct (std_sort_ok AirWire QPair_lt Hswo (orient <$> l)) as [Hp Hs].
  destruct (std_sort_ok AirWire QPair_lt Hswo (orient <$> l')) as [Hp' Hs'].
  unfold sorted.
  eapply StronglySorted_unique_strong; [|exact Hs|exact Hs'|].
  - intros w1 w2 _ _ H21 H12. simpl in *.
    destruct (sto_total _ QPair_lt_total w1 w2) as [?|[?|?]]; [done|congruence..].
  - by rewrite Hp, Hp', Hperm, Hk.
Qed.

End Sorted.

(** ** The helper at a sample *)

(** An order on points: by [x], then by [y]. *)
Definition Point_lt_xy (p q : Point) : bool :=
  (getX p <? getX q) || ((getX p =? getX q) && (getY p <? getY q)).

Lemma Point_lt_xy_total : StrictTotalOrder Point_lt_xy.
Proof.
  split.
  - intros [a1 a2]. unfold Point_lt_xy. simpl. rewrite !Z.ltb_irrefl. by rewrite andb_false_r.
  - intros [a1 a2] [b1 b2] [c1 c2]. unfold Point_lt_xy. simpl.
    rewrite !orb_true_iff, !andb_true_iff, !Z.ltb_lt, !Z.eqb_eq. lia.
  - intros [a1 a2] [b1 b2]. unfold Point_lt_xy. simpl.
    rewrite !orb_true_iff, !andb_true_iff, !Z.ltb_lt, !Z.eqb_eq.
    destruct (decide (a1 = b1)) as [->|]; [|lia].
    destruct (decide (a2 = b2)) as [->|]; [by left|lia].
Qed.

Lemma sorted_normalises_witness :
  sorted insertion_sort Point_lt_xy [(mkPoint 300 400, mkPoint 100 200)] ≡ₚ
    orient Point_lt_xy <$> [(mkPoint 300 400, mkPoint 100 200)] ∧
  Forall (λ w, Point_lt_xy w.2 w.1 = false)
    (sorted insertion_sort Point_lt_xy [(mkPoint 300 400, mkPoint 100 200)]) ∧
  StronglySorted (λ w1 w2, QPair_lt Point_lt_xy w2 w1 = false)
    (sorted insertion_sort Point_lt_xy [(mkPoint 300 400, mkPoint 100 200)]) ∧
  ∀ w, w ∈ sorted insertion_sort Point_lt_xy [(mkPoint 300 400, mkPoint 100 200)] ↔
    ∃ a b, ((a, b) ∈ [(mkPoint 300 400, mkPoint 100 200)] ∨
            (b, a) ∈ [(mkPoint 300 400, mkPoint 100 200)]) ∧
           w = (a, b) ∧ Point_lt_xy b a = false.
Proof.
  apply (sorted_normalises insertion_sort Point_lt_xy insertion_sort_contract
           Point_lt_xy_total).
Defined.

Lemma sorted_canonical_witness :
  sorted insertion_sort Point_lt_xy
    [(mkPoint 0 0, mkPoint 100 0); (mkPoint (-100) 0, mkPoint 0 0)] =
  sorted insertion_sort Point_lt_xy
    [(mkPoint 0 0, mkPoint (-100) 0); (mkPoint 0 0, mkPoint 100 0)].
Proof.
  apply (sorted_canonical insertion_sort Point_lt_xy insertion_sort_contract
           Point_lt_xy_total _
           [(mkPoint (-100) 0, mkPoint 0 0); (mkPoint 0 0, mkPoint 100 0)]).
  - apply perm_swap.
  - constructor; [by right|]. constructor; [by left|]. constructor.
Defined.

(** * [LengthEditBase] *)

Module LengthEditBase.

(** Modelled from the spec: [Length] of units/length.h, which is not
    among the sources.  The spec has lengths as signed integers of
    nanometres; [Length] wraps a [qint64], and its operators are those of
    the integer it wraps.  Signed overflow, a remainder by zero and the
    absolute value of the least integer are undefined: [None]. *)
Abbreviation Length := Z (only parsing).

Definition in_int64 (z : Z) : bool := (- 2 ^ 63 <=? z) && (z <? 2 ^ 63).
Definition checked (z : Z) : option Length := if in_int64 z then Some z else None.

Definition Length_add (a b : Length) : option Length := checked (a + b).
Definition Length_mul (a : Length) (rhs : Z) : option Length := checked (a * rhs).
Definition Length_rem (a b : Length) : option Length :=
  if b =? 0 then None
  else if (a =? - 2 ^ 63) && (b =? -1) then None
  else Some (Z.rem a b).
Definition Length_abs (a : Length) : option Length := checked (Z.abs a).

(** [qBound(min, val, max)] is [qMax(min, qMin(max, val))]. *)
Definition qBound (min val max : Length) : Length := Z.max min (Z.min max val).

(** [QAbstractSpinBox::StepEnabled] *)
Definition StepNone : Z := 0.
Definition StepUpEnabled : Z := 1.
Definition StepDownEnabled : Z := 2.

(** The calls the widget makes to its text, its subclass and its
    painting. *)
Inductive Call := updateText | valueChangedImpl | update.

Section Widget.

Local Set Default Proof Using "Type".

(** [LengthUnit], [QChar] and the value of a parsed expression, with the
    table of units, the parser and the conversion to [Length], none of
    which is among the sources. *)
Context {LengthUnit QChar Real : Type} `{!EqDecision LengthUnit} `{!EqDecision QChar}.
Variable millimeters : LengthUnit.
Variable getAllUnits : list LengthUnit.
Variable getUserInputSuffixes : LengthUnit → list (list QChar).
Variable MathParser_parse : list QChar → option Real.
Variable convertFromUnit : LengthUnit → Real → option Length.

Record Widget := mkWidget {
  mUnit : LengthUnit;
  mMinimum : Length;
  mMaximum : Length;
  mValue : Length;
  mSteps : list Length;
  mSingleStepUp : Length;
  mSingleStepDown : Length;
  calls : list Call
}.

Definition call (c : Call) (s : Widget) : Widget :=
  mkWidget (mUnit s) (mMinimum s) (mMaximum s) (mValue s) (mSteps s)
    (mSingleStepUp s) (mSingleStepDown s) (calls s ++ [c]).

Definition set_value (v : Length) (s : Widget) : Widget :=
  mkWidget (mUnit s) (mMinimum s) (mMaximum s) v (mSteps s)
    (mSingleStepUp s) (mSingleStepDown s) (calls s).

Definition set_unit (u : LengthUnit) (s : Widget) : Widget :=
  mkWidget u (mMinimum s) (mMaximum s) (mValue s) (mSteps s)
    (mSingleStepUp s) (mSingleStepDown s) (calls s).

Definition set_steps (steps : list Length) (s : Widget) : Widget :=
  mkWidget (mUnit s) (mMinimum s) (mMaximum s) (mValue s) steps
    (mSingleStepUp s) (mSingleStepDown s) (calls s).

Definition set_single_steps (up down : Length) (s : Widget) : Widget :=
  mkWidget (mUnit s) (mMinimum s) (mMaximum s) (mValue s) (mSteps s) up down (calls s).

(** The [foreach] of [updateSingleStep]. *)
Fixpoint steps_loop (value : Length) (steps : list Length) (up down : Length)
  : option (Length * Length) :=
  match steps with
  | [] => Some (up, down)
  | step :: steps' =>
      r ← Length_rem value step;
      if r =? 0 then
        a ← Length_abs value;
        steps_loop value steps' step
          (if (step <? a) || (down =? 0) then step else down)
      else steps_loop value steps' up down
  end.

Definition updateSingleStep (s : Widget) : option Widget :=
  if (mValue s =? 0) || (mValue s =? mMinimum s) then Some s
  else
    ud ← steps_loop (mValue s) (mSteps s) 0 0;
    let up := if mValue s <? 0 then ud.2 else ud.1 in
    let down := if mValue s <? 0 then ud.1 else ud.2 in
    down' ← (if 0 <? down then
               limit ← Length_add (mMinimum s) down;
               Some (if mValue s <? limit then 0 else down)
             else Some down);
    Some (set_single_steps up down' s).

Definition setValueImpl (value : Length) (s : Widget) : option Widget :=
  let value := qBound (mMinimum s) value (mMaximum s) in
  if decide (value ≠ mValue s) then
    s' ← updateSingleStep (set_value value s);
    Some (call update (call valueChangedImpl (call updateText s')))
  else Some s.

Definition stepEnabled (s : Widget) : Z :=
  let enabled := StepNone in
  let enabled :=
    if (0 <? mSingleStepUp s) && (mValue s <? mMaximum s)
    then Z.lor enabled StepUpEnabled else enabled in
  if (0 <? mSingleStepDown s) && (mMinimum s <? mValue s)
  then Z.lor enabled StepDownEnabled else enabled.

Definition stepBy (steps : Z) (s : Widget) : option Widget :=
  if (0 <? mSingleStepUp s) && (0 <? steps) then
    d ← Length_mul (mSingleStepUp s) steps;
    v ← Length_add (mValue s) d;
    setValueImpl v s
  else if (0 <? mSingleStepDown s) && (steps <? 0) then
    d ← Length_mul (mSingleStepDown s) steps;
    v ← Length_add (mValue s) d;
    setValueImpl v s
  else Some s.

Definition setUnit (unit : LengthUnit) (s : Widget) : Widget :=
  if decide (unit ≠ mUnit s) then call updateText (set_unit unit s) else s.

Definition setSteps (steps : list Length) (s : Widget) : option Widget :=
  s' ← updateSingleStep (set_steps steps s);
  Some (call update s').

Definition configureForCoordinate (unit : LengthUnit) (s : Widget) : option Widget :=
  s' ← setSteps [10000; 25400; 100000; 254000; 1000000; 2540000] s;
  Some (setUnit unit s').

Definition configureForSize (unit : LengthUnit) (s : Widget) : option Widget :=
  s' ← setSteps [10000; 25400; 100000; 254000; 1000000; 2540000] s;
  Some (setUnit unit s').

Definition configureForLineWidth (unit : LengthUnit) (s : Widget) : option Widget :=
  s' ← setSteps [10000; 25400; 100000; 254000; 1000000; 2540000] s;
  Some (setUnit unit s').

Definition configureForTextHeight (s : Widget) : option Widget :=
  s' ← setSteps [100000; 254000; 500000] s;
  Some (setUnit millimeters s').

Definition configureForTextStrokeWidth (s : Widget) : option Widget :=
  s' ← setSteps [100000; 254000; 500000] s;
  Some (setUnit millimeters s').

Definition configureForPinLength (unit : LengthUnit) (s : Widget) : option Widget :=
  s' ← setSteps [2500000; 2540000] s;
  Some (setUnit unit s').

Definition configureForDrillDiameter (unit : LengthUnit) (s : Widget) : option Widget :=
  s' ← setSteps [254000; 100000] s;
  Some (setUnit unit s').

Definition configureForClearance (unit : LengthUnit) (s : Widget) : option Widget :=
  s' ← setSteps [10000; 25400; 100000; 254000; 1000000; 2540000] s;
  Some (setUnit unit s').

(** The first suffix of the first unit, in the order of the table, that
    the expression ends with. *)
Fixpoint find_suffix (expression : list QChar) (suffixes : list (list QChar))
  : option (list QChar) :=
  match suffixes with
  | [] => None
  | suffix :: suffixes' =>
      if decide (suffix `suffix_of` expression) then Some suffix
      else find_suffix expression suffixes'
  end.

Fixpoint find_unit (expression : list QChar) (units : list LengthUnit)
  : option (LengthUnit * list QChar) :=
  match units with
  | [] => None
  | unit :: units' =>
      match find_suffix expression (getUserInputSuffixes unit) with
      | Some suffix => Some (unit, suffix)
      | None => find_unit expression units'
      end
  end.

(** [expression.chop(n)] *)
Definition chop (n : nat) (expression : list QChar) : list QChar :=
  take (length expression - n) expression.

(** The unit and what is left of the expression. *)
Definition extractUnitFromExpression (expression : list QChar) (s : Widget)
  : LengthUnit * list QChar :=
  match find_unit expression getAllUnits with
  | Some (unit, suffix) => (unit, chop (length suffix) expression)
  | None => (mUnit s, expression)
  end.

Definition updateValueFromText (text : list QChar) (s : Widget) : option Widget :=
  let '(unit, text) := extractUnitFromExpression text s in
  match MathParser_parse text with
  | Some result =>
      match convertFromUnit unit result with
      | Some value =>
          if (mMinimum s <=? value) && (value <=? mMaximum s) then
            s' ← updateSingleStep (set_unit unit (set_value value s));
            Some (call update (call valueChangedImpl s'))
          else Some s
      | None => Some s
      end
  | None => Some s
  end.

(** The constructor. *)
Definition LengthEditBase (min max value : Length) : option Widget :=
  configureForCoordinate millimeters
    (call updateText (mkWidget millimeters min max value [] 0 0 [])).

(** ** What the widget keeps *)

(** The values a widget works with in practice: limits and value within
    2^62 nm of zero, the value between the limits, steps and single
    steps below 2^31 nm. *)
Record Good (s : Widget) : Prop := mkGood {
  good_min : - 2 ^ 62 < mMinimum s;
  good_max : mMaximum s < 2 ^ 62;
  good_range : mMinimum s ≤ mValue s ≤ mMaximum s;
  good_steps : Forall (λ step, 0 < step < 2 ^ 31) (mSteps s);
  good_up : 0 ≤ mSingleStepUp s < 2 ^ 31;
  good_down : 0 ≤ mSingleStepDown s < 2 ^ 31
}.

(** The limits, which no operation writes. *)
Definition limits (s : Widget) : Length * Length := (mMinimum s, mMaximum s).

Lemma checked_Some z : - 2 ^ 63 ≤ z < 2 ^ 63 → checked z = Some z.
Proof.
  intros Hz. unfold checked, in_int64.
  destruct (Z.leb_spec (- 2 ^ 63) z), (Z.ltb_spec z (2 ^ 63)); simpl; done || lia.
Qed.

Lemma Length_rem_Some a b : 0 < b → Length_rem a b = Some (Z.rem a b).
Proof.
  intros Hb. unfold Length_rem.
  destruct (Z.eqb_spec b 0); [lia|]. destruct (Z.eqb_spec b (-1)); [lia|].
  by rewrite andb_false_r.
Qed.

(** The steps that divide a value. *)
Definition dividing (value : Length) (steps : list Length) : list Length :=
  filter (λ step, Z.rem value step = 0) steps.

(** The step the loop leaves in [down]: the last dividing step below the
    absolute value, or else the first dividing step. *)
Definition down_step (value : Length) (steps : list Length) (down : Length) : Length :=
  foldl (λ down step, if (step <? Z.abs value) || (down =? 0) then step else down)
    down (dividing value steps).

Lemma dividing_cons value step steps :
  dividing value (step :: steps) =
  if decide (Z.rem value step = 0) then step :: dividing value steps
  else dividing value steps.
Proof. unfold dividing. by rewrite filter_cons. Qed.

Lemma last_cons_default {A} (a d : A) (l : list A) :
  default d (last (a :: l)) = default a (last l).
Proof.
  revert a d. induction l as [|b l IH]; intros a d; [done|].
  change (last (a :: b :: l)) with (last (b :: l)). by rewrite !IH.
Qed.

Lemma steps_loop_spec value steps up down :
  - 2 ^ 63 < value < 2 ^ 63 → Forall (λ step, 0 < step) steps →
  steps_loop value steps up down =
    Some (default up (last (dividing value steps)), down_step value steps down).
Proof.
  intros Hv Hsteps. revert up down.
  induction Hsteps as [|step steps Hstep _ IH]; intros up down; [done|].
  cbn [steps_loop]. rewrite Length_rem_Some by done. cbn [mbind option_bind].
  unfold down_step. rewrite dividing_cons.
  destruct (Z.eqb_spec (Z.rem value step) 0) as [Hr|Hr].
  - rewrite decide_True by done. unfold Length_abs. rewrite checked_Some by lia.
    cbn [mbind option_bind foldl]. rewrite IH, last_cons_default. done.
  - rewrite decide_False by done. apply IH.
Qed.

Lemma dividing_elem value steps step :
  value ≠ 0 → Forall (λ step, 0 < step) steps → step ∈ dividing value steps →
  step ∈ steps ∧ Z.rem value step = 0 ∧ 0 < step ≤ Z.abs value.
Proof.
  intros Hv Hsteps [Hr Hin]%list_elem_of_filter.
  rewrite Forall_forall in Hsteps. specialize (Hsteps step Hin).
  split; [done|]. split; [done|]. split; [done|].
  apply Z.rem_divide in Hr; [|lia]. apply Z.divide_abs_r in Hr.
  apply Z.divide_pos_le in Hr; lia.
Qed.

Lemma last_default_elem (D : list Length) :
  default 0 (last D) = 0 ∨ default 0 (last D) ∈ D.
Proof.
  destruct (last D) as [a|] eqn:Hl; [|by left].
  right. simpl. by apply last_Some_elem_of.
Qed.

Lemma down_step_elem value steps :
  down_step value steps 0 = 0 ∨ down_step value steps 0 ∈ dividing value steps.
Proof.
  unfold down_step. generalize (dividing value steps). intros D.
  assert (∀ d D', foldl (λ down step, if (step <? Z.abs value) || (down =? 0)
                                       then step else down) d D = d ∨
                  foldl (λ down step, if (step <? Z.abs value) || (down =? 0)
                                       then step else down) d D ∈ D' ++ D) as H.
  { intros d. induction D as [|a D IH] using rev_ind; intros D'; [by left|].
    rewrite foldl_snoc.
    destruct ((a <? Z.abs value) || _).
    - right. apply elem_of_app. right. apply elem_of_app. right. by left.
    - destruct (IH D') as [?|Hin]; [by left|]. right. rewrite (assoc (++)).
      apply elem_of_app. by left. }
  apply (H 0 []).
Qed.

(** The single steps [updateSingleStep] computes. *)
Definition single_steps (s : Widget) : Length * Length :=
  let up := default 0 (last (dividing (mValue s) (mSteps s))) in
  let down := down_step (mValue s) (mSteps s) 0 in
  let up' := if mValue s <? 0 then down else up in
  let down' := if mValue s <? 0 then up else down in
  (up', if (0 <? down') && (mValue s <? mMinimum s + down') then 0 else down').

Lemma single_steps_elem s :
  mValue s ≠ 0 → Forall (λ step, 0 < step) (mSteps s) →
  ((single_steps s).1 = 0 ∨ (single_steps s).1 ∈ dividing (mValue s) (mSteps s)) ∧
  ((single_steps s).2 = 0 ∨ (single_steps s).2 ∈ dividing (mValue s) (mSteps s)).
Proof.
  intros Hv Hsteps. unfold single_steps. simpl.
  pose proof (last_default_elem (dividing (mValue s) (mSteps s))) as Hup.
  pose proof (down_step_elem (mValue s) (mSteps s)) as Hdown.
  destruct (mValue s <? 0); (split; [done|]); by destruct (_ && _); [left|].
Qed.

Lemma updateSingleStep_eq s :
  - 2 ^ 62 < mMinimum s < 2 ^ 62 → - 2 ^ 63 < mValue s < 2 ^ 63 →
  Forall (λ step, 0 < step < 2 ^ 31) (mSteps s) →
  updateSingleStep s =
    Some (if (mValue s =? 0) || (mValue s =? mMinimum s) then s
          else set_single_steps (single_steps s).1 (single_steps s).2 s).
Proof.
  intros Hmin Hv Hsteps. unfold updateSingleStep.
  destruct ((mValue s =? 0) || (mValue s =? mMinimum s)) eqn:Hearly; [done|].
  apply orb_false_iff in Hearly as [Hv0%Z.eqb_neq _].
  assert (Forall (λ step, 0 < step) (mSteps s)) as Hpos.
  { eapply Forall_impl; [exact Hsteps|]. intros st Hst. simpl in Hst. lia. }
  rewrite steps_loop_spec by done. cbn [mbind option_bind fst snd].
  unfold single_steps. cbn [fst snd].
  assert (∀ d, d = 0 ∨ d ∈ dividing (mValue s) (mSteps s) → 0 ≤ d < 2 ^ 31) as Hb.
  { intros d [->|[_ Hd]%list_elem_of_filter]; [lia|].
    rewrite Forall_forall in Hsteps. specialize (Hsteps d Hd). simpl in Hsteps. lia. }
  pose proof (Hb _ (last_default_elem (dividing (mValue s) (mSteps s)))) as Hup.
  pose proof (Hb _ (down_step_elem (mValue s) (mSteps s))) as Hdown.
  revert Hup Hdown.
  generalize (default 0 (last (dividing (mValue s) (mSteps s)))).
  generalize (down_step (mValue s) (mSteps s) 0). intros d u Hu Hd.
  destruct (mValue s <? 0).
  - destruct (Z.ltb_spec 0 u); [|done].
    unfold Length_add. by rewrite checked_Some by lia.
  - destruct (Z.ltb_spec 0 d); [|done].
    unfold Length_add. by rewrite checked_Some by lia.
Qed.

Lemma updateSingleStep_good s :
  Good s →
  ∃ s', updateSingleStep s = Some s' ∧ Good s' ∧
    mUnit s' = mUnit s ∧ limits s' = limits s ∧ mValue s' = mValue s ∧
    mSteps s' = mSteps s ∧ calls s' = calls s.
Proof.
  intros [Hmin Hmax Hrange Hsteps Hup Hdown].
  rewrite updateSingleStep_eq by (done || lia).
  eexists. split; [done|].
  destruct ((mValue s =? 0) || (mValue s =? mMinimum s)) eqn:Hearly; [done|].
  apply orb_false_iff in Hearly as [Hv0%Z.eqb_neq _].
  assert (Forall (λ step, 0 < step) (mSteps s)) as Hpos.
  { eapply Forall_impl; [exact Hsteps|]. intros st Hst. simpl in Hst. lia. }
  split; [|done].
  assert (∀ d, d = 0 ∨ d ∈ dividing (mValue s) (mSteps s) → 0 ≤ d < 2 ^ 31) as Hb.
  { intros d [->|[_ Hd]%list_elem_of_filter]; [lia|].
    rewrite Forall_forall in Hsteps. specialize (Hsteps d Hd). simpl in Hsteps. lia. }
  destruct (single_steps_elem s Hv0 Hpos) as [Hu Hd].
  split; simpl; try done; by apply Hb.
Qed.

Lemma updateSingleStep_frame s s' :
  updateSingleStep s = Some s' →
  mUnit s' = mUnit s ∧ limits s' = limits s ∧ mValue s' = mValue s ∧
  mSteps s' = mSteps s ∧ calls s' = calls s.
Proof.
  unfold updateSingleStep. destruct (_ || _); [by intros [= <-]|].
  destruct (steps_loop _ _ _ _) as [ud|]; [|done]. cbn [mbind option_bind].
  destruct (0 <? _); cbn [mbind option_bind].
  - destruct (Length_add _ _); [|done]. by intros [= <-].
  - by intros [= <-].
Qed.

Lemma qBound_range min val max : min ≤ max → min ≤ qBound min val max ≤ max.
Proof. unfold qBound. lia. Qed.

Lemma qBound_id min val max : min ≤ val ≤ max → qBound min val max = val.
Proof. unfold qBound. lia. Qed.

Lemma set_value_good value s :
  Good s → mMinimum s ≤ value ≤ mMaximum s → Good (set_value value s).
Proof. intros [? ? ? ? ? ?] Hv. by split. Qed.

Lemma setValueImpl_good value s :
  Good s →
  ∃ s', setValueImpl value s = Some s' ∧ Good s' ∧
    mValue s' = qBound (mMinimum s) value (mMaximum s) ∧
    mUnit s' = mUnit s ∧ limits s' = limits s ∧ mSteps s' = mSteps s.
Proof.
  intros HG. pose proof (good_range _ HG) as Hr.
  unfold setValueImpl.
  destruct (decide (qBound (mMinimum s) value (mMaximum s) ≠ mValue s)) as [Hne|Heq].
  - destruct (updateSingleStep_good (set_value (qBound (mMinimum s) value (mMaximum s)) s))
      as (s' & -> & HG' & Hu & Hl & Hv & Hs & Hc).
    { apply set_value_good; [done|]. apply qBound_range. lia. }
    eexists. split; [done|]. split; [by destruct HG'|]. done.
  - exists s. apply dec_stable in Heq. done.
Qed.

Lemma stepEnabled_up s :
  Z.land (stepEnabled s) StepUpEnabled ≠ 0 ↔ 0 < mSingleStepUp s ∧ mValue s < mMaximum s.
Proof.
  unfold stepEnabled.
  destruct (Z.ltb_spec 0 (mSingleStepUp s)), (Z.ltb_spec (mValue s) (mMaximum s)),
    ((0 <? mSingleStepDown s) && (mMinimum s <? mValue s)); simpl; split; try lia; done.
Qed.

Lemma stepEnabled_down s :
  Z.land (stepEnabled s) StepDownEnabled ≠ 0 ↔
  0 < mSingleStepDown s ∧ mMinimum s < mValue s.
Proof.
  unfold stepEnabled.
  destruct (Z.ltb_spec 0 (mSingleStepDown s)), (Z.ltb_spec (mMinimum s) (mValue s)),
    ((0 <? mSingleStepUp s) && (mValue s <? mMaximum s)); simpl; split; try lia; done.
Qed.

(** What [stepBy] hands to [setValueImpl]. *)
Lemma stepBy_eq steps s :
  Good s → - 2 ^ 31 ≤ steps < 2 ^ 31 →
  stepBy steps s =
    if (0 <? mSingleStepUp s) && (0 <? steps)
    then setValueImpl (mValue s + mSingleStepUp s * steps) s
    else if (0 <? mSingleStepDown s) && (steps <? 0)
    then setValueImpl (mValue s + mSingleStepDown s * steps) s
    else Some s.
Proof.
  intros [Hmin Hmax Hrange _ Hup Hdown] Hsteps. unfold stepBy, Length_mul, Length_add.
  destruct (_ && _).
  { rewrite checked_Some by nia. cbn [mbind option_bind]. by rewrite checked_Some by nia. }
  destruct (_ && _); [|done].
  rewrite checked_Some by nia. cbn [mbind option_bind]. by rewrite checked_Some by nia.
Qed.

(** The operations on a widget. *)
Inductive Op :=
| op_setUnit (unit : LengthUnit)
| op_setSteps (steps : list Length)
| op_configureForCoordinate (unit : LengthUnit)
| op_configureForSize (unit : LengthUnit)
| op_configureForLineWidth (unit : LengthUnit)
| op_configureForTextHeight
| op_configureForTextStrokeWidth
| op_configureForPinLength (unit : LengthUnit)
| op_configureForDrillDiameter (unit : LengthUnit)
| op_configureForClearance (unit : LengthUnit)
| op_stepBy (steps : Z)
| op_setValueImpl (value : Length)
| op_updateValueFromText (text : list QChar).

Definition apply_op (op : Op) (s : Widget) : option Widget :=
  match op with
  | op_setUnit unit => Some (setUnit unit s)
  | op_setSteps steps => setSteps steps s
  | op_configureForCoordinate unit => configureForCoordinate unit s
  | op_configureForSize unit => configureForSize unit s
  | op_configureForLineWidth unit => configureForLineWidth unit s
  | op_configureForTextHeight => configureForTextHeight s
  | op_configureForTextStrokeWidth => configureForTextStrokeWidth s
  | op_configureForPinLength unit => configureForPinLength unit s
  | op_configureForDrillDiameter unit => configureForDrillDiameter unit s
  | op_configureForClearance unit => configureForClearance unit s
  | op_stepBy steps => stepBy steps s
  | op_setValueImpl value => setValueImpl value s
  | op_updateValueFromText text => updateValueFromText text s
  end.

Fixpoint run (ops : list Op) (s : Widget) : option Widget :=
  match ops with
  | [] => Some s
  | op :: ops' => s' ← apply_op op s; run ops' s'
  end.

(** The arguments the types of the source allow: steps are
    [PositiveLength]s, here below 2^31 nm, and a number of steps is an
    [int]. *)
Definition op_ok (op : Op) : Prop :=
  match op with
  | op_setSteps steps => Forall (λ step, 0 < step < 2 ^ 31) steps
  | op_stepBy steps => - 2 ^ 31 ≤ steps < 2 ^ 31
  | _ => True
  end.

Lemma setUnit_good unit s :
  Good s → Good (setUnit unit s) ∧ limits (setUnit unit s) = limits s.
Proof.
  intros [? ? ? ? ? ?]. unfold setUnit. destruct (decide _); [|done]. by split.
Qed.

Lemma setSteps_good steps s :
  Good s → Forall (λ step, 0 < step < 2 ^ 31) steps →
  ∃ s', setSteps steps s = Some s' ∧ Good s' ∧ limits s' = limits s.
Proof.
  intros [? ? ? ? ? ?] Hsteps. unfold setSteps.
  destruct (updateSingleStep_good (set_steps steps s)) as (s' & -> & HG' & _ & Hl & _);
    [by split|].
  eexists. split; [done|]. split; [by destruct HG'|done].
Qed.

Lemma configure_good steps unit s :
  Good s → Forall (λ step, 0 < step < 2 ^ 31) steps →
  ∃ s', (s' ← setSteps steps s; Some (setUnit unit s')) = Some s' ∧ Good s' ∧
    limits s' = limits s.
Proof.
  intros HG Hsteps. destruct (setSteps_good steps s HG Hsteps) as (s1 & -> & HG1 & Hl1).
  destruct (setUnit_good unit s1 HG1) as [HG2 Hl2].
  eexists. split; [done|]. split; [done|]. congruence.
Qed.

Lemma updateValueFromText_good text s :
  Good s →
  ∃ s', updateValueFromText text s = Some s' ∧ Good s' ∧ limits s' = limits s.
Proof.
  intros HG. unfold updateValueFromText.
  destruct (extractUnitFromExpression text s) as [unit text'].
  destruct (MathParser_parse text') as [result|]; [|by exists s].
  destruct (convertFromUnit unit result) as [value|]; [|by exists s].
  destruct (Z.leb_spec (mMinimum s) value), (Z.leb_spec value (mMaximum s));
    simpl; try by exists s.
  destruct (updateSingleStep_good (set_unit unit (set_value value s)))
    as (s' & -> & HG' & _ & Hl & _).
  { destruct HG. by split. }
  eexists. split; [done|]. split; [by destruct HG'|done].
Qed.

Lemma apply_op_good op s :
  Good s → op_ok op →
  ∃ s', apply_op op s = Some s' ∧ Good s' ∧ limits s' = limits s.
Proof.
  intros HG Hop.
  assert (∀ steps : list Z, Forall (λ step, 0 < step < 2 ^ 31) steps →
            ∀ unit, ∃ s', (s' ← setSteps steps s; Some (setUnit unit s')) = Some s' ∧
              Good s' ∧ limits s' = limits s) as Hconf.
  { intros steps Hsteps unit. by apply configure_good. }
  destruct op as [unit|steps|unit|unit|unit| | |unit|unit|unit|steps|value|text]; simpl.
  - exists (setUnit unit s). split; [done|]. by apply setUnit_good.
  - by apply setSteps_good.
  - apply Hconf. repeat constructor; lia.
  - apply Hconf. repeat constructor; lia.
  - apply Hconf. repeat constructor; lia.
  - apply Hconf. repeat constructor; lia.
  - apply Hconf. repeat constructor; lia.
  - apply Hconf. repeat constructor; lia.
  - apply Hconf. repeat constructor; lia.
  - apply Hconf. repeat constructor; lia.
  - rewrite stepBy_eq by done.
    destruct (_ && _); [|destruct (_ && _)].
    + destruct (setValueImpl_good (mValue s + mSingleStepUp s * steps) s HG)
        as (s' & -> & ? & _ & _ & ? & _). by exists s'.
    + destruct (setValueImpl_good (mValue s + mSingleStepDown s * steps) s HG)
        as (s' & -> & ? & _ & _ & ? & _). by exists s'.
    + by exists s.
  - destruct (setValueImpl_good value s HG) as (s' & -> & ? & _ & _ & ? & _). by exists s'.
  - by apply updateValueFromText_good.
Qed.

(** X12. A widget made with its value between its limits keeps it
    there: whatever operations follow, none overflows, none writes the
    limits, and the value stays between them. *)
Theorem value_stays_in_range (min max value : Length) (ops : list Op) :
  - 2 ^ 62 < min → min ≤ value ≤ max → max < 2 ^ 62 →
  Forall op_ok ops →
  ∃ s0 s, LengthEditBase min max value = Some s0 ∧ run ops s0 = Some s ∧
    mMinimum s = min ∧ mMaximum s = max ∧ min ≤ mValue s ≤ max.
Proof.
  intros Hmin Hvalue Hmax Hops.
  assert (∃ s0, LengthEditBase min max value = Some s0 ∧ Good s0 ∧ limits s0 = (min, max))
    as (s0 & Hs0 & HG0 & Hl0).
  { unfold LengthEditBase, configureForCoordinate.
    apply configure_good; [by split|repeat constructor; lia]. }
  exists s0.
  assert (∀ s, Good s → ∃ s', run ops s = Some s' ∧ Good s' ∧ limits s' = limits s) as Hrun.
  { induction Hops as [|op ops Hop _ IH]; intros s HG; [by exists s|].
    destruct (apply_op_good op s HG Hop) as (s1 & Hs1 & HG1 & Hl1).
    destruct (IH s1 HG1) as (s2 & Hs2 & HG2 & Hl2).
    exists s2. simpl. rewrite Hs1. simpl. split; [done|]. split; [done|]. congruence. }
  destruct (Hrun s0 HG0) as (s & Hs & HG & Hl). exists s.
  rewrite Hl0 in Hl. injection Hl as Hl1 Hl2.
  pose proof (good_range _ HG). split; [done|]. split; [done|]. split; [done|].
  split; [done|]. lia.
Qed.

(** X13. [setValueImpl] sets the value to the given one clipped to the
    limits.  When that is the value the widget has, nothing happens at
    all; otherwise the text is updated, the subclass is told and the
    widget repainted, in this order. *)
Theorem setValueImpl_clips (value : Length) (s : Widget) :
  Good s →
  ∃ s', setValueImpl value s = Some s' ∧
    mValue s' = qBound (mMinimum s) value (mMaximum s) ∧
    mMinimum s ≤ mValue s' ≤ mMaximum s ∧
    (mMinimum s ≤ value ≤ mMaximum s → mValue s' = value) ∧
    (qBound (mMinimum s) value (mMaximum s) = mValue s → s' = s) ∧
    (qBound (mMinimum s) value (mMaximum s) ≠ mValue s →
     calls s' = calls s ++ [updateText; valueChangedImpl; update]).
Proof.
  intros HG. destruct (setValueImpl_good value s HG) as (s' & Hs' & HG' & Hv & _ & Hl & _).
  exists s'. split; [done|]. split; [done|].
  pose proof (good_range _ HG) as Hr. split.
  { rewrite Hv. apply qBound_range. lia. }
  split; [intros Hin; by rewrite Hv, qBound_id|].
  unfold setValueImpl in Hs'. split.
  - intros Heq. rewrite decide_False in Hs' by (by intros ?). by injection Hs'.
  - intros Hne. rewrite decide_True in Hs' by done.
    destruct (updateSingleStep _) as [s1|] eqn:Hs1; [|done].
    apply updateSingleStep_frame in Hs1 as (_ & _ & _ & _ & Hc). simpl in Hs'.
    injection Hs' as <-. simpl. rewrite Hc. simpl. by rewrite <-!(assoc (++)).
Qed.

(** X14. At a value that is neither zero nor the minimum,
    [updateSingleStep] chooses both single steps among the steps that
    divide the value, or zero; for a positive value the step up is the
    last step of the list that divides the value; and a step down, when
    there is one, does not lead below the minimum.  At zero and at the
    minimum the single steps stay as they are. *)
Theorem updateSingleStep_steps (s : Widget) :
  Good s →
  ∃ s', updateSingleStep s = Some s' ∧
    (mValue s = 0 ∨ mValue s = mMinimum s → s' = s) ∧
    (mValue s ≠ 0 → mValue s ≠ mMinimum s →
     (mSingleStepUp s' = 0 ∨
      mSingleStepUp s' ∈ mSteps s ∧ Z.rem (mValue s) (mSingleStepUp s') = 0) ∧
     (mSingleStepDown s' = 0 ∨
      mSingleStepDown s' ∈ mSteps s ∧ Z.rem (mValue s) (mSingleStepDown s') = 0) ∧
     (0 < mValue s →
      mSingleStepUp s' = default 0 (last (dividing (mValue s) (mSteps s)))) ∧
     (0 < mSingleStepDown s' → mMinimum s ≤ mValue s - mSingleStepDown s')).
Proof.
  intros [Hmin Hmax Hrange Hsteps Hup Hdown].
  rewrite updateSingleStep_eq by (done || lia). eexists. split; [done|]. split.
  - intros [->|Hv]; [done|]. rewrite Hv, Z.eqb_refl. by rewrite orb_true_r.
  - intros Hv0 Hvmin.
    destruct (Z.eqb_spec (mValue s) 0); [done|].
    destruct (Z.eqb_spec (mValue s) (mMinimum s)); [done|]. simpl.
    assert (Forall (λ step, 0 < step) (mSteps s)) as Hpos.
    { eapply Forall_impl; [exact Hsteps|]. intros st Hst. simpl in Hst. lia. }
    destruct (single_steps_elem s Hv0 Hpos) as [Hu Hd].
    assert (∀ d, d = 0 ∨ d ∈ dividing (mValue s) (mSteps s) →
              d = 0 ∨ d ∈ mSteps s ∧ Z.rem (mValue s) d = 0) as Hdiv.
    { intros d [->|[? ?]%list_elem_of_filter]; [by left|by right]. }
    split; [by apply Hdiv|]. split; [by apply Hdiv|]. split.
    + intros Hvpos. unfold single_steps. simpl.
      destruct (Z.ltb_spec (mValue s) 0); [lia|done].
    + unfold single_steps. simpl.
      destruct ((0 <? _) && _) eqn:Hclip; [lia|]. intros Hd'.
      apply andb_false_iff in Hclip as [Hc|Hc]; [apply Z.ltb_ge in Hc; lia|].
      apply Z.ltb_ge in Hc. lia.
Qed.

(** X15. A step moves the value exactly when [stepEnabled] reports the
    direction as enabled, and never against the direction asked for. *)
Theorem stepBy_stepEnabled (steps : Z) (s : Widget) :
  Good s → - 2 ^ 31 ≤ steps < 2 ^ 31 →
  ∃ s', stepBy steps s = Some s' ∧
    (steps = 0 → s' = s) ∧
    (0 < steps → mValue s ≤ mValue s' ∧
       (mValue s < mValue s' ↔ Z.land (stepEnabled s) StepUpEnabled ≠ 0)) ∧
    (steps < 0 → mValue s' ≤ mValue s ∧
       (mValue s' < mValue s ↔ Z.land (stepEnabled s) StepDownEnabled ≠ 0)).
Proof.
  intros HG Hsteps. pose proof HG as [Hmin Hmax Hrange _ Hup Hdown].
  rewrite stepBy_eq by done.
  pose proof (stepEnabled_up s) as HU. pose proof (stepEnabled_down s) as HD.
  revert HU HD. generalize (Z.land (stepEnabled s) StepUpEnabled).
  generalize (Z.land (stepEnabled s) StepDownEnabled). intros fd fu HU HD.
  destruct (Z.ltb_spec 0 (mSingleStepUp s)) as [Hu|Hu],
    (Z.ltb_spec 0 steps) as [Hs|Hs]; simpl.
  1: destruct (setValueImpl_good (mValue s + mSingleStepUp s * steps) s HG)
       as (s' & -> & _ & Hv & _).
  1: exists s'; split; [done|]; rewrite Hv; unfold qBound;
       (split; [lia|]); (split; [intros _; split; [nia|]; split; [intros; nia|nia]|lia]).
  all: destruct (Z.ltb_spec 0 (mSingleStepDown s)) as [Hd|Hd],
         (Z.ltb_spec steps 0) as [Hs'|Hs']; simpl.
  all: try (exists s; split; [done|]; split; [done|]; split; intros; lia).
  all: destruct (setValueImpl_good (mValue s + mSingleStepDown s * steps) s HG)
         as (s' & -> & _ & Hv & _).
  all: exists s'; split; [done|]; rewrite Hv; unfold qBound;
         (split; [lia|]); (split; [lia|]); intros _; split; [nia|]; split; [intros; nia|nia].
Qed.

(** X16. Right after [updateSingleStep] has chosen the single steps, one
    step down takes exactly the single step off the value, and one step
    up that stays below the maximum adds exactly the single step and
    leaves a value this step divides. *)
Theorem single_step_exact (s s1 : Widget) :
  Good s → mValue s ≠ 0 → mValue s ≠ mMinimum s →
  updateSingleStep s = Some s1 →
  (0 < mSingleStepDown s1 →
   ∃ s2, stepBy (-1) s1 = Some s2 ∧ mValue s2 = mValue s - mSingleStepDown s1) ∧
  (0 < mSingleStepUp s1 → mValue s + mSingleStepUp s1 ≤ mMaximum s →
   ∃ s2, stepBy 1 s1 = Some s2 ∧ mValue s2 = mValue s + mSingleStepUp s1 ∧
     Z.rem (mValue s2) (mSingleStepUp s1) = 0).
Proof.
  intros HG Hv0 Hvmin Hs1.
  destruct (updateSingleStep_good s HG) as (s1' & Hs1' & HG1 & _ & Hl & Hv & Hst & _).
  assert (s1' = s1) as -> by congruence.
  injection Hl as Hlmin Hlmax.
  pose proof HG as [Hmin Hmax Hrange Hsteps _ _].
  pose proof HG1 as [_ _ _ _ Hup1 Hdown1].
  assert (Forall (λ step, 0 < step) (mSteps s)) as Hpos.
  { eapply Forall_impl; [exact Hsteps|]. intros st Hst'. simpl in Hst'. lia. }
  pose proof Hs1 as Heq. rewrite updateSingleStep_eq in Heq by (done || lia).
  destruct (Z.eqb_spec (mValue s) 0); [done|].
  destruct (Z.eqb_spec (mValue s) (mMinimum s)); [done|]. simpl in Heq.
  injection Heq as Heq.
  destruct (single_steps_elem s Hv0 Hpos) as [Hu Hd].
  assert (mSingleStepUp s1 = (single_steps s).1) as Hup by (by rewrite <-Heq).
  assert (mSingleStepDown s1 = (single_steps s).2) as Hdown by (by rewrite <-Heq).
  split.
  - intros Hd1. rewrite stepBy_eq by (done || lia).
    destruct (Z.ltb_spec 0 (mSingleStepDown s1)); [|lia].
    rewrite andb_false_r. simpl.
    destruct (setValueImpl_good (mValue s1 + mSingleStepDown s1 * -1) s1 HG1)
      as (s2 & -> & _ & Hv2 & _).
    exists s2. split; [done|]. rewrite Hv2, Hlmin, Hlmax, Hv.
    assert (mMinimum s ≤ mValue s - mSingleStepDown s1) as Hfit.
    { rewrite Hdown. unfold single_steps in *. simpl in *.
      destruct ((0 <? _) && _) eqn:Hclip; [lia|].
      apply andb_false_iff in Hclip as [Hc|Hc]; apply Z.ltb_ge in Hc; lia. }
    unfold qBound. lia.
  - intros Hu1 Hfit. rewrite stepBy_eq by (done || lia).
    destruct (Z.ltb_spec 0 (mSingleStepUp s1)); [|lia]. simpl.
    destruct (setValueImpl_good (mValue s1 + mSingleStepUp s1 * 1) s1 HG1)
      as (s2 & -> & _ & Hv2 & _).
    exists s2. split; [done|]. rewrite Hv2, Hlmin, Hlmax, Hv.
    assert (qBound (mMinimum s) (mValue s + mSingleStepUp s1 * 1) (mMaximum s)
            = mValue s + mSingleStepUp s1) as -> by (unfold qBound; lia).
    split; [done|].
    rewrite Hup in *. destruct Hu as [Hz|Hin]; [lia|].
    apply list_elem_of_filter in Hin as [Hr _].
    apply Z.rem_divide; [lia|]. apply Z.divide_add_r; [|apply Z.divide_refl].
    apply Z.rem_divide; [lia|done].
Qed.

(** X17. [updateValueFromText] takes a value over only when the text
    parses, converts and lies between the limits, and then takes the unit
    of the text over with it; in every other case it leaves the widget as
    it is.  It never updates the text. *)
Theorem updateValueFromText_accepts (text : list QChar) (s : Widget) :
  Good s →
  ∃ s', updateValueFromText text s = Some s' ∧
    ((∃ result value,
        MathParser_parse (extractUnitFromExpression text s).2 = Some result ∧
        convertFromUnit (extractUnitFromExpression text s).1 result = Some value ∧
        mMinimum s ≤ value ≤ mMaximum s ∧
        mValue s' = value ∧ mUnit s' = (extractUnitFromExpression text s).1 ∧
        calls s' = calls s ++ [valueChangedImpl; update])
     ∨ s' = s ∧
       ¬ ∃ result value,
           MathParser_parse (extractUnitFromExpression text s).2 = Some result ∧
           convertFromUnit (extractUnitFromExpression text s).1 result = Some value ∧
           mMinimum s ≤ value ≤ mMaximum s).
Proof.
  intros HG. unfold updateValueFromText.
  destruct (extractUnitFromExpression text s) as [unit text']. simpl.
  destruct (MathParser_parse text') as [result|];
    [|exists s; split; [done|]; right; split; [done|]; by intros (? & ? & ? & _)].
  destruct (convertFromUnit unit result) as [value|] eqn:Hconv;
    [|exists s; split; [done|]; right; split; [done|];
      intros (? & ? & ? & ? & _); congruence].
  destruct (Z.leb_spec (mMinimum s) value), (Z.leb_spec value (mMaximum s)); simpl;
    try (exists s; split; [done|]; right; split; [done|];
         intros (? & ? & ? & ? & ? & ?); simplify_eq; lia).
  destruct (updateSingleStep_good (set_unit unit (set_value value s)))
    as (s' & -> & _ & Hu & _ & Hv & _ & Hc).
  { destruct HG. by split. }
  eexists. split; [done|]. left. exists result, value. simpl.
  rewrite Hc. simpl. by rewrite <-(assoc (++)).
Qed.

(** X18. [extractUnitFromExpression] cuts a suffix of a unit of the
    table off the end of the expression and hands back that unit with
    what is left; when the expression ends with no suffix of any unit, it
    hands the expression back as it is, with the unit of the widget. *)
Theorem extractUnitFromExpression_suffix (expression : list QChar) (s : Widget) :
  (∃ suffix,
     (extractUnitFromExpression expression s).1 ∈ getAllUnits ∧
     suffix ∈ getUserInputSuffixes (extractUnitFromExpression expression s).1 ∧
     expression = (extractUnitFromExpression expression s).2 ++ suffix)
  ∨ (extractUnitFromExpression expression s = (mUnit s, expression) ∧
     ∀ unit suffix, unit ∈ getAllUnits → suffix ∈ getUserInputSuffixes unit →
       ¬ suffix `suffix_of` expression).
Proof.
  assert (∀ suffixes,
            match find_suffix expression suffixes with
            | Some suffix => suffix ∈ suffixes ∧ suffix `suffix_of` expression
            | None => ∀ suffix, suffix ∈ suffixes → ¬ suffix `suffix_of` expression
            end) as Hsuffix.
  { induction suffixes as [|suffix suffixes IH]; simpl; [by intros ? ?%not_elem_of_nil|].
    destruct (decide (suffix `suffix_of` expression)) as [Hs|Hs]; [split; [by left|done]|].
    destruct (find_suffix expression suffixes) as [suffix'|].
    - destruct IH. split; [by right|done].
    - intros suffix' [->|?]%elem_of_cons; [done|by apply IH]. }
  assert (∀ units,
            match find_unit expression units with
            | Some (unit, suffix) => unit ∈ units ∧
                suffix ∈ getUserInputSuffixes unit ∧ suffix `suffix_of` expression
            | None => ∀ unit suffix, unit ∈ units → suffix ∈ getUserInputSuffixes unit →
                ¬ suffix `suffix_of` expression
            end) as Hunit.
  { induction units as [|unit units IH]; simpl; [by intros ? ? ?%not_elem_of_nil|].
    pose proof (Hsuffix (getUserInputSuffixes unit)) as Hs.
    destruct (find_suffix expression (getUserInputSuffixes unit)) as [suffix|].
    - destruct Hs. split; [by left|done].
    - destruct (find_unit expression units) as [[unit' suffix']|].
      + destruct IH as (? & ? & ?). split; [by right|done].
      + intros unit' suffix' [->|?]%elem_of_cons; [by apply Hs|by apply IH]. }
  unfold extractUnitFromExpression. specialize (Hunit getAllUnits).
  destruct (find_unit expression getAllUnits) as [[unit suffix]|]; [|by right].
  destruct Hunit as (Hu & Hs & [k ->]). left. exists suffix. simpl.
  split; [done|]. split; [done|]. unfold chop.
  rewrite length_app, Nat.add_sub. by rewrite take_app_length.
Qed.
End Widget.


(** ** The widget at a sample *)

(** The units of a length, with suffixes as UTF-16 code units ("mm",
    "um", "nm", "in", "mil"), a parser of digit strings and a conversion
    that multiplies: a table, a parser and a conversion to run the
    operations on. *)
Inductive SampleUnit := Millimeters | Micrometers | Nanometers | Inches | Mils.

#[global] Instance SampleUnit_eq_dec : EqDecision SampleUnit.
Proof. solve_decision. Defined.

Definition sample_units : list SampleUnit :=
  [Millimeters; Micrometers; Nanometers; Inches; Mils].

Definition sample_suffixes (unit : SampleUnit) : list (list Z) :=
  match unit with
  | Millimeters => [[109; 109]]
  | Micrometers => [[117; 109]]
  | Nanometers => [[110; 109]]
  | Inches => [[105; 110]]
  | Mils => [[109; 105; 108]]
  end.

Definition sample_parse (text : list Z) : option Z :=
  match text with
  | [] => None
  | _ =>
      foldl (λ acc c, n ← acc; if (48 <=? c) && (c <=? 57) then Some (n * 10 + (c - 48))
                                else None) (Some 0) text
  end.

Definition sample_convert (unit : SampleUnit) (result : Z) : option Z :=
  Some (result * match unit with
                 | Millimeters => 1000000
                 | Micrometers => 1000
                 | Nanometers => 1
                 | Inches => 25400000
                 | Mils => 25400
                 end).

(** A widget at 1 mm with the steps 0.1 mm and 1 mm, before and after
    [updateSingleStep]. *)
Definition sample_widget : Widget :=
  mkWidget Millimeters 0 1000000000 1000000 [100000; 1000000] 0 0 [].
Definition sample_widget_stepped : Widget :=
  mkWidget Millimeters 0 1000000000 1000000 [100000; 1000000] 1000000 100000 [].

Lemma sample_widget_good : Good sample_widget.
Proof. split; simpl; try lia. repeat (apply Forall_cons; split; [lia|]). done. Qed.

Lemma value_stays_in_range_witness :
  ∃ s0 s,
    LengthEditBase Millimeters 0 1000000000 1000000 = Some s0 ∧
    run Millimeters sample_units sample_suffixes sample_parse sample_convert
      [op_stepBy 1; op_updateValueFromText [50; 109; 109]; op_setValueImpl (-5)] s0
      = Some s ∧
    mMinimum s = 0 ∧ mMaximum s = 1000000000 ∧ 0 ≤ mValue s ≤ 1000000000.
Proof.
  apply (value_stays_in_range Millimeters sample_units sample_suffixes sample_parse
           sample_convert 0 1000000000 1000000).
  - lia.
  - lia.
  - lia.
  - repeat (apply Forall_cons; split; [simpl; lia || done|]). done.
Defined.

Lemma setValueImpl_clips_witness :
  ∃ s', setValueImpl 2000000000 sample_widget = Some s' ∧
    mValue s' = qBound (mMinimum sample_widget) 2000000000 (mMaximum sample_widget) ∧
    mMinimum sample_widget ≤ mValue s' ≤ mMaximum sample_widget ∧
    (mMinimum sample_widget ≤ 2000000000 ≤ mMaximum sample_widget →
     mValue s' = 2000000000) ∧
    (qBound (mMinimum sample_widget) 2000000000 (mMaximum sample_widget)
       = mValue sample_widget → s' = sample_widget) ∧
    (qBound (mMinimum sample_widget) 2000000000 (mMaximum sample_widget)
       ≠ mValue sample_widget →
     calls s' = calls sample_widget ++ [updateText; valueChangedImpl; update]).
Proof. apply (setValueImpl_clips 2000000000 sample_widget sample_widget_good). Defined.

Lemma updateSingleStep_steps_witness :
  ∃ s', updateSingleStep sample_widget = Some s' ∧
    (mValue sample_widget = 0 ∨ mValue sample_widget = mMinimum sample_widget →
     s' = sample_widget) ∧
    (mValue sample_widget ≠ 0 → mValue sample_widget ≠ mMinimum sample_widget →
     (mSingleStepUp s' = 0 ∨
      mSingleStepUp s' ∈ mSteps sample_widget ∧
      Z.rem (mValue sample_widget) (mSingleStepUp s') = 0) ∧
     (mSingleStepDown s' = 0 ∨
      mSingleStepDown s' ∈ mSteps sample_widget ∧
      Z.rem (mValue sample_widget) (mSingleStepDown s') = 0) ∧
     (0 < mValue sample_widget →
      mSingleStepUp s' =
        default 0 (last (dividing (mValue sample_widget) (mSteps sample_widget)))) ∧
     (0 < mSingleStepDown s' →
      mMinimum sample_widget ≤ mValue sample_widget - mSingleStepDown s')).
Proof. apply (updateSingleStep_steps sample_widget sample_widget_good). Defined.

Lemma stepBy_stepEnabled_witness :
  ∃ s', stepBy 1 sample_widget_stepped = Some s' ∧
    (1 = 0 → s' = sample_widget_stepped) ∧
    (0 < 1 → mValue sample_widget_stepped ≤ mValue s' ∧
       (mValue sample_widget_stepped < mValue s' ↔
        Z.land (stepEnabled sample_widget_stepped) StepUpEnabled ≠ 0)) ∧
    (1 < 0 → mValue s' ≤ mValue sample_widget_stepped ∧
       (mValue s' < mValue sample_widget_stepped ↔
        Z.land (stepEnabled sample_widget_stepped) StepDownEnabled ≠ 0)).
Proof.
  apply (stepBy_stepEnabled 1 sample_widget_stepped).
  - split; simpl; try lia. repeat (apply Forall_cons; split; [lia|]). done.
  - lia.
Defined.

Lemma single_step_exact_witness :
  (0 < mSingleStepDown sample_widget_stepped →
   ∃ s2, stepBy (-1) sample_widget_stepped = Some s2 ∧
     mValue s2 = mValue sample_widget - mSingleStepDown sample_widget_stepped) ∧
  (0 < mSingleStepUp sample_widget_stepped →
   mValue sample_widget + mSingleStepUp sample_widget_stepped ≤ mMaximum sample_widget →
   ∃ s2, stepBy 1 sample_widget_stepped = Some s2 ∧
     mValue s2 = mValue sample_widget + mSingleStepUp sample_widget_stepped ∧
     Z.rem (mValue s2) (mSingleStepUp sample_widget_stepped) = 0).
Proof.
  apply (single_step_exact sample_widget sample_widget_stepped sample_widget_good).
  - done.
  - done.
  - reflexivity.
Defined.

Lemma updateValueFromText_accepts_witness :
  ∃ s', updateValueFromText sample_units sample_suffixes sample_parse sample_convert
          [50; 109; 109] sample_widget = Some s' ∧
    ((∃ result value,
        sample_parse (extractUnitFromExpression sample_units sample_suffixes
                        [50; 109; 109] sample_widget).2 = Some result ∧
        sample_convert (extractUnitFromExpression sample_units sample_suffixes
                          [50; 109; 109] sample_widget).1 result = Some value ∧
        mMinimum sample_widget ≤ value ≤ mMaximum sample_widget ∧
        mValue s' = value ∧
        mUnit s' = (extractUnitFromExpression sample_units sample_suffixes
                      [50; 109; 109] sample_widget).1 ∧
        calls s' = calls sample_widget ++ [valueChangedImpl; update])
     ∨ s' = sample_widget ∧
       ¬ ∃ result value,
           sample_parse (extractUnitFromExpression sample_units sample_suffixes
                           [50; 109; 109] sample_widget).2 = Some result ∧
           sample_convert (extractUnitFromExpression sample_units sample_suffixes
                             [50; 109; 109] sample_widget).1 result = Some value ∧
           mMinimum sample_widget ≤ value ≤ mMaximum sample_widget).
Proof.
  apply (updateValueFromText_accepts sample_units sample_suffixes sample_parse
           sample_convert [50; 109; 109] sample_widget sample_widget_good).
Defined.

End LengthEditBase.

(** * The schematics and boards of a [Project] *)

Module Project.

(** What a call leaves: an assertion failed ([Q_ASSERT], which stops a
    debug build; the source says nothing on what follows otherwise), an
    exception was thrown and the project is as it was, or the project
    after the call. *)
Inductive Outcome (A : Type) :=
| assertion_failed
| thrown
| returned (p : A).
Arguments assertion_failed {A}.
Arguments thrown {A}.
Arguments returned {A} p.

Section Schematics.

Local Set Default Proof Using "Type".

(** The pointers to schematics, with what is read through them; whether
    [addToProject] and [removeFromProject] throw is up to code that is
    not among the sources.  A [Schematic*] handed to [addSchematic] or
    [removeSchematic] may be the null pointer: it is an
    [option Schematic], [None] for null.  The lists hold pointers that
    are not null, [addSchematic] being the one place that puts a pointer
    in.  The boards are kept by the same code, with [Board] for
    [Schematic] in every name. *)
Context {Schematic QUuid QString : Type}.
Context `{!EqDecision Schematic} `{!EqDecision QUuid} `{!EqDecision QString}.
Variable getUuid : Schematic → QUuid.
Variable getName : Schematic → QString.
Variable isEmpty : Schematic → bool.
Variable addToProject_throws : Schematic → bool.
Variable removeFromProject_throws : Schematic → bool.

Inductive Signal :=
| schematicAdded (newIndex : Z)
| schematicRemoved (index : Z)
| attributesChanged
| deleted (schematic : Schematic).

Record Project := mkProject {
  mSchematics : list Schematic;
  mRemovedSchematics : list Schematic;
  emitted : list Signal
}.

(** [QList::indexOf], [QList::insert], [QList::removeAt] and
    [QList::removeOne]. *)
Fixpoint indexOf (l : list Schematic) (value : Schematic) (from : Z) : Z :=
  match l with
  | [] => -1
  | x :: l' => if decide (x = value) then from else indexOf l' value (from + 1)
  end.

Definition insert_at (i : Z) (value : Schematic) (l : list Schematic) : list Schematic :=
  take (Z.to_nat i) l ++ value :: drop (Z.to_nat i) l.

Definition removeAt (i : Z) (l : list Schematic) : list Schematic :=
  if (0 <=? i) && (i <? Z.of_nat (length l)) then delete (Z.to_nat i) l else l.

Fixpoint removeOne (value : Schematic) (l : list Schematic) : list Schematic :=
  match l with
  | [] => []
  | x :: l' => if decide (x = value) then l' else x :: removeOne value l'
  end.

Definition getSchematicIndex (schematic : Schematic) (p : Project) : Z :=
  indexOf (mSchematics p) schematic 0.

Fixpoint first_with {B} `{!EqDecision B} (f : Schematic → B) (b : B)
    (l : list Schematic) : option Schematic :=
  match l with
  | [] => None
  | schematic :: l' =>
      if decide (f schematic = b) then Some schematic else first_with f b l'
  end.

Definition getSchematicByUuid (uuid : QUuid) (p : Project) : option Schematic :=
  first_with getUuid uuid (mSchematics p).

Definition getSchematicByName (name : QString) (p : Project) : option Schematic :=
  first_with getName name (mSchematics p).

Definition addSchematic (schematic : option Schematic) (newIndex : Z) (p : Project)
  : Outcome Project :=
  match schematic with
  | None => assertion_failed
  | Some schematic =>
      let count := Z.of_nat (length (mSchematics p)) in
      let newIndex :=
        if (newIndex <? 0) || (count <? newIndex) then count else newIndex in
      if bool_decide (is_Some (getSchematicByUuid (getUuid schematic) p)) then thrown
      else if bool_decide (is_Some (getSchematicByName (getName schematic) p)) then thrown
      else if addToProject_throws schematic then thrown
      else
        returned
          (mkProject (insert_at newIndex schematic (mSchematics p))
             (if decide (schematic ∈ mRemovedSchematics p)
              then removeOne schematic (mRemovedSchematics p)
              else mRemovedSchematics p)
             (emitted p ++ [schematicAdded newIndex; attributesChanged]))
  end.

Definition removeSchematic (schematic : option Schematic) (deleteSchematic : bool)
    (p : Project) : Outcome Project :=
  match schematic with
  | None => assertion_failed
  | Some schematic =>
      let index := indexOf (mSchematics p) schematic 0 in
      if index <? 0 then assertion_failed
      else if decide (schematic ∈ mRemovedSchematics p) then assertion_failed
      else if negb deleteSchematic && negb (isEmpty schematic) then thrown
      else if removeFromProject_throws schematic then thrown
      else
        returned
          (mkProject (removeAt index (mSchematics p))
             (if deleteSchematic then mRemovedSchematics p
              else mRemovedSchematics p ++ [schematic])
             (emitted p ++ [schematicRemoved index; attributesChanged] ++
              (if deleteSchematic then [deleted schematic] else [])))
  end.

(** No two schematics of the project share a UUID or a name. *)
Definition unique (p : Project) : Prop :=
  NoDup (getUuid <$> mSchematics p) ∧ NoDup (getName <$> mSchematics p).

Lemma first_with_None {B} `{!EqDecision B} (f : Schematic → B) b l :
  first_with f b l = None ↔ b ∉ f <$> l.
Proof.
  induction l as [|x l IH]; [split; [intros _ ?%not_elem_of_nil; done|done]|].
  cbn [first_with]. rewrite fmap_cons, not_elem_of_cons. destruct (decide (f x = b)) as [Hx|Hx].
  - split; [done|]. by intros [? _].
  - rewrite IH. split; [by intros ?; split|by intros [_ ?]].
Qed.

Lemma first_with_Some {B} `{!EqDecision B} (f : Schematic → B) b l x :
  first_with f b l = Some x → x ∈ l ∧ f x = b.
Proof.
  induction l as [|y l IH]; simpl; [done|].
  destruct (decide (f y = b)) as [Hy|Hy].
  - intros [= ->]. split; [by left|done].
  - intros [? ?]%IH. split; [by right|done].
Qed.

Lemma first_with_insert {B} `{!EqDecision B} (f : Schematic → B) l1 l2 x :
  f x ∉ f <$> l1 → first_with f (f x) (l1 ++ x :: l2) = Some x.
Proof.
  induction l1 as [|y l1 IH]; [simpl; by rewrite decide_True|].
  rewrite fmap_cons, not_elem_of_cons. intros [Hy Hl1]. simpl.
  rewrite decide_False by done. by apply IH.
Qed.

Lemma indexOf_insert l1 l2 x from :
  x ∉ l1 → indexOf (l1 ++ x :: l2) x from = from + Z.of_nat (length l1).
Proof.
  revert from. induction l1 as [|y l1 IH]; intros from; simpl.
  { intros _. rewrite decide_True by done. lia. }
  rewrite not_elem_of_cons. intros [Hy Hl1].
  rewrite decide_False by done. rewrite IH by done. lia.
Qed.

Lemma indexOf_notin l x from : x ∉ l → indexOf l x from = -1.
Proof.
  revert from. induction l as [|y l IH]; intros from; simpl; [done|].
  rewrite not_elem_of_cons. intros [Hy Hl]. rewrite decide_False by done. by apply IH.
Qed.

Lemma removeOne_snoc l x : x ∉ l → removeOne x (l ++ [x]) = l.
Proof.
  induction l as [|y l IH]; simpl; [by rewrite decide_True|].
  rewrite not_elem_of_cons. intros [Hy Hl]. rewrite decide_False by done.
  by rewrite IH.
Qed.

Lemma removeAt_insert l1 l2 x :
  removeAt (Z.of_nat (length l1)) (l1 ++ x :: l2) = l1 ++ l2.
Proof.
  unfold removeAt. rewrite length_app. simpl.
  destruct (Z.leb_spec 0 (Z.of_nat (length l1))); [|lia].
  destruct (Z.ltb_spec (Z.of_nat (length l1)) (Z.of_nat (length l1 + S (length l2))));
    [|lia].
  simpl. rewrite Nat2Z.id. rewrite delete_middle. done.
Qed.

Lemma insert_at_app l1 l2 x :
  insert_at (Z.of_nat (length l1)) x (l1 ++ l2) = l1 ++ x :: l2.
Proof.
  unfold insert_at. rewrite Nat2Z.id. by rewrite take_app_length, drop_app_length.
Qed.

(** The index [addSchematic] puts the schematic at. *)
Definition clamped (newIndex : Z) (p : Project) : Z :=
  if (newIndex <? 0) || (Z.of_nat (length (mSchematics p)) <? newIndex)
  then Z.of_nat (length (mSchematics p)) else newIndex.

Lemma clamped_range newIndex p :
  0 ≤ clamped newIndex p ≤ Z.of_nat (length (mSchematics p)).
Proof.
  unfold clamped. destruct (Z.ltb_spec newIndex 0),
    (Z.ltb_spec (Z.of_nat (length (mSchematics p))) newIndex); simpl; lia.
Qed.

Lemma removeOne_notin l x : x ∉ l → removeOne x l = l.
Proof.
  induction l as [|y l IH]; simpl; [done|].
  rewrite not_elem_of_cons. intros [Hy Hl]. rewrite decide_False by done.
  by rewrite IH.
Qed.

Lemma removeOne_NoDup l x : NoDup l → x ∉ removeOne x l.
Proof.
  induction 1 as [|y l Hy Hl IH]; simpl; [by intros ?%not_elem_of_nil|].
  destruct (decide (y = x)) as [->|Hne]; [done|].
  rewrite not_elem_of_cons. split; [done|exact IH].
Qed.

Lemma removeOne_length l x : x ∈ l → S (length (removeOne x l)) = length l.
Proof.
  induction l as [|y l IH]; simpl; [by intros ?%not_elem_of_nil|].
  destruct (decide (y = x)) as [->|Hne]; [done|].
  intros [?|Hin]%elem_of_cons; [done|]. simpl. by rewrite IH.
Qed.

Lemma addSchematic_returned schematic newIndex p p' :
  addSchematic (Some schematic) newIndex p = returned p' →
  (getUuid schematic ∉ getUuid <$> mSchematics p) ∧
  (getName schematic ∉ getName <$> mSchematics p) ∧
  addToProject_throws schematic = false ∧
  ∃ l1 l2, mSchematics p = l1 ++ l2 ∧ Z.of_nat (length l1) = clamped newIndex p ∧
    p' = mkProject (l1 ++ schematic :: l2)
           (if decide (schematic ∈ mRemovedSchematics p)
            then removeOne schematic (mRemovedSchematics p)
            else mRemovedSchematics p)
           (emitted p ++ [schematicAdded (clamped newIndex p); attributesChanged]).
Proof.
  unfold addSchematic. fold (clamped newIndex p).
  pose proof (clamped_range newIndex p) as Hc.
  case_bool_decide as Hu; [done|]. case_bool_decide as Hn; [done|].
  destruct (addToProject_throws schematic); [done|]. intros [= <-].
  rewrite <-eq_None_not_Some in Hu, Hn.
  unfold getSchematicByUuid, getSchematicByName in *.
  apply first_with_None in Hu, Hn. split; [done|]. split; [done|]. split; [done|].
  exists (take (Z.to_nat (clamped newIndex p)) (mSchematics p)),
    (drop (Z.to_nat (clamped newIndex p)) (mSchematics p)).
  split; [by rewrite take_drop|]. split; [|done].
  rewrite length_take. lia.
Qed.

(** X19. The assertion of [addSchematic] fails exactly for the null
    pointer.  For a schematic, [addSchematic] throws exactly when a
    schematic of the project has the UUID or the name of the new one
    already, or when [addToProject] throws; otherwise it returns. *)
Theorem addSchematic_throws (schematic : option Schematic) (newIndex : Z) (p : Project) :
  (addSchematic schematic newIndex p = assertion_failed ↔ schematic = None) ∧
  (addSchematic schematic newIndex p = thrown ↔
   ∃ s, schematic = Some s ∧
     (getUuid s ∈ getUuid <$> mSchematics p ∨
      getName s ∈ getName <$> mSchematics p ∨
      addToProject_throws s = true)) ∧
  (∀ s, schematic = Some s →
     (getUuid s ∉ getUuid <$> mSchematics p) →
     (getName s ∉ getName <$> mSchematics p) →
     addToProject_throws s = false →
     ∃ p', addSchematic schematic newIndex p = returned p').
Proof.
  destruct schematic as [schematic|]; simpl.
  2:{ split; [done|]. split; [|by intros s [=]]. split; [done|]. by intros (s & [=] & _). }
  assert ((addSchematic (Some schematic) newIndex p = thrown ↔
           getUuid schematic ∈ getUuid <$> mSchematics p ∨
           getName schematic ∈ getName <$> mSchematics p ∨
           addToProject_throws schematic = true) ∧
          addSchematic (Some schematic) newIndex p ≠ assertion_failed) as [Hthrown Hassert].
  2:{ split; [split; [done|by intros [=]]|]. split.
      - rewrite Hthrown. split; [intros H; by exists schematic|].
        by intros (s & [= <-] & H).
      - intros s [= <-] Hu Hn Ht.
        destruct (addSchematic (Some schematic) newIndex p) as [| |p'] eqn:Hadd.
        + done.
        + destruct (proj1 Hthrown eq_refl) as [?|[?|?]]; [done|done|congruence].
        + by exists p'. }
  unfold addSchematic, getSchematicByUuid, getSchematicByName.
  pose proof (first_with_None getUuid (getUuid schematic) (mSchematics p)) as Hu.
  pose proof (first_with_None getName (getName schematic) (mSchematics p)) as Hn.
  destruct (first_with getUuid _ _) as [x|].
  { rewrite bool_decide_eq_true_2 by done. split; [|done]. split; [intros _|done].
    left. destruct (decide (getUuid schematic ∈ getUuid <$> mSchematics p)); [done|].
    by apply Hu in n. }
  rewrite bool_decide_eq_false_2 by (by intros [? ?]).
  destruct (first_with getName _ _) as [x|].
  { rewrite bool_decide_eq_true_2 by done. split; [|done]. split; [intros _|done].
    right. left. destruct (decide (getName schematic ∈ getName <$> mSchematics p)); [done|].
    by apply Hn in n. }
  rewrite bool_decide_eq_false_2 by (by intros [? ?]).
  destruct (addToProject_throws schematic); (split; [|done]).
  - split; [intros _; by right; right|done].
  - split; [done|]. intros [Hin|[Hin|?]]; [| |done].
    + by apply Hu in Hin.
    + by apply Hn in Hin.
Qed.

(** X20. A schematic added is found: by its UUID, by its name, and at
    the index asked for, or at the end when that index is out of range.
    The schematics that were there keep their order, and UUIDs and names
    stay unique. *)
Theorem addSchematic_found (schematic : Schematic) (newIndex : Z) (p p' : Project) :
  unique p → addSchematic (Some schematic) newIndex p = returned p' →
  unique p' ∧
  getSchematicByUuid (getUuid schematic) p' = Some schematic ∧
  getSchematicByName (getName schematic) p' = Some schematic ∧
  getSchematicIndex schematic p' = clamped newIndex p ∧
  0 ≤ clamped newIndex p ≤ Z.of_nat (length (mSchematics p)) ∧
  (0 ≤ newIndex ≤ Z.of_nat (length (mSchematics p)) → clamped newIndex p = newIndex) ∧
  mSchematics p' = take (Z.to_nat (clamped newIndex p)) (mSchematics p) ++
                   schematic :: drop (Z.to_nat (clamped newIndex p)) (mSchematics p) ∧
  emitted p' = emitted p ++ [schematicAdded (clamped newIndex p); attributesChanged].
Proof.
  intros [Hnu Hnn] Hadd.
  destruct (addSchematic_returned _ _ _ _ Hadd)
    as (Hu & Hn & _ & l1 & l2 & Hl & Hlen & ->).
  rewrite Hl in Hu, Hn, Hnu, Hnn. rewrite fmap_app, not_elem_of_app in Hu.
  rewrite fmap_app, not_elem_of_app in Hn.
  destruct Hu as [Hu1 Hu2]. destruct Hn as [Hn1 Hn2].
  unfold unique, getSchematicByUuid, getSchematicByName, getSchematicIndex. simpl.
  split; [split|].
  - rewrite fmap_app, fmap_cons. apply NoDup_app. rewrite fmap_app in Hnu.
    apply NoDup_app in Hnu as (? & Hd & ?). split; [done|]. split.
    + intros u Hin [->|?]%elem_of_cons; [done|]. by eapply Hd.
    + by apply NoDup_cons.
  - rewrite fmap_app, fmap_cons. apply NoDup_app. rewrite fmap_app in Hnn.
    apply NoDup_app in Hnn as (? & Hd & ?). split; [done|]. split.
    + intros u Hin [->|?]%elem_of_cons; [done|]. by eapply Hd.
    + by apply NoDup_cons.
  - split; [by apply first_with_insert|]. split; [by apply first_with_insert|].
    split.
    { rewrite indexOf_insert; [lia|]. intros Hin. apply Hu1.
      apply list_elem_of_fmap. by exists schematic. }
    split; [apply clamped_range|]. split.
    { intros Hr. unfold clamped.
      destruct (Z.ltb_spec newIndex 0),
        (Z.ltb_spec (Z.of_nat (length (mSchematics p))) newIndex); simpl; lia. }
    split; [|done].
    rewrite <-Hlen, Nat2Z.id, Hl. by rewrite take_app_length, drop_app_length.
Qed.

(** X21. Taking a schematic out without deleting it and adding it again
    at its index gives back the lists of the project.  Adding a schematic
    and removing it with deletion gives back the list of schematics and
    leaves the list of removed schematics without the schematic: as it
    was when the schematic was not in it, and one shorter when it was. *)
Theorem remove_add_round_trip (schematic : Schematic) (p : Project) :
  unique p → NoDup (mRemovedSchematics p) →
  (∀ p1, removeSchematic (Some schematic) false p = returned p1 →
     addToProject_throws schematic = false →
     ∃ p2, addSchematic (Some schematic) (getSchematicIndex schematic p) p1 = returned p2 ∧
       mSchematics p2 = mSchematics p ∧ mRemovedSchematics p2 = mRemovedSchematics p) ∧
  (∀ newIndex p1, addSchematic (Some schematic) newIndex p = returned p1 →
     removeFromProject_throws schematic = false →
     ∃ p2, removeSchematic (Some schematic) true p1 = returned p2 ∧
       mSchematics p2 = mSchematics p ∧
       mRemovedSchematics p2 = removeOne schematic (mRemovedSchematics p) ∧
       (schematic ∉ mRemovedSchematics p →
        mRemovedSchematics p2 = mRemovedSchematics p) ∧
       (schematic ∈ mRemovedSchematics p →
        S (length (mRemovedSchematics p2)) = length (mRemovedSchematics p))).
Proof.
  intros [Hnu Hnn] Hndr. split.
  - intros p1. unfold removeSchematic, getSchematicIndex.
    destruct (decide (schematic ∈ mSchematics p)) as [Hin|Hnotin];
      [|by rewrite indexOf_notin by done].
    apply list_elem_of_split_l in Hin as (l1 & l2 & Hl & Hl1).
    rewrite Hl, indexOf_insert by done. rewrite Z.add_0_l.
    destruct (Z.ltb_spec (Z.of_nat (length l1)) 0); [lia|].
    destruct (decide (schematic ∈ mRemovedSchematics p)) as [|Hrem]; [done|].
    destruct (negb false && negb (isEmpty schematic)); [done|].
    destruct (removeFromProject_throws schematic); [done|].
    intros [= <-] Hadd. rewrite removeAt_insert.
    rewrite Hl, fmap_app, fmap_cons in Hnu. rewrite Hl, fmap_app, fmap_cons in Hnn.
    apply NoDup_app in Hnu as (_ & Hu1 & [Hu2 _]%NoDup_cons).
    apply NoDup_app in Hnn as (_ & Hn1 & [Hn2 _]%NoDup_cons).
    unfold addSchematic, getSchematicByUuid, getSchematicByName. simpl.
    rewrite bool_decide_eq_false_2.
    2:{ rewrite <-eq_None_not_Some, first_with_None, fmap_app, not_elem_of_app.
        split; [|done]. intros Hin. apply (Hu1 _ Hin). by left. }
    rewrite bool_decide_eq_false_2.
    2:{ rewrite <-eq_None_not_Some, first_with_None, fmap_app, not_elem_of_app.
        split; [|done]. intros Hin. apply (Hn1 _ Hin). by left. }
    rewrite Hadd. eexists. split; [done|]. simpl.
    rewrite length_app.
    destruct (Z.ltb_spec (Z.of_nat (length l1)) 0); [lia|].
    destruct (Z.ltb_spec (Z.of_nat (length l1 + length l2)) (Z.of_nat (length l1)));
      [lia|]. simpl.
    rewrite insert_at_app. split; [done|].
    rewrite decide_True by (apply elem_of_app; right; by left).
    by apply removeOne_snoc.
  - intros newIndex p1 Hadd Hthrows.
    destruct (addSchematic_returned _ _ _ _ Hadd)
      as (Hu & _ & _ & l1 & l2 & Hl & Hlen & ->).
    assert ((if decide (schematic ∈ mRemovedSchematics p)
             then removeOne schematic (mRemovedSchematics p)
             else mRemovedSchematics p) = removeOne schematic (mRemovedSchematics p)) as ->.
    { destruct (decide (schematic ∈ mRemovedSchematics p)); [done|].
      by rewrite removeOne_notin. }
    assert (schematic ∉ l1) as Hl1.
    { intros Hin. apply Hu. apply list_elem_of_fmap. exists schematic.
      split; [done|]. rewrite Hl. apply elem_of_app. by left. }
    unfold removeSchematic. simpl. rewrite indexOf_insert by done. rewrite Z.add_0_l.
    destruct (Z.ltb_spec (Z.of_nat (length l1)) 0); [lia|].
    rewrite decide_False by (by apply removeOne_NoDup). simpl. rewrite Hthrows.
    eexists. split; [done|]. simpl. rewrite removeAt_insert.
    split; [done|]. split; [done|]. split.
    + apply removeOne_notin.
    + apply removeOne_length.
Qed.
End Schematics.


(** ** A sample project *)

(** Schematics as addresses, with UUIDs and names made from them, and
    with [addToProject] and [removeFromProject] that do not throw. *)
Definition sample_project : Project (Schematic := Z) := mkProject [1; 2; 3] [] [].

Lemma sample_project_unique :
  unique (λ z, z + 1000) (λ z, z + 2000) sample_project.
Proof. split; apply (bool_decide_unpack _); by vm_compute. Qed.

Lemma addSchematic_found_witness :
  unique (λ z, z + 1000) (λ z, z + 2000)
    (mkProject [1; 4; 2; 3] [] [schematicAdded 1; attributesChanged]) ∧
  getSchematicByUuid (λ z, z + 1000) 1004
    (mkProject [1; 4; 2; 3] [] [schematicAdded 1; attributesChanged]) = Some 4 ∧
  getSchematicByName (λ z, z + 2000) 2004
    (mkProject [1; 4; 2; 3] [] [schematicAdded 1; attributesChanged]) = Some 4 ∧
  getSchematicIndex 4 (mkProject [1; 4; 2; 3] [] [schematicAdded 1; attributesChanged])
    = clamped 1 sample_project ∧
  0 ≤ clamped 1 sample_project ≤ Z.of_nat (length (mSchematics sample_project)) ∧
  (0 ≤ 1 ≤ Z.of_nat (length (mSchematics sample_project)) →
   clamped 1 sample_project = 1) ∧
  [1; 4; 2; 3] = take (Z.to_nat (clamped 1 sample_project)) (mSchematics sample_project) ++
                 4 :: drop (Z.to_nat (clamped 1 sample_project)) (mSchematics sample_project) ∧
  [schematicAdded 1; attributesChanged] =
    emitted sample_project ++ [schematicAdded (clamped 1 sample_project); attributesChanged].
Proof.
  apply (addSchematic_found (λ z, z + 1000) (λ z, z + 2000) (λ _, false) 4 1 sample_project
           (mkProject [1; 4; 2; 3] [] [schematicAdded 1; attributesChanged])
           sample_project_unique).
  reflexivity.
Defined.

(** A project with a schematic in its list of removed schematics. *)
Definition sample_project_removed : Project (Schematic := Z) :=
  mkProject [1; 3] [2] [].

Lemma sample_project_removed_unique :
  unique (λ z, z + 1000) (λ z, z + 2000) sample_project_removed.
Proof. split; apply (bool_decide_unpack _); by vm_compute. Qed.

Lemma remove_add_round_trip_witness :
  (∃ p2, addSchematic (λ z, z + 1000) (λ z, z + 2000) (λ _, false) (Some 2)
           (getSchematicIndex 2 sample_project)
           (mkProject [1; 3] [2] [schematicRemoved 1; attributesChanged]) = returned p2 ∧
     mSchematics p2 = mSchematics sample_project ∧
     mRemovedSchematics p2 = mRemovedSchematics sample_project) ∧
  (∃ p2, removeSchematic (λ _, true) (λ _, false) (Some 4) true
           (mkProject [1; 4; 2; 3] [] [schematicAdded 1; attributesChanged]) = returned p2 ∧
     mSchematics p2 = mSchematics sample_project ∧
     mRemovedSchematics p2 = mRemovedSchematics sample_project) ∧
  (∃ p2, removeSchematic (λ _, true) (λ _, false) (Some 2) true
           (mkProject [1; 2; 3] [] [schematicAdded 1; attributesChanged]) = returned p2 ∧
     mSchematics p2 = mSchematics sample_project_removed ∧
     mRemovedSchematics p2 = [] ∧
     S (length (mRemovedSchematics p2)) = length (mRemovedSchematics sample_project_removed)).
Proof.
  split; [|split].
  - apply (remove_add_round_trip (λ z, z + 1000) (λ z, z + 2000) (λ _, true) (λ _, false)
             (λ _, false) 2 sample_project sample_project_unique (NoDup_nil_2));
      reflexivity.
  - destruct (proj2 (remove_add_round_trip (λ z, z + 1000) (λ z, z + 2000) (λ _, true)
                       (λ _, false) (λ _, false) 4 sample_project sample_project_unique
                       (NoDup_nil_2)) 1
                (mkProject [1; 4; 2; 3] [] [schematicAdded 1; attributesChanged]))
      as (p2 & Hp2 & Hs & _ & Hsame & _); [reflexivity|reflexivity|].
    exists p2. split; [exact Hp2|]. split; [exact Hs|]. apply Hsame.
    apply (bool_decide_unpack _). by vm_compute.
  - destruct (proj2 (remove_add_round_trip (λ z, z + 1000) (λ z, z + 2000) (λ _, true)
                       (λ _, false) (λ _, false) 2 sample_project_removed
                       sample_project_removed_unique
                       (NoDup_singleton 2)) 1
                (mkProject [1; 2; 3] [] [schematicAdded 1; attributesChanged]))
      as (p2 & Hp2 & Hs & Hr & _ & Hshorter); [reflexivity|reflexivity|].
    exists p2. split; [exact Hp2|]. split; [exact Hs|]. split; [exact Hr|].
    apply Hshorter. apply (bool_decide_unpack _). by vm_compute.
Defined.

Lemma addSchematic_throws_witness :
  addSchematic (λ z, z + 1000) (λ z, z + 2000) (λ _, false) None 0 sample_project
    = assertion_failed ∧
  addSchematic (λ z, z + 1000) (λ z, z + 2000) (λ _, false) (Some 2) 0 sample_project
    = thrown ∧
  ∃ p', addSchematic (λ z, z + 1000) (λ z, z + 2000) (λ _, false) (Some 4) 0
          sample_project = returned p'.
Proof.
  split; [|split].
  - by apply (proj1 (addSchematic_throws (λ z, z + 1000) (λ z, z + 2000) (λ _, false)
                       None 0 sample_project)).
  - apply (proj1 (proj2 (addSchematic_throws (λ z, z + 1000) (λ z, z + 2000) (λ _, false)
                           (Some 2) 0 sample_project))).
    exists 2. split; [done|]. left. apply (bool_decide_unpack _). by vm_compute.
  - apply (proj2 (proj2 (addSchematic_throws (λ z, z + 1000) (λ z, z + 2000) (λ _, false)
                           (Some 4) 0 sample_project)) 4 eq_refl).
    + apply (bool_decide_unpack _). by vm_compute.
    + apply (bool_decide_unpack _). by vm_compute.
    + reflexivity.
Defined.

End Project.
